(** * scip-typescript: symbol naming and occurrence emission

    A shallow embedding of the descriptor codec ([Descriptor.ts]), of the
    per-file indexer ([FileIndexer.ts]) and of the occurrence lines of the
    snapshot formatter ([SnapshotTesting.ts]), with the properties the
    specification states about them.

    Conventions.
    - A JavaScript string is modelled as a [string] (a sequence of 8-bit
      characters).  The codec only ever inspects the characters of
      [[A-Za-z0-9_$+-]] and the backtick, all of which are ASCII.
    - A syntax-tree node ([ts.Node]) is an arena index ([Node := nat]); the
      tree, the type checker and the package resolver are the fields of a
      [Program] record, one field per accessor the source calls.
    - The indexer mutates four maps/counters and the document; these are
      the fields of [State], threaded through a state-and-failure monad.
      [None] stands for an uncaught JavaScript exception or for exhausted
      recursion fuel. *)

From Stdlib Require Import String Ascii ZArith Lia DecimalString DecimalNat.
From stdpp Require Import gmap strings list relations.

Local Open Scope string_scope.

(* ===================================================================== *)
(** ** Descriptor codec ([Descriptor.ts]) *)
(* ===================================================================== *)

Module Descriptor.

(** The cases of the [switch] of [descriptorString].  The [default:] branch
    of the source throws for any other numeric value of the protobuf enum;
    this type has no such value, so the branch has no counterpart. *)
Inductive Suffix : Set :=
  | Package | Type_ | Term | Meta | Method | Parameter_ | TypeParameter.

#[global] Instance Suffix_eq_dec : EqDecision Suffix.
Proof. solve_decision. Defined.

Record t : Set := Build {
  name : string;
  suffix : Suffix;
  disambiguator : option string
}.

#[global] Instance t_eq_dec : EqDecision t.
Proof. solve_decision. Defined.

Definition packageDescriptor (n : string) : t := Build n Package None.
Definition typeDescriptor (n : string) : t := Build n Type_ None.
Definition termDescriptor (n : string) : t := Build n Term None.
Definition metaDescriptor (n : string) : t := Build n Meta None.
Definition methodDescriptor (n : string) : t := Build n Method None.
Definition parameterDescriptor (n : string) : t := Build n Parameter_ None.
Definition typeParameterDescriptor (n : string) : t := Build n TypeParameter None.

Definition backtick : ascii := "`"%char.

(** One character of the class [[\w$+-]]: letters, digits, underscore,
    dollar, plus, minus. *)
Definition isSimpleChar (c : ascii) : bool :=
  let n := N_of_ascii c in
  ((48 <=? n) && (n <=? 57) || (65 <=? n) && (n <=? 90)
   || (97 <=? n) && (n <=? 122) || (n =? 95)
   || (n =? 36) || (n =? 43) || (n =? 45))%N.

Fixpoint allSimple (s : string) : bool :=
  match s with
  | EmptyString => true
  | String c r => isSimpleChar c && allSimple r
  end.

(** [/^[\w$+-]+$/i.test(name)] *)
Definition isSimpleIdentifier (n : string) : bool :=
  match n with
  | EmptyString => false
  | String _ _ => allSimple n
  end.

(** [name.replaceAll('`', '``')] *)
Fixpoint doubleBackticks (s : string) : string :=
  match s with
  | EmptyString => EmptyString
  | String c r =>
      if Ascii.eqb c backtick
      then String backtick (String backtick (doubleBackticks r))
      else String c (doubleBackticks r)
  end.

Definition escapedName (desc : t) : string :=
  if String.eqb (name desc) "" then ""
  else if isSimpleIdentifier (name desc) then name desc
  else String backtick (doubleBackticks (name desc) ++ String backtick "").

(** [desc.disambiguator || ''] *)
Definition disambiguatorOrEmpty (desc : t) : string :=
  match disambiguator desc with
  | Some d => d
  | None => ""
  end.

Definition descriptorString (desc : t) : string :=
  match suffix desc with
  | Package => escapedName desc ++ "/"
  | Type_ => escapedName desc ++ "#"
  | Term => escapedName desc ++ "."
  | Meta => escapedName desc ++ ":"
  | Method => escapedName desc ++ "(" ++ disambiguatorOrEmpty desc ++ ")."
  | Parameter_ => "(" ++ escapedName desc ++ ")"
  | TypeParameter => "[" ++ escapedName desc ++ "]"
  end.

(** *** Reading an escaped name back

    The repository renders names and never parses them; the two readers
    below are the inverse the specification describes.  [unescapeName]
    reads a whole escaped name: a form that opens with a backtick loses its
    first and last character and has every doubled backtick undoubled; any
    other form is the name itself. *)

Fixpoint undoubleBackticks (s : string) : string :=
  match s with
  | EmptyString => EmptyString
  | String c r =>
      match r with
      | String c' r' =>
          if Ascii.eqb c backtick && Ascii.eqb c' backtick
          then String backtick (undoubleBackticks r')
          else String c (undoubleBackticks r)
      | EmptyString => String c EmptyString
      end
  end.

Fixpoint dropLast (s : string) : string :=
  match s with
  | EmptyString => EmptyString
  | String c EmptyString => EmptyString
  | String c r => String c (dropLast r)
  end.

Definition unescapeName (s : string) : string :=
  match s with
  | String c r =>
      if Ascii.eqb c backtick then undoubleBackticks (dropLast r) else s
  | EmptyString => EmptyString
  end.

(** [readName] reads one escaped name off the front of a symbol string and
    returns it with the rest of the string: a backtick opens a quoted name
    that runs to the first backtick not followed by a second one; otherwise
    the name is the longest run of simple characters. *)

Fixpoint readQuoted (s : string) : string * string :=
  match s with
  | EmptyString => (EmptyString, EmptyString)
  | String c r =>
      if Ascii.eqb c backtick then
        match r with
        | String c' r' =>
            if Ascii.eqb c' backtick
            then let (n, rest) := readQuoted r' in (String backtick n, rest)
            else (EmptyString, r)
        | EmptyString => (EmptyString, EmptyString)
        end
      else let (n, rest) := readQuoted r in (String c n, rest)
  end.

Fixpoint readSimple (s : string) : string * string :=
  match s with
  | EmptyString => (EmptyString, EmptyString)
  | String c r =>
      if isSimpleChar c
      then let (n, rest) := readSimple r in (String c n, rest)
      else (EmptyString, s)
  end.

Definition readName (s : string) : string * string :=
  match s with
  | String c r => if Ascii.eqb c backtick then readQuoted r else readSimple s
  | EmptyString => (EmptyString, EmptyString)
  end.

(** A string that is empty or opens with a character that can neither
    continue a simple name nor close a quoted one. *)
Definition startsWithDelimiter (r : string) : bool :=
  match r with
  | EmptyString => true
  | String c _ => negb (isSimpleChar c) && negb (Ascii.eqb c backtick)
  end.

(** [expect c s] consumes the character [c] at the front of [s]. *)
Definition expect (c : ascii) (s : string) : option string :=
  match s with
  | String c' r => if Ascii.eqb c' c then Some r else None
  | EmptyString => None
  end.

(** [readDescriptor] reads one rendered descriptor (without disambiguator)
    off the front of a symbol string, by the grammar of
    [descriptorString]. *)
Definition readDescriptor (s : string) : option (t * string) :=
  match s with
  | EmptyString => None
  | String c r =>
      if Ascii.eqb c "(" then
        let (n, rest) := readName r in
        rest' ← expect ")" rest; Some (parameterDescriptor n, rest')
      else if Ascii.eqb c "[" then
        let (n, rest) := readName r in
        rest' ← expect "]" rest; Some (typeParameterDescriptor n, rest')
      else
        let (n, rest) := readName s in
        match rest with
        | EmptyString => None
        | String d rest' =>
            if Ascii.eqb d "/" then Some (packageDescriptor n, rest')
            else if Ascii.eqb d "#" then Some (typeDescriptor n, rest')
            else if Ascii.eqb d "." then Some (termDescriptor n, rest')
            else if Ascii.eqb d ":" then Some (metaDescriptor n, rest')
            else if Ascii.eqb d "(" then
              rest'' ← expect ")" rest' ≫= expect ".";
              Some (methodDescriptor n, rest'')
            else None
        end
  end.

(** The descriptors [FileIndexer.ts] builds: a name that is not empty and
    no disambiguator. *)
Definition wellFormed (desc : t) : bool :=
  negb (String.eqb (name desc) "") && bool_decide (disambiguator desc = None).

(** A descriptor whose rendering can be read back: it has no disambiguator
    and, when it is a Method, a name.  An empty name renders as nothing, so
    the rendering [().] of a nameless Method is also that of a nameless
    Parameter followed by a nameless Term; [descriptor] of [FileIndexer.ts]
    builds a Method from a truthy name or from the constructor literal
    only. *)
Definition readable (desc : t) : bool :=
  bool_decide (disambiguator desc = None)
  && (negb (String.eqb (name desc) "") || negb (bool_decide (suffix desc = Method))).

(** [s.endsWith(suffix)] *)
Definition endsWith (s suffix : string) : bool :=
  (String.length suffix <=? String.length s)%nat
  && String.eqb
       (substring (String.length s - String.length suffix)
                  (String.length suffix) s)
       suffix.

End Descriptor.

(* ===================================================================== *)
(** ** Collaborators of the indexer *)
(* ===================================================================== *)

(** A [ts.Node] handle.  Two handles are the same node iff they are equal. *)
Definition Node : Set := nat.

Module SyntaxKind.

(** The [ts.SyntaxKind] values that [FileIndexer.ts] tests for; every other
    kind of the TypeScript grammar is [Other]. *)
Inductive t : Set :=
  | SourceFile | Block | ModuleBlock
  | ImportDeclaration | ImportClause | NamedImports | ImportSpecifier
  | VariableStatement | VariableDeclarationList | VariableDeclaration
  | PropertyAssignment | ShorthandPropertyAssignment
  | InterfaceDeclaration | EnumDeclaration | EnumMember
  | ClassDeclaration | ClassExpression
  | FunctionDeclaration | MethodSignature | MethodDeclaration | Constructor
  | PropertyDeclaration | PropertySignature | ModuleDeclaration
  | Parameter_ | TypeParameter
  | Identifier | ObjectLiteralExpression | Other.

#[global] Instance eq_dec : EqDecision t.
Proof. solve_decision. Defined.

End SyntaxKind.

Module Counter.

(** Modelled from the spec: [Counter.ts] is not part of the sources at hand.
    A counter is "a trivial monotonic integer sequence" that "starts at a
    fixed initial value" and yields the "zero-based" indices of local
    symbols.  The state of a counter is the value its next call returns. *)
Definition t : Set := nat.

(** Modelled from the spec: [new Counter()], "starts at a fixed initial
    value"; the first local index is 0. *)
Definition new : t := 0.

(** Modelled from the spec: [counter.next()], "produces strictly increasing
    integers": the value returned, and the counter afterwards. *)
Definition next (c : t) : nat * t := (c, S c).

End Counter.

Module LsifSymbol.

(** Modelled from the spec: [LsifSymbol.ts] is not part of the sources at
    hand.  "SymbolIdentity: tagged union - Empty (not indexable),
    Local(index: integer), or Global(ownerChain: ordered sequence of
    Descriptor)". *)
Inductive t : Set :=
  | Empty
  | Local (index : nat)
  | Global (ownerChain : list Descriptor.t).

#[global] Instance eq_dec : EqDecision t.
Proof. solve_decision. Defined.

(** Modelled from the spec: [LsifSymbol.empty()], the [Empty] identity. *)
Definition empty : t := Empty.

(** Modelled from the spec: [LsifSymbol.local(counter)], the [Local]
    identity of that index. *)
Definition local (counter : nat) : t := Local counter.

(** Modelled from the spec: the owner chain of an identity; only a [Global]
    identity has descriptors. *)
Definition chain (s : t) : list Descriptor.t :=
  match s with
  | Global c => c
  | Empty | Local _ => []
  end.

(** Modelled from the spec: [LsifSymbol.global(owner, desc)], "the result is
    Global with owner chain = ownerIdentity's chain + this Descriptor". *)
Definition global (owner : t) (desc : Descriptor.t) : t :=
  Global (chain owner ++ [desc]).

(** Modelled from the spec: [symbol.isEmpty()] and [symbol.isLocal()], the
    tests of the tag. *)
Definition isEmpty (s : t) : bool :=
  match s with Empty => true | _ => false end.
Definition isLocal (s : t) : bool :=
  match s with Local _ => true | _ => false end.
Definition isGlobal (s : t) : bool :=
  match s with Global _ => true | _ => false end.

(** Modelled from the spec: the "fixed scope marker token" of a local
    symbol string. *)
Definition localMarker : string := "local".

(** The decimal digits of a number, as a template literal prints it. *)
Definition decimal (n : nat) : string := NilZero.string_of_uint (Nat.to_uint n).

(** Modelled from the spec: "the concatenation of each [...] owner-chain
    Descriptor's rendering", with [descriptorString] of [Descriptor.ts]. *)
Fixpoint renderChain (c : list Descriptor.t) : string :=
  match c with
  | [] => ""
  | d :: r => Descriptor.descriptorString d ++ renderChain r
  end.

(** Modelled from the spec: [symbol.value].
    "a global symbol string is the package's rendered Package-descriptor
    string followed by the concatenation of each subsequent owner-chain
    Descriptor's rendering"; "a local symbol string is a fixed scope marker
    token followed by a single space and the decimal [...] index". *)
Definition value (s : t) : string :=
  match s with
  | Empty => ""
  | Local n => localMarker ++ " " ++ decimal n
  | Global c => renderChain c
  end.

End LsifSymbol.

(** What [checker.getSymbolAtLocation] and
    [checker.getShorthandAssignmentValueSymbol] return.  [declarations] is
    [sym.declarations || []]. *)
Record Symbol : Set := {
  declarations : list Node;
  documentationComment : string
}.

(** The syntax tree and the external collaborators, one field per accessor
    used by [FileIndexer.ts]. *)
Record Program : Type := {
  kind : Node -> SyntaxKind.t;                 (* node.kind *)
  parent : Node -> option Node;                (* node.parent *)
  name : Node -> option Node;                  (* node.name *)
  getText : Node -> string;                    (* node.getText() *)
  getSourceFile : Node -> Node;                (* node.getSourceFile() *)
  fileName : Node -> string;                   (* sourceFile.fileName *)
  children : Node -> list Node;                (* ts.forEachChild order *)
  getSymbolAtLocation : Node -> option Symbol;
  getShorthandAssignmentValueSymbol : Node -> option Symbol;
  (* checker.getTypeAtLocation(node).symbol?.declarations || [] *)
  typeSymbolDeclarations : Node -> list Node;
  (* checker.typeToString(checker.getTypeAtLocation(node)) *)
  typeString : Node -> string;
  (* Range.fromNode(node).toLsif() *)
  rangeOf : Node -> list Z;
  (* Modelled from the spec: [Packages.ts] is not part of the sources at
     hand; "packageOf(filePath) -> Descriptor | none". *)
  packageOf : string -> option Descriptor.t
}.

Module Packages.

(** Modelled from the spec: [Packages.symbol] is not part of the sources at
    hand.  "ask the package resolver for this file's package descriptor; if
    none, Empty; otherwise a Global identity whose owner chain is exactly
    that one Package descriptor". *)
Definition symbol (P : Program) (file : string) : option LsifSymbol.t :=
  match packageOf P file with
  | Some d => Some (LsifSymbol.Global [d])
  | None => None
  end.

End Packages.


(** [lsiftyped.Occurrence]; [symbol_roles] defaults to 0. *)
Record Occurrence : Set := {
  range : list Z;
  symbol : string;
  symbol_roles : Z
}.

#[global] Instance Occurrence_eq_dec : EqDecision Occurrence.
Proof. solve_decision. Defined.

(** [lsiftyped.SymbolInformation] *)
Record SymbolInformation : Set := {
  info_symbol : string;
  documentation : list string
}.

Module SymbolRole.
Definition Definition_ : Z := 1.
End SymbolRole.

(* ===================================================================== *)
(** ** The per-file indexer ([FileIndexer.ts]) *)
(* ===================================================================== *)

Module FileIndexer.

(** The mutable fields of a [FileIndexer]: the global table is shared by
    the whole run, the other three belong to one file, and the two lists are
    the [occurrences] and [symbols] arrays of the file's document. *)
Record State : Type := mkState {
  globalSymbolTable : gmap Node LsifSymbol.t;
  localSymbolTable : gmap Node LsifSymbol.t;
  localCounter : Counter.t;
  propertyCounters : gmap string Counter.t;
  occurrences : list Occurrence;
  symbols : list SymbolInformation
}.

(** The state of [new FileIndexer(...)] handed a global table and an empty
    document. *)
Definition initial (globals : gmap Node LsifSymbol.t) : State :=
  mkState globals ∅ Counter.new ∅ [] [].

Definition setGlobal (node : Node) (sym : LsifSymbol.t) (s : State) : State :=
  mkState (<[node := sym]> (globalSymbolTable s)) (localSymbolTable s)
          (localCounter s) (propertyCounters s) (occurrences s) (symbols s).

Definition setLocal (node : Node) (sym : LsifSymbol.t) (s : State) : State :=
  mkState (globalSymbolTable s) (<[node := sym]> (localSymbolTable s))
          (localCounter s) (propertyCounters s) (occurrences s) (symbols s).

Definition setLocalCounter (c : Counter.t) (s : State) : State :=
  mkState (globalSymbolTable s) (localSymbolTable s)
          c (propertyCounters s) (occurrences s) (symbols s).

Definition setPropertyCounter (key : string) (c : Counter.t) (s : State) : State :=
  mkState (globalSymbolTable s) (localSymbolTable s)
          (localCounter s) (<[key := c]> (propertyCounters s))
          (occurrences s) (symbols s).

(** [this.document.occurrences.push(o)] *)
Definition pushOccurrence (o : Occurrence) (s : State) : State :=
  mkState (globalSymbolTable s) (localSymbolTable s)
          (localCounter s) (propertyCounters s) (occurrences s ++ [o]) (symbols s).

(** [this.document.symbols.push(i)] *)
Definition pushSymbol (i : SymbolInformation) (s : State) : State :=
  mkState (globalSymbolTable s) (localSymbolTable s)
          (localCounter s) (propertyCounters s) (occurrences s) (symbols s ++ [i]).


(** [this.globalSymbolTable.get(node) || this.localSymbolTable.get(node)];
    a stored [LsifSymbol] is an object and hence truthy, also when empty. *)
Definition fromCache (s : State) (node : Node) : option LsifSymbol.t :=
  match globalSymbolTable s !! node with
  | Some sym => Some sym
  | None => localSymbolTable s !! node
  end.

Definition newLocalSymbol (node : Node) (s : State) : LsifSymbol.t * State :=
  let (n, c) := Counter.next (localCounter s) in
  let sym := LsifSymbol.local n in
  (sym, setLocal node sym (setLocalCounter c s)).

Definition cached (node : Node) (sym : LsifSymbol.t) (s : State)
  : LsifSymbol.t * State :=
  (sym, setGlobal node sym s).

Section WithProgram.

Variable P : Program.

Definition hasKind (k : SyntaxKind.t) (node : Node) : bool :=
  bool_decide (kind P node = k).

Definition isBlock := hasKind SyntaxKind.Block.
Definition isSourceFile := hasKind SyntaxKind.SourceFile.
Definition isModuleBlock := hasKind SyntaxKind.ModuleBlock.
Definition isImportDeclaration := hasKind SyntaxKind.ImportDeclaration.
Definition isImportClause := hasKind SyntaxKind.ImportClause.
Definition isNamedImports := hasKind SyntaxKind.NamedImports.
Definition isImportSpecifier := hasKind SyntaxKind.ImportSpecifier.
Definition isVariableStatement := hasKind SyntaxKind.VariableStatement.
Definition isVariableDeclarationList := hasKind SyntaxKind.VariableDeclarationList.
Definition isVariableDeclaration := hasKind SyntaxKind.VariableDeclaration.
Definition isPropertyAssignment := hasKind SyntaxKind.PropertyAssignment.
Definition isShorthandPropertyAssignment :=
  hasKind SyntaxKind.ShorthandPropertyAssignment.
Definition isInterfaceDeclaration := hasKind SyntaxKind.InterfaceDeclaration.
Definition isEnumDeclaration := hasKind SyntaxKind.EnumDeclaration.
Definition isEnumMember := hasKind SyntaxKind.EnumMember.
Definition isClassLike (node : Node) : bool :=
  hasKind SyntaxKind.ClassDeclaration node || hasKind SyntaxKind.ClassExpression node.
Definition isFunctionDeclaration := hasKind SyntaxKind.FunctionDeclaration.
Definition isMethodSignature := hasKind SyntaxKind.MethodSignature.
Definition isMethodDeclaration := hasKind SyntaxKind.MethodDeclaration.
Definition isConstructorDeclaration := hasKind SyntaxKind.Constructor.
Definition isPropertyDeclaration := hasKind SyntaxKind.PropertyDeclaration.
Definition isPropertySignature := hasKind SyntaxKind.PropertySignature.
Definition isModuleDeclaration := hasKind SyntaxKind.ModuleDeclaration.
Definition isParameter := hasKind SyntaxKind.Parameter_.
Definition isTypeParameterDeclaration := hasKind SyntaxKind.TypeParameter.
Definition isIdentifier := hasKind SyntaxKind.Identifier.

Definition isAnonymousContainerOfSymbols (node : Node) : bool :=
  isModuleBlock node || isImportDeclaration node || isImportClause node
  || isNamedImports node || isVariableStatement node
  || isVariableDeclarationList node.

(** [node.name.getText()]: throws when the node has no name. *)
Definition nameText (node : Node) : option string :=
  getText P <$> name P node.

(** [node.name?.getText()] when it is truthy (defined and not empty). *)
Definition truthyNameText (node : Node) : option string :=
  match name P node with
  | Some n => if String.eqb (getText P n) "" then None else Some (getText P n)
  | None => None
  end.

(** [descriptor(node)]: [None] is a thrown exception, [Some None] is
    [undefined].  A class-like or function-like node without a truthy name
    falls through the remaining tests of the source, as here. *)
Definition descriptor (node : Node) : option (option Descriptor.t) :=
  if isInterfaceDeclaration node || isEnumDeclaration node then
    t ← nameText node; Some (Some (Descriptor.typeDescriptor t))
  else
    match (if isClassLike node then truthyNameText node else None) with
    | Some t => Some (Some (Descriptor.typeDescriptor t))
    | None =>
    match (if isFunctionDeclaration node || isMethodSignature node
              || isMethodDeclaration node
           then truthyNameText node else None) with
    | Some t => Some (Some (Descriptor.methodDescriptor t))
    | None =>
      if isConstructorDeclaration node then
        Some (Some (Descriptor.methodDescriptor "<constructor>"))
      else if isPropertyDeclaration node || isPropertySignature node
              || isEnumMember node || isVariableDeclaration node then
        t ← nameText node; Some (Some (Descriptor.termDescriptor t))
      else if isModuleDeclaration node then
        t ← nameText node; Some (Some (Descriptor.packageDescriptor t))
      else if isParameter node then
        t ← nameText node; Some (Some (Descriptor.parameterDescriptor t))
      else if isTypeParameterDeclaration node then
        t ← nameText node; Some (Some (Descriptor.typeParameterDescriptor t))
      else Some None
    end
    end.

(** [declarationName(node)]: [None] is [undefined]. *)
Definition declarationName (node : Node) : option Node :=
  if isEnumDeclaration node || isVariableDeclaration node
     || isPropertyDeclaration node || isMethodSignature node
     || isMethodDeclaration node || isPropertySignature node
     || isFunctionDeclaration node || isModuleDeclaration node
     || isPropertyAssignment node || isShorthandPropertyAssignment node
     || isParameter node || isTypeParameterDeclaration node
     || isInterfaceDeclaration node
  then name P node
  else None.

(** The per-name counter of a property: created on first use and stored in
    [propertyCounters]. *)
Definition ensurePropertyCounter (key : string) (s : State) : State :=
  match propertyCounters s !! key with
  | Some _ => s
  | None => setPropertyCounter key Counter.new s
  end.

(** [counter.next()] on the counter object stored under [key]. *)
Definition nextPropertyCounter (key : string) (s : State) : option (nat * State) :=
  c ← propertyCounters s !! key;
  let (n, c') := Counter.next c in
  Some (n, setPropertyCounter key c' s).

(** [lsifSymbol(node)].  The recursion of the source runs along
    [node.parent], [node.getSourceFile()] and the declarations behind an
    import specifier; [fuel] bounds its depth. *)
Fixpoint lsifSymbol (fuel : nat) (node : Node) (s : State)
  : option (LsifSymbol.t * State) :=
  match fuel with
  | 0 => None
  | S fuel =>
    match fromCache s node with
    | Some sym => Some (sym, s)
    | None =>
      if isBlock node then Some (LsifSymbol.empty, s)
      else if isSourceFile node then
        match Packages.symbol P (fileName P node) with
        | None => Some (cached node LsifSymbol.empty s)
        | Some package_ => Some (cached node package_ s)
        end
      else if isPropertyAssignment node || isShorthandPropertyAssignment node then
        text ← nameText node;
        '(file, s1) ← lsifSymbol fuel (getSourceFile P node)
                         (ensurePropertyCounter text s);
        '(n, s2) ← nextPropertyCounter text s1;
        Some (cached node
                (LsifSymbol.global file
                   (Descriptor.metaDescriptor (text ++ LsifSymbol.decimal n)))
                s2)
      else
        p ← parent P node;
        '(owner, s1) ← lsifSymbol fuel p s;
        if LsifSymbol.isEmpty owner || LsifSymbol.isLocal owner then
          Some (newLocalSymbol node s1)
        else if isAnonymousContainerOfSymbols node then
          '(sym, s2) ← lsifSymbol fuel p s1;
          Some (cached node sym s2)
        else
          match (if isImportSpecifier node then typeSymbolDeclarations P node
                 else []) with
          | declaration :: _ => lsifSymbol fuel declaration s1
          | [] =>
            desc ← descriptor node;
            match desc with
            | Some d => Some (cached node (LsifSymbol.global owner d) s1)
            | None => Some (newLocalSymbol node s1)
            end
          end
    end
  end.

(** [addSymbolInformation(node, sym, symbol)] *)
Definition addSymbolInformation (node : Node) (sym : Symbol)
    (symbol : LsifSymbol.t) (s : State) : State :=
  pushSymbol
    {| info_symbol := LsifSymbol.value symbol;
       documentation :=
         [ "```ts" ++ String "010" "" ++ typeString P node
             ++ String "010" "" ++ "```";
           documentationComment sym ] |}
    s.

(** The loop of [handleShorthandPropertyDefinition] over the declarations
    of the value symbol. *)
Fixpoint shorthandValueLoop (fuel : nat) (range : list Z) (decls : list Node)
    (s : State) : option State :=
  match decls with
  | [] => Some s
  | symbol :: rest =>
      '(lsifSym, s1) ← lsifSymbol fuel symbol s;
      if LsifSymbol.isEmpty lsifSym then shorthandValueLoop fuel range rest s1
      else
        shorthandValueLoop fuel range rest
          (pushOccurrence
             {| range := range; symbol := LsifSymbol.value lsifSym;
                symbol_roles := 0 |} s1)
  end.

Definition handleShorthandPropertyDefinition (fuel : nat) (declaration : Node)
    (range : list Z) (s : State) : option State :=
  if hasKind SyntaxKind.ShorthandPropertyAssignment declaration then
    match getShorthandAssignmentValueSymbol P declaration with
    | None => Some s
    | Some valueSymbol =>
        shorthandValueLoop fuel range (declarations valueSymbol) s
    end
  else Some s.

(** [this.declarationName(identifier.parent) === identifier] *)
Definition isDefinition (identifier : Node) : option bool :=
  p ← parent P identifier;
  Some (bool_decide (declarationName p = Some identifier)).

(** The loop of [visitIdentifier] over [sym.declarations]. *)
Fixpoint visitIdentifierLoop (fuel : nat) (identifier : Node) (sym : Symbol)
    (range : list Z) (role : Z) (isDef : bool) (decls : list Node) (s : State)
  : option State :=
  match decls with
  | [] => Some s
  | declaration :: rest =>
      '(lsifSym, s1) ← lsifSymbol fuel declaration s;
      if LsifSymbol.isEmpty lsifSym then
        visitIdentifierLoop fuel identifier sym range role isDef rest s1
      else
        let s2 :=
          pushOccurrence
            {| range := range; symbol := LsifSymbol.value lsifSym;
               symbol_roles := role |} s1 in
        s3 ← (if isDef then
                handleShorthandPropertyDefinition fuel declaration range
                  (addSymbolInformation identifier sym lsifSym s2)
              else Some s2);
        visitIdentifierLoop fuel identifier sym range role isDef rest s3
  end.

Definition visitIdentifier (fuel : nat) (identifier : Node) (sym : Symbol)
    (s : State) : option State :=
  let range := rangeOf P identifier in
  isDef ← isDefinition identifier;
  let role : Z := if isDef : bool then Z.lor 0 SymbolRole.Definition_ else 0%Z in
  visitIdentifierLoop fuel identifier sym range role isDef (declarations sym) s.

(** [visit(node)]; [depth] bounds the depth of the traversal and [fuel] the
    depth of each resolution. *)
Fixpoint visit (fuel depth : nat) (node : Node) (s : State) : option State :=
  match depth with
  | 0 => None
  | S depth =>
      s1 ← (if isIdentifier node then
              match getSymbolAtLocation P node with
              | Some sym => visitIdentifier fuel node sym s
              | None => Some s
              end
            else Some s);
      foldl (fun acc child => acc ≫= visit fuel depth child)
            (Some s1) (children P node)
  end.

End WithProgram.

(** [index()] on a fresh indexer for the source file [sourceFile]. *)
Definition index (P : Program) (fuel depth : nat) (sourceFile : Node)
    (globals : gmap Node LsifSymbol.t) : option State :=
  visit P fuel depth sourceFile (initial globals).

End FileIndexer.

(* ===================================================================== *)
(** ** The snapshot formatter ([SnapshotTesting.ts]) *)
(* ===================================================================== *)

Module SnapshotTesting.

Record Position : Set := { line : Z; character : Z }.
Record Range : Set := { start : Position; end_ : Position }.

(** Modelled from the spec: [Range.ts] is not part of the sources at hand.
    "multi-line occurrence ranges are accepted as a 4-component range,
    single-line as 3-component, and any other shape is an error". *)
Definition fromLsif (r : list Z) : option Range :=
  match r with
  | [l; sc; ec] =>
      Some {| start := {| line := l; character := sc |};
              end_ := {| line := l; character := ec |} |}
  | [sl; sc; el; ec] =>
      Some {| start := {| line := sl; character := sc |};
              end_ := {| line := el; character := ec |} |}
  | _ => None
  end.

Inductive Error : Set :=
  | MalformedRange                       (* thrown by [Range.fromLsif] *)
  | MultiLineNotImplemented              (* 'not yet implemented, multi-line ranges' *)
  | InvalidRepeatCount                   (* [RangeError]: negative count *)
  | InvalidStringLength                  (* [RangeError]: 'Invalid string length' *)
  | NegativeLengthOccurrence (r : Range) (* 'negative length occurrence!' *).

Inductive Outcome (A : Type) : Type :=
  | Pushed (out : A)
  | Threw (e : Error).
Arguments Pushed {A} out.
Arguments Threw {A} e.

Definition commentSyntax : string := "//".

Definition stripIndexerPrefix : string := "scip-typescript npm ".

(** [symbolNameForSnapshot(fullName)]: [fullName.slice(n)] is the substring
    from index [n] to the end. *)
Definition symbolNameForSnapshot (fullName : string) : string :=
  if String.prefix stripIndexerPrefix fullName
  then substring (String.length stripIndexerPrefix)
                 (String.length fullName - String.length stripIndexerPrefix)
                 fullName
  else fullName.

(** [getSymbolTable(doc)]: a [Map] filled by [set] in the order of
    [doc.symbols]. *)
Definition getSymbolTable (symbols : list SymbolInformation)
  : gmap string SymbolInformation :=
  foldl (fun table symbol => <[info_symbol symbol := symbol]> table) ∅ symbols.

(** [c.repeat(n)] for a one-character string [c]: a [RangeError] for a
    negative count, and for a result longer than the longest string of the
    engine, [maxLength] characters. *)
Definition repeat (maxLength : N) (c : ascii) (n : Z) : Outcome string :=
  if (n <? 0)%Z then Threw InvalidRepeatCount
  else if (Z.of_N maxLength <? n)%Z then Threw InvalidStringLength
  else Pushed (string_of_list_ascii (List.repeat c (Z.to_nat n))).

(** [(occurrence.symbol_roles & SymbolRole.Definition) > 0] *)
Definition isDefinition (occurrence : Occurrence) : bool :=
  (0 <? Z.land (symbol_roles occurrence) SymbolRole.Definition_)%Z.

(** [isDefinition ? 'definition' : 'reference'] *)
Definition roleWord (occurrence : Occurrence) : string :=
  if isDefinition occurrence then "definition" else "reference".

(** [symbol.replace('\n', '|')]: a string pattern replaces the first match
    only. *)
Fixpoint replaceLineFeed (s : string) : string :=
  match s with
  | EmptyString => EmptyString
  | String c r =>
      if Ascii.eqb c "010" then String "|" r else String c (replaceLineFeed r)
  end.

(** The body of the [while] loop of [formatSnapshot] for one occurrence,
    from the multi-line test to the call of [pushDoc] (lines 206-234): the
    strings pushed on [out], or the exception thrown.  An [Occurrence] of
    the indexer always has a symbol, so the test for an undefined one
    (line 202) has no counterpart. *)
Definition formatCarets (maxLength : N) (occurrence : Occurrence)
  : Outcome (list string) :=
  if (3 <? length (range occurrence))%nat then Threw MultiLineNotImplemented
  else
    match fromLsif (range occurrence) with
    | None => Threw MalformedRange
    | Some r =>
        let isStartOfLine := (character (start r) =? 0)%Z in
        match (if isStartOfLine then Pushed []
               else match repeat maxLength " " (character (start r) - 2) with
                    | Pushed sp => Pushed [sp]
                    | Threw e => Threw e
                    end) with
        | Threw e => Threw e
        | Pushed indent =>
            let modifier := if isStartOfLine then 1%Z else 0%Z in
            let caretLength :=
              (character (end_ r) - character (start r) - modifier)%Z in
            if (caretLength <? 0)%Z then Threw (NegativeLengthOccurrence r)
            else
              match repeat maxLength "^" caretLength with
              | Pushed carets =>
                  Pushed (commentSyntax :: indent
                          ++ [carets; " "; roleWord occurrence; " ";
                              replaceLineFeed
                                (symbolNameForSnapshot (symbol occurrence))])%list
              | Threw e => Threw e
              end
        end
    end.

(** The test made above each line as long as no occurrence has been
    written, up to the call of [pushDoc] (lines 171-184): the first
    occurrence is written above the line when both its columns are 0.
    [Pushed None] is an occurrence left to the [while] loop. *)
Definition formatFileLevel (occurrence : Occurrence)
  : Outcome (option (list string)) :=
  match fromLsif (range occurrence) with
  | None => Threw MalformedRange
  | Some r =>
      if (character (start r) =? 0)%Z && (character (end_ r) =? 0)%Z
      then Pushed (Some [commentSyntax; " < "; roleWord occurrence; " ";
                         symbolNameForSnapshot (symbol occurrence)])
      else Pushed None
  end.

(** What [formatSnapshot] does with the occurrence at [occurrenceIndex] of
    the sorted list once it gets to it, up to the call of [pushDoc]: the
    first occurrence passes the file-level test before the loop sees it,
    every other one goes to the loop. *)
Definition formatOccurrence (maxLength : N) (occurrenceIndex : nat)
    (occurrence : Occurrence) : Outcome (list string) :=
  match occurrenceIndex with
  | 0 =>
      match formatFileLevel occurrence with
      | Threw e => Threw e
      | Pushed (Some out) => Pushed out
      | Pushed None => formatCarets maxLength occurrence
      end
  | S _ => formatCarets maxLength occurrence
  end.

End SnapshotTesting.

(* ===================================================================== *)
(** ** Concrete programs *)
(* ===================================================================== *)

Module Fixture.

Import SyntaxKind.

(** One slot of a node arena. *)
Record NodeData : Set := node {
  nd_kind : SyntaxKind.t;
  nd_parent : option Node;
  nd_name : option Node;
  nd_text : string;
  nd_children : list Node;
  nd_range : list Z
}.

Definition absent : NodeData := node Other None None "" [] [].

(** The program whose nodes are the slots of [arena]; all of them belong to
    the source file at index 0, named [file]. *)
Definition program (arena : list NodeData) (file : string)
    (pkg : option Descriptor.t)
    (symbolAt shorthandValue : Node -> option Symbol)
    (typeDecls : Node -> list Node) : Program :=
  {| kind := fun n => nd_kind (nth n arena absent);
     parent := fun n => nd_parent (nth n arena absent);
     name := fun n => nd_name (nth n arena absent);
     getText := fun n => nd_text (nth n arena absent);
     getSourceFile := fun _ => 0;
     fileName := fun _ => file;
     children := fun n => nd_children (nth n arena absent);
     getSymbolAtLocation := symbolAt;
     getShorthandAssignmentValueSymbol := shorthandValue;
     typeSymbolDeclarations := typeDecls;
     typeString := fun _ => "";
     rangeOf := fun n => nd_range (nth n arena absent);
     packageOf := fun _ => pkg |}.

Definition sym (decls : list Node) : Symbol :=
  {| declarations := decls; documentationComment := "" |}.

Definition pkg : Descriptor.t := Descriptor.packageDescriptor "pkg".

(** [const a = 1; const b = { a }] *)
Definition shorthandArena : list NodeData :=
  [ node SourceFile None None "" [1; 6] [];
    node VariableStatement (Some 0) None "const a = 1;" [2] [];
    node VariableDeclarationList (Some 1) None "const a = 1" [3] [];
    node VariableDeclaration (Some 2) (Some 4) "a = 1" [4; 5] [];
    node Identifier (Some 3) None "a" [] [0; 6; 7]%Z;
    node Other (Some 3) None "1" [] [];
    node VariableStatement (Some 0) None "const b = { a }" [7] [];
    node VariableDeclarationList (Some 6) None "const b = { a }" [8] [];
    node VariableDeclaration (Some 7) (Some 9) "b = { a }" [9; 10] [];
    node Identifier (Some 8) None "b" [] [0; 19; 20]%Z;
    node ObjectLiteralExpression (Some 8) None "{ a }" [11] [];
    node ShorthandPropertyAssignment (Some 10) (Some 12) "a" [12] [];
    node Identifier (Some 11) None "a" [] [0; 25; 26]%Z ].

Definition shorthandSymbolAt (n : Node) : option Symbol :=
  match n with
  | 4 => Some (sym [3])
  | 9 => Some (sym [8])
  | 12 => Some (sym [11])
  | _ => None
  end.

Definition shorthandValueOf (n : Node) : option Symbol :=
  match n with
  | 11 => Some (sym [3])
  | _ => None
  end.

Definition shorthandProgram (package_ : option Descriptor.t) : Program :=
  program shorthandArena "a.ts" package_ shorthandSymbolAt shorthandValueOf
          (fun _ => []).

(** [class C { constructor() {} }] *)
Definition classArena : list NodeData :=
  [ node SourceFile None None "" [1] [];
    node ClassDeclaration (Some 0) (Some 2) "class C { constructor() {} }" [2; 3] [];
    node Identifier (Some 1) None "C" [] [0; 6; 7]%Z;
    node Constructor (Some 1) None "constructor() {}" [4] [];
    node Block (Some 3) None "{}" [] [] ].

Definition classSymbolAt (n : Node) : option Symbol :=
  match n with
  | 2 => Some (sym [1])
  | _ => None
  end.

Definition classProgram : Program :=
  program classArena "c.ts" (Some pkg) classSymbolAt (fun _ => None) (fun _ => []).

(** [function f() { { const x = 1 } }] *)
Definition blockArena : list NodeData :=
  [ node SourceFile None None "" [1] [];
    node FunctionDeclaration (Some 0) (Some 2) "function f() { { const x = 1 } }" [2; 3] [];
    node Identifier (Some 1) None "f" [] [0; 9; 10]%Z;
    node Block (Some 1) None "{ { const x = 1 } }" [4] [];
    node Block (Some 3) None "{ const x = 1 }" [5] [];
    node VariableStatement (Some 4) None "const x = 1" [6] [];
    node VariableDeclarationList (Some 5) None "const x = 1" [7] [];
    node VariableDeclaration (Some 6) (Some 8) "x = 1" [8; 9] [];
    node Identifier (Some 7) None "x" [] [0; 23; 24]%Z;
    node Other (Some 7) None "1" [] [] ].

Definition blockSymbolAt (n : Node) : option Symbol :=
  match n with
  | 2 => Some (sym [1])
  | 8 => Some (sym [7])
  | _ => None
  end.

Definition blockProgram : Program :=
  program blockArena "f.ts" (Some pkg) blockSymbolAt (fun _ => None) (fun _ => []).

(** [interface A {} interface A {}]: two declarations that TypeScript
    merges into one interface. *)
Definition mergedArena : list NodeData :=
  [ node SourceFile None None "" [1; 3] [];
    node InterfaceDeclaration (Some 0) (Some 2) "interface A {}" [2] [];
    node Identifier (Some 1) None "A" [] [0; 10; 11]%Z;
    node InterfaceDeclaration (Some 0) (Some 4) "interface A {}" [4] [];
    node Identifier (Some 3) None "A" [] [0; 25; 26]%Z ].

Definition mergedSymbolAt (n : Node) : option Symbol :=
  match n with
  | 2 | 4 => Some (sym [1; 3])
  | _ => None
  end.

Definition mergedProgram : Program :=
  program mergedArena "m.ts" (Some pkg) mergedSymbolAt (fun _ => None) (fun _ => []).

(** [let v; v]: a declaration and a later use whose range, as delivered by
    the range collaborator, ends before it starts. *)
Definition invertedArena : list NodeData :=
  [ node SourceFile None None "" [1; 5] [];
    node VariableStatement (Some 0) None "let v;" [2] [];
    node VariableDeclarationList (Some 1) None "let v" [3] [];
    node VariableDeclaration (Some 2) (Some 4) "v" [4] [];
    node Identifier (Some 3) None "v" [] [0; 4; 5]%Z;
    node Other (Some 0) None "v" [6] [];
    node Identifier (Some 5) None "v" [] [0; 8; 7]%Z ].

Definition invertedSymbolAt (n : Node) : option Symbol :=
  match n with
  | 4 | 6 => Some (sym [3])
  | _ => None
  end.

Definition invertedProgram : Program :=
  program invertedArena "v.ts" (Some pkg) invertedSymbolAt (fun _ => None)
          (fun _ => []).

(** Two files: [export class A {}] and, after it, [import { A } from './a'].
    The type of the import specifier has the class declaration as its only
    declaration. *)
Definition importArena : list NodeData :=
  [ node SourceFile None None "" [1] [];
    node ClassDeclaration (Some 0) (Some 2) "export class A {}" [2] [];
    node Identifier (Some 1) None "A" [] [0; 13; 14]%Z;
    node SourceFile None None "" [4] [];
    node ImportDeclaration (Some 3) None "import { A } from './a'" [5] [];
    node ImportClause (Some 4) None "{ A }" [6] [];
    node NamedImports (Some 5) None "{ A }" [7] [];
    node ImportSpecifier (Some 6) (Some 8) "A" [8] [];
    node Identifier (Some 7) None "A" [] [0; 9; 10]%Z ].

Definition importSymbolAt (n : Node) : option Symbol :=
  match n with
  | 2 => Some (sym [1])
  | 8 => Some (sym [7])
  | _ => None
  end.

Definition importTypeDeclarations (n : Node) : list Node :=
  match n with
  | 7 => [1]
  | _ => []
  end.

Definition importProgram : Program :=
  program importArena "a.ts" (Some pkg) importSymbolAt (fun _ => None)
          importTypeDeclarations.

(** [const x = [{ a: 1 }, { a: 2 }]]: two property assignments of one
    name. *)
Definition propertiesArena : list NodeData :=
  [ node SourceFile None None "" [1] [];
    node VariableStatement (Some 0) None "const x = [{ a: 1 }, { a: 2 }]" [2] [];
    node VariableDeclarationList (Some 1) None "const x = [{ a: 1 }, { a: 2 }]" [3] [];
    node VariableDeclaration (Some 2) (Some 4) "x = [{ a: 1 }, { a: 2 }]" [4; 5] [];
    node Identifier (Some 3) None "x" [] [0; 6; 7]%Z;
    node Other (Some 3) None "[{ a: 1 }, { a: 2 }]" [6; 10] [];
    node ObjectLiteralExpression (Some 5) None "{ a: 1 }" [7] [];
    node PropertyAssignment (Some 6) (Some 8) "a: 1" [8; 9] [];
    node Identifier (Some 7) None "a" [] [0; 13; 14]%Z;
    node Other (Some 7) None "1" [] [];
    node ObjectLiteralExpression (Some 5) None "{ a: 2 }" [11] [];
    node PropertyAssignment (Some 10) (Some 12) "a: 2" [12; 13] [];
    node Identifier (Some 11) None "a" [] [0; 23; 24]%Z;
    node Other (Some 11) None "2" [] [] ].

Definition propertiesSymbolAt (n : Node) : option Symbol :=
  match n with
  | 4 => Some (sym [3])
  | 8 => Some (sym [7])
  | 12 => Some (sym [11])
  | _ => None
  end.

Definition propertiesProgram : Program :=
  program propertiesArena "p.ts" (Some pkg) propertiesSymbolAt (fun _ => None)
          (fun _ => []).

(** [export default class {}]: a class declaration without a name. *)
Definition anonymousArena : list NodeData :=
  [ node SourceFile None None "" [1] [];
    node ClassDeclaration (Some 0) None "export default class {}" [] [] ].

Definition anonymousProgram : Program :=
  program anonymousArena "d.ts" (Some pkg) (fun _ => None) (fun _ => None)
          (fun _ => []).

(** The text of the array element [{ text: 0 }]. *)
Definition elementText (text : string) : string := "{ " ++ text ++ ": 0 }".

(** The four nodes of the array element [{ text: 0 }] that starts at
    [column], stored from index [base] on. *)
Definition propertyNodes (base : nat) (column : Z) (text : string)
  : list NodeData :=
  [ node ObjectLiteralExpression (Some 5) None (elementText text) [base + 1] [];
    node PropertyAssignment (Some base) (Some (base + 2)) (text ++ ": 0")
         [base + 2; base + 3] [];
    node Identifier (Some (base + 1)) None text []
         [0; column + 2; column + 2 + Z.of_nat (String.length text)]%Z;
    node Other (Some (base + 1)) None "0" [] [] ].

(** [[{ a: 0 }, ..., { a: 0 }, { a1: 0 }]]: eleven properties [a] before
    the property [a1]. *)
Definition crowdedArray : string :=
  "[" ++ String.concat ", " (elementText <$> (replicate 11 "a" ++ ["a1"])%list)
  ++ "]".

(** [const x = [{ a: 0 }, ..., { a: 0 }, { a1: 0 }]]; the array opens at
    column 10 and an element with its separator takes 10 columns. *)
Definition crowdedArena : list NodeData :=
  [ node SourceFile None None "" [1] [];
    node VariableStatement (Some 0) None ("const x = " ++ crowdedArray) [2] [];
    node VariableDeclarationList (Some 1) None ("const x = " ++ crowdedArray)
         [3] [];
    node VariableDeclaration (Some 2) (Some 4) ("x = " ++ crowdedArray) [4; 5] [];
    node Identifier (Some 3) None "x" [] [0; 6; 7]%Z;
    node Other (Some 3) None crowdedArray ((fun i => 6 + 4 * i) <$> seq 0 12) [] ]
  ++ flat_map (fun i => propertyNodes (6 + 4 * i) (11 + 10 * Z.of_nat i) "a")
              (seq 0 11)
  ++ propertyNodes 50 121 "a1".

(** The identifier [x] and the name of each property denote their
    declaration. *)
Definition crowdedSymbolAt (n : Node) : option Symbol :=
  if (n =? 4)%nat then Some (sym [3])
  else if (8 <=? n)%nat && (n <? 54)%nat && ((n - 8) mod 4 =? 0)%nat
       then Some (sym [n - 1])
       else None.

Definition crowdedProgram : Program :=
  program crowdedArena "x.ts" (Some pkg) crowdedSymbolAt (fun _ => None)
          (fun _ => []).

(** The state after the first ten properties [a] of [crowdedProgram] have
    been resolved, in source order. *)
Definition tenResolved : FileIndexer.State :=
  default (FileIndexer.initial ∅)
    (foldl (fun acc n =>
              acc ≫= fun s => snd <$> FileIndexer.lsifSymbol crowdedProgram 2 n s)
           (Some (FileIndexer.initial ∅)) ((fun i => 7 + 4 * i) <$> seq 0 10)).

End Fixture.

(* ===================================================================== *)
(** ** Resolution steps and settled identities *)
(* ===================================================================== *)

Module Resolution.

Import FileIndexer.

Section WithProgram.

Variable P : Program.

(** The recursion of [lsifSymbol] follows three links: from a node to its
    parent, from a property assignment to its source file, and from an
    import specifier to the first declaration behind it.  A ranking
    decreases along all three; a syntax tree whose import aliases are not
    circular has one. *)
Record Ranked (rank : Node -> nat) : Prop := {
  rank_parent :
    forall n p, parent P n = Some p -> rank p < rank n;
  rank_sourceFile :
    forall n,
      isPropertyAssignment P n || isShorthandPropertyAssignment P n = true ->
      rank (getSourceFile P n) < rank n;
  rank_import :
    forall n d ds,
      isImportSpecifier P n = true ->
      typeSymbolDeclarations P n = d :: ds -> rank d < rank n
}.

(** [settled s n r]: in state [s] the identity of [n] is fixed to [r],
    either by a table entry or because [n] takes one of the two paths of
    [lsifSymbol] that store nothing (a block, or an import specifier under a
    global owner that adopts the identity of its first declaration). *)
Inductive settled (s : State) : Node -> LsifSymbol.t -> Prop :=
  | settled_cache n r :
      fromCache s n = Some r -> settled s n r
  | settled_block n :
      fromCache s n = None -> isBlock P n = true ->
      settled s n LsifSymbol.Empty
  | settled_import n p owner d ds r :
      fromCache s n = None ->
      isImportSpecifier P n = true ->
      parent P n = Some p ->
      settled s p owner ->
      LsifSymbol.isEmpty owner || LsifSymbol.isLocal owner = false ->
      typeSymbolDeclarations P n = d :: ds ->
      settled s d r ->
      settled s n r.

(** One mutation of the indexer's state during the traversal of a file:
    a call of the resolver, or a push on one of the document's arrays. *)
Inductive step (s s' : State) : Prop :=
  | step_resolve fuel n r :
      lsifSymbol P fuel n s = Some (r, s') -> step s s'
  | step_occurrence o :
      s' = pushOccurrence o s -> step s s'
  | step_symbol i :
      s' = pushSymbol i s -> step s s'.

(** What a completed call [lsifSymbol fuel m s = Some (r, s')] guarantees:
    [m] is settled to the result, settled identities stay settled, and
    nodes ranked above [m] are not touched. *)
Definition post (rank : Node -> nat) (m : Node) (s : State)
    (r : LsifSymbol.t) (s' : State) : Prop :=
  settled s' m r
  /\ (forall n x, settled s n x -> settled s' n x)
  /\ (forall n, rank m < rank n -> fromCache s' n = fromCache s n).

(** The nodes of a tree, closed under the three links, on which the
    accessors the resolver calls are defined: a node that reaches the owner
    rule has a parent, a property assignment has a name, and [descriptor]
    finds the names it calls [getText] on. *)
Record Complete (inTree : Node -> Prop) : Prop := {
  complete_parent :
    forall n,
      inTree n -> isBlock P n = false -> isSourceFile P n = false ->
      isPropertyAssignment P n || isShorthandPropertyAssignment P n = false ->
      exists p, parent P n = Some p /\ inTree p;
  complete_property :
    forall n,
      inTree n ->
      isPropertyAssignment P n || isShorthandPropertyAssignment P n = true ->
      inTree (getSourceFile P n) /\ is_Some (name P n);
  complete_import :
    forall n d ds,
      inTree n -> isImportSpecifier P n = true ->
      typeSymbolDeclarations P n = d :: ds -> inTree d;
  complete_descriptor :
    forall n, inTree n -> is_Some (descriptor P n)
}.

(** The names the descriptors are built from: the package resolver answers
    with descriptors that have a name and no disambiguator, and the text of
    a name node is not empty. *)
Record WellNamed : Prop := {
  named_package :
    forall file d, packageOf P file = Some d -> Descriptor.wellFormed d = true;
  named_text :
    forall n m, name P n = Some m -> getText P m <> ""
}.

End WithProgram.

(** An identity whose chain consists of descriptors with a name and without
    disambiguator, and a state whose tables hold only such identities. *)
Definition wfIdentity (r : LsifSymbol.t) : bool :=
  forallb Descriptor.wellFormed (LsifSymbol.chain r).

Definition wfState (s : State) : Prop :=
  (forall n r, globalSymbolTable s !! n = Some r -> wfIdentity r = true)
  /\ (forall n r, localSymbolTable s !! n = Some r -> wfIdentity r = true).

(** The local table holds local identities only, each with an index the
    counter has already passed, and no index twice. *)
Definition localsFresh (s : State) : Prop :=
  forall n r,
    localSymbolTable s !! n = Some r ->
    exists k, r = LsifSymbol.Local k /\ k < localCounter s.

Definition localsDistinct (s : State) : Prop :=
  forall n1 n2 k,
    localSymbolTable s !! n1 = Some (LsifSymbol.Local k) ->
    localSymbolTable s !! n2 = Some (LsifSymbol.Local k) ->
    n1 = n2.

(** The table shared by all files holds no file-scoped identity. *)
Definition globalsShared (s : State) : Prop :=
  forall n r, globalSymbolTable s !! n = Some r -> LsifSymbol.isLocal r = false.

(** The occurrences that carry the definition role, in document order. *)
Definition definitionOccurrences (os : list Occurrence) : list Occurrence :=
  filter (fun o => symbol_roles o = SymbolRole.Definition_) os.

(** An identity whose chain consists of readable descriptors, and a state
    whose tables hold only such identities. *)
Definition readableIdentity (r : LsifSymbol.t) : bool :=
  forallb Descriptor.readable (LsifSymbol.chain r).

Definition readableState (s : State) : Prop :=
  (forall n r, globalSymbolTable s !! n = Some r -> readableIdentity r = true)
  /\ (forall n r, localSymbolTable s !! n = Some r -> readableIdentity r = true).

(** The package resolver answers with readable descriptors, such as the
    Package descriptors without disambiguator of the specification. *)
Definition packagesReadable (P : Program) : Prop :=
  forall file d, packageOf P file = Some d -> Descriptor.readable d = true.

(** The states of one indexing run: it starts from empty tables, goes on by
    resolver calls and pushes on the document, and the [FileIndexer] of the
    next file takes over the global table with fresh file-scoped fields. *)
Inductive reachable (P : Program) : State -> Prop :=
  | reachable_initial : reachable P (initial ∅)
  | reachable_step s s' : reachable P s -> step P s s' -> reachable P s'
  | reachable_nextFile s :
      reachable P s -> reachable P (initial (globalSymbolTable s)).

(** Every global identity stored for a node that [descriptor] names is the
    identity of the node's parent followed by that descriptor. *)
Definition namedByOwner (P : Program) (s : State) : Prop :=
  forall n d c,
    descriptor P n = Some (Some d) ->
    globalSymbolTable s !! n = Some (LsifSymbol.Global c) ->
    exists p o,
      parent P n = Some p /\ settled P s p (LsifSymbol.Global o)
      /\ c = (o ++ [d])%list.


End Resolution.

(* ===================================================================== *)
(** ** Properties of the descriptor codec *)
(* ===================================================================== *)

Lemma append_cons c (a b : string) : String c a ++ b = String c (a ++ b).
Proof. reflexivity. Qed.

Lemma append_nil (b : string) : "" ++ b = b.
Proof. reflexivity. Qed.

Lemma append_assoc (a b c : string) : (a ++ b) ++ c = a ++ (b ++ c).
Proof.
  induction a as [|x a IH]; rewrite ?append_cons, ?append_nil;
    [reflexivity | now f_equal].
Qed.

Ltac norm_append :=
  repeat (rewrite append_assoc || rewrite append_cons || rewrite append_nil).

Section CodecFacts.

Import Descriptor.

Lemma simple_not_backtick c : isSimpleChar c = true -> Ascii.eqb c backtick = false.
Proof.
  intros Hc. destruct (Ascii.eqb_spec c backtick) as [->|]; [|reflexivity].
  vm_compute in Hc. discriminate.
Qed.

Lemma undouble_double s : undoubleBackticks (doubleBackticks s) = s.
Proof.
  induction s as [|c r IH]; [reflexivity|].
  cbn [doubleBackticks].
  destruct (Ascii.eqb_spec c backtick) as [->|Hne].
  - cbn. now rewrite IH.
  - cbn [undoubleBackticks].
    destruct (doubleBackticks r) as [|c' r'] eqn:E.
    + cbn in IH. now subst r.
    + replace (Ascii.eqb c backtick) with false
        by (symmetry; now apply Ascii.eqb_neq).
      cbn [andb]. now rewrite IH.
Qed.

Lemma dropLast_snoc s c : dropLast (s ++ String c "") = s.
Proof.
  induction s as [|a r IH]; [reflexivity|].
  destruct r as [|b r']; [reflexivity|].
  change (String a (dropLast (String b r' ++ String c "")) = String a (String b r')).
  now rewrite IH.
Qed.

(** C3.  Escaping round trip: reading back the escaped form of a
    descriptor's name (dropping the wrapping backticks and undoubling the
    inner ones) gives the name, for every name. *)
Theorem escapedName_roundtrip (desc : Descriptor.t) :
  unescapeName (escapedName desc) = name desc.
Proof.
  unfold escapedName.
  destruct (String.eqb_spec (name desc) "") as [->|Hne]; [reflexivity|].
  destruct (isSimpleIdentifier (name desc)) eqn:Hs.
  - destruct (name desc) as [|c r]; [discriminate|].
    cbn in Hs. apply andb_prop in Hs as [Hc _].
    cbn. now rewrite (simple_not_backtick _ Hc).
  - cbn. now rewrite dropLast_snoc, undouble_double.
Qed.

(** *** Unique readability of rendered owner chains *)

Lemma readSimple_app n r :
  allSimple n = true -> startsWithDelimiter r = true ->
  readSimple (n ++ r) = (n, r).
Proof.
  intros Hn Hr. induction n as [|c n IH]; norm_append.
  - destruct r as [|c r]; [reflexivity|]. cbn in *.
    apply andb_prop in Hr as [Hc _]. apply negb_true_iff in Hc. now rewrite Hc.
  - cbn in Hn. apply andb_prop in Hn as [Hc Hn].
    cbn [readSimple]. now rewrite Hc, IH.
Qed.

Lemma readQuoted_double n r :
  startsWithDelimiter r = true ->
  readQuoted (doubleBackticks n ++ String backtick r) = (n, r).
Proof.
  intros Hr. induction n as [|c n IH].
  - cbn [doubleBackticks]. norm_append.
    destruct r as [|c r]; [reflexivity|]. cbn in *.
    apply andb_prop in Hr as [_ Hc]. apply negb_true_iff in Hc. now rewrite Hc.
  - cbn [doubleBackticks]. destruct (Ascii.eqb_spec c backtick) as [->|Hne];
      norm_append; cbn [readQuoted].
    + rewrite Ascii.eqb_refl. now rewrite IH.
    + replace (Ascii.eqb c backtick) with false
        by (symmetry; now apply Ascii.eqb_neq).
      now rewrite IH.
Qed.

Lemma readName_escaped desc r :
  name desc <> "" -> startsWithDelimiter r = true ->
  readName (escapedName desc ++ r) = (name desc, r).
Proof.
  intros Hne Hr. unfold escapedName.
  destruct (String.eqb_spec (name desc) "") as [|_]; [contradiction|].
  destruct (isSimpleIdentifier (name desc)) eqn:Hs.
  - destruct (name desc) as [|c n] eqn:E; [discriminate|].
    cbn in Hs. pose proof Hs as Hs'. apply andb_prop in Hs' as [Hc _].
    rewrite append_cons. unfold readName.
    rewrite (simple_not_backtick _ Hc), <- append_cons.
    now apply readSimple_app.
  - norm_append. cbn [readName]. rewrite Ascii.eqb_refl.
    now apply readQuoted_double.
Qed.

(** The first character of a rendered name is a simple character or a
    backtick, hence neither of the two opening brackets. *)
Lemma escapedName_head desc :
  name desc <> "" ->
  exists c t, escapedName desc = String c t
              /\ Ascii.eqb c "(" = false /\ Ascii.eqb c "[" = false.
Proof.
  intros Hne. unfold escapedName.
  destruct (String.eqb_spec (name desc) "") as [|_]; [contradiction|].
  destruct (isSimpleIdentifier (name desc)) eqn:Hs.
  - destruct (name desc) as [|c n]; [discriminate|].
    cbn in Hs. apply andb_prop in Hs as [Hc _].
    exists c, n. split; [reflexivity|]. split.
    + destruct (Ascii.eqb_spec c "(") as [->|]; [|reflexivity].
      vm_compute in Hc; discriminate.
    + destruct (Ascii.eqb_spec c "[") as [->|]; [|reflexivity].
      vm_compute in Hc; discriminate.
  - eexists _, _. split; [reflexivity|]. split; reflexivity.
Qed.

Lemma wellFormed_inv desc :
  wellFormed desc = true -> name desc <> "" /\ disambiguator desc = None.
Proof.
  unfold wellFormed. intros H. apply andb_prop in H as [Hn Hd].
  apply negb_true_iff, String.eqb_neq in Hn.
  apply bool_decide_eq_true in Hd. now split.
Qed.

(** Reading a name at the front of [escapedName desc ++ r], through the
    first-character tests of [readDescriptor]. *)
Lemma readDescriptor_named desc r :
  name desc <> "" -> startsWithDelimiter r = true ->
  readDescriptor (escapedName desc ++ r)
  = match r with
    | EmptyString => None
    | String d rest' =>
        if Ascii.eqb d "/" then Some (packageDescriptor (name desc), rest')
        else if Ascii.eqb d "#" then Some (typeDescriptor (name desc), rest')
        else if Ascii.eqb d "." then Some (termDescriptor (name desc), rest')
        else if Ascii.eqb d ":" then Some (metaDescriptor (name desc), rest')
        else if Ascii.eqb d "(" then
          rest'' ← expect ")" rest' ≫= expect ".";
          Some (methodDescriptor (name desc), rest'')
        else None
    end.
Proof.
  intros Hne Hr.
  destruct (escapedName_head desc Hne) as (c & t & Hhead & Hp & Hb).
  pose proof (readName_escaped desc r Hne Hr) as Hread.
  rewrite Hhead in *. rewrite append_cons in *.
  unfold readDescriptor. now rewrite Hp, Hb, Hread.
Qed.

Lemma readDescriptor_render desc r :
  wellFormed desc = true ->
  readDescriptor (descriptorString desc ++ r) = Some (desc, r).
Proof.
  intros Hwf. apply wellFormed_inv in Hwf as [Hne Hd].
  destruct desc as [n sfx dis]. cbn in Hd. subst dis.
  unfold descriptorString, disambiguatorOrEmpty; cbn [suffix disambiguator].
  destruct sfx; norm_append;
    try (rewrite readDescriptor_named by easy; reflexivity).
  - unfold readDescriptor. cbn [Ascii.eqb Bool.eqb].
    now rewrite readName_escaped.
  - unfold readDescriptor. cbn [Ascii.eqb Bool.eqb].
    now rewrite readName_escaped.
Qed.

Lemma descriptorString_not_empty desc r : descriptorString desc ++ r <> "".
Proof.
  unfold descriptorString.
  destruct (suffix desc); destruct (escapedName desc); discriminate.
Qed.

Lemma renderChain_injective c1 c2 :
  forallb wellFormed c1 = true -> forallb wellFormed c2 = true ->
  LsifSymbol.renderChain c1 = LsifSymbol.renderChain c2 -> c1 = c2.
Proof.
  revert c2. induction c1 as [|d1 c1 IH]; intros [|d2 c2] H1 H2 E; cbn in *.
  - reflexivity.
  - symmetry in E. now apply descriptorString_not_empty in E.
  - now apply descriptorString_not_empty in E.
  - apply andb_prop in H1 as [Hd1 H1], H2 as [Hd2 H2].
    pose proof (readDescriptor_render d1 (LsifSymbol.renderChain c1) Hd1) as R1.
    pose proof (readDescriptor_render d2 (LsifSymbol.renderChain c2) Hd2) as R2.
    rewrite E in R1. rewrite R1 in R2. injection R2 as -> E'.
    f_equal. now apply IH.
Qed.

Lemma renderChain_app c1 c2 :
  LsifSymbol.renderChain (c1 ++ c2)
  = LsifSymbol.renderChain c1 ++ LsifSymbol.renderChain c2.
Proof.
  induction c1 as [|d c1 IH]; cbn [app LsifSymbol.renderChain];
    norm_append; [reflexivity | now rewrite IH].
Qed.

End CodecFacts.

(* ===================================================================== *)
(** ** Properties of the resolver *)
(* ===================================================================== *)

Import FileIndexer Resolution.

Section ResolverFacts.

Variable P : Program.

Lemma hasKind_true k n : hasKind P k n = true <-> kind P n = k.
Proof. unfold hasKind. apply bool_decide_eq_true. Qed.

Lemma hasKind_other k k' n : hasKind P k n = true -> k <> k' -> hasKind P k' n = false.
Proof.
  intros H Hne. apply hasKind_true in H. unfold hasKind.
  apply bool_decide_eq_false. congruence.
Qed.

Lemma fromCache_setGlobal_eq m v s : fromCache (setGlobal m v s) m = Some v.
Proof. unfold fromCache, setGlobal; cbn. now rewrite lookup_insert_eq. Qed.

Lemma fromCache_setGlobal_ne m v s n :
  n <> m -> fromCache (setGlobal m v s) n = fromCache s n.
Proof. intros. unfold fromCache, setGlobal; cbn. now rewrite lookup_insert_ne. Qed.

Lemma fromCache_None s n :
  fromCache s n = None ->
  globalSymbolTable s !! n = None /\ localSymbolTable s !! n = None.
Proof. unfold fromCache. destruct (globalSymbolTable s !! n); [discriminate | auto]. Qed.

Lemma fromCache_setLocal_eq m v s :
  fromCache s m = None -> fromCache (setLocal m v s) m = Some v.
Proof.
  intros H. apply fromCache_None in H as [Hg _].
  unfold fromCache, setLocal; cbn. now rewrite Hg, lookup_insert_eq.
Qed.

Lemma fromCache_setLocal_ne m v s n :
  n <> m -> fromCache (setLocal m v s) n = fromCache s n.
Proof. intros. unfold fromCache, setLocal; cbn. now rewrite lookup_insert_ne. Qed.

Lemma fromCache_setLocalCounter c s n :
  fromCache (setLocalCounter c s) n = fromCache s n.
Proof. reflexivity. Qed.

Lemma fromCache_setPropertyCounter k c s n :
  fromCache (setPropertyCounter k c s) n = fromCache s n.
Proof. reflexivity. Qed.

Lemma fromCache_ensurePropertyCounter k s n :
  fromCache (ensurePropertyCounter k s) n = fromCache s n.
Proof. unfold ensurePropertyCounter. now destruct (propertyCounters s !! k). Qed.

Lemma fromCache_nextPropertyCounter k s x s' n :
  nextPropertyCounter k s = Some (x, s') -> fromCache s' n = fromCache s n.
Proof.
  unfold nextPropertyCounter. destruct (propertyCounters s !! k); cbn; [|discriminate].
  now intros [= <- <-].
Qed.

Lemma fromCache_pushOccurrence o s n : fromCache (pushOccurrence o s) n = fromCache s n.
Proof. reflexivity. Qed.

Lemma fromCache_pushSymbol i s n : fromCache (pushSymbol i s) n = fromCache s n.
Proof. reflexivity. Qed.

(** Settled identities only depend on the two tables. *)
Lemma settled_same s1 s2 :
  (forall n, fromCache s2 n = fromCache s1 n) ->
  forall n x, settled P s1 n x -> settled P s2 n x.
Proof.
  intros Hsame n x H. induction H.
  - apply settled_cache. now rewrite Hsame.
  - apply settled_block; [now rewrite Hsame | assumption].
  - eapply settled_import; eauto. now rewrite Hsame.
Qed.

(** Adding a table entry for a node that is not settled disturbs no
    settled identity. *)
Lemma settled_extend s1 s2 m :
  (forall x, ~ settled P s1 m x) ->
  (forall n, n <> m -> fromCache s2 n = fromCache s1 n) ->
  forall n x, settled P s1 n x -> settled P s2 n x.
Proof.
  intros Hun Hsame n x H. induction H as [n r Hc|n Hc Hb|n p o d ds r Hc Hi Hp Ho IHo Hf Hd Hr IHr].
  - assert (n <> m) by (intros ->; exact (Hun _ (settled_cache P _ _ _ Hc))).
    apply settled_cache. now rewrite Hsame.
  - assert (n <> m) by (intros ->; exact (Hun _ (settled_block P _ _ Hc Hb))).
    apply settled_block; [now rewrite Hsame | assumption].
  - assert (n <> m)
      by (intros ->; exact (Hun _ (settled_import P _ _ _ _ _ _ _ Hc Hi Hp Ho Hf Hd Hr))).
    eapply settled_import; eauto. now rewrite Hsame.
Qed.

Lemma kind_clash k k' n :
  hasKind P k n = true -> hasKind P k' n = true -> k <> k' -> False.
Proof. intros H H' Hne. apply hasKind_true in H, H'. congruence. Qed.

Lemma settled_deterministic s n x y :
  settled P s n x -> settled P s n y -> x = y.
Proof.
  intros Hx. revert y.
  induction Hx as [n r Hc|n Hc Hb|n p o d ds r Hc Hi Hp Ho IHo Hf Hd Hr IHr];
    intros y Hy; inversion Hy; subst; try congruence.
  - exfalso. eapply (kind_clash _ _ n Hb); [eassumption | discriminate].
  - exfalso. eapply (kind_clash _ _ n Hi); [eassumption | discriminate].
  - apply IHr. congruence.
Qed.

Lemma anonymous_not_import n :
  isAnonymousContainerOfSymbols P n = true -> isImportSpecifier P n = false.
Proof.
  unfold isAnonymousContainerOfSymbols. intros H.
  repeat (apply orb_prop in H as [H|H]);
    (eapply hasKind_other; [exact H | discriminate]).
Qed.

Lemma property_not_import n :
  isPropertyAssignment P n || isShorthandPropertyAssignment P n = true ->
  isImportSpecifier P n = false.
Proof.
  intros H. apply orb_prop in H as [H|H];
    (eapply hasKind_other; [exact H | discriminate]).
Qed.

Lemma import_kinds n :
  isImportSpecifier P n = true ->
  isBlock P n = false /\ isSourceFile P n = false
  /\ isPropertyAssignment P n = false
  /\ isShorthandPropertyAssignment P n = false
  /\ isAnonymousContainerOfSymbols P n = false.
Proof.
  intros Hi. unfold isAnonymousContainerOfSymbols.
  assert (forall k, SyntaxKind.ImportSpecifier <> k -> hasKind P k n = false) as Hk
    by (intros k; apply hasKind_other, Hi).
  unfold isBlock, isSourceFile, isPropertyAssignment,
    isShorthandPropertyAssignment, isModuleBlock, isImportDeclaration,
    isImportClause, isNamedImports, isVariableStatement,
    isVariableDeclarationList.
  rewrite !Hk by discriminate. repeat split.
Qed.

(** A node without a table entry that is neither a block nor an import
    specifier on the adopting path is not settled. *)
Lemma unsettled s m :
  fromCache s m = None ->
  isBlock P m = false ->
  (isImportSpecifier P m = true ->
   forall p owner d ds,
     parent P m = Some p -> settled P s p owner ->
     LsifSymbol.isEmpty owner || LsifSymbol.isLocal owner = false ->
     typeSymbolDeclarations P m = d :: ds -> False) ->
  forall x, ~ settled P s m x.
Proof.
  intros Hc Hb Hi x Hx. inversion Hx; subst; try congruence.
  eapply Hi; eauto.
Qed.

Section WithRank.

Variable rank : Node -> nat.
Hypothesis HR : Ranked P rank.

Lemma post_store m s s2 s' r :
  fromCache s m = None ->
  (forall n x, settled P s n x -> settled P s2 n x) ->
  (forall n, rank m <= rank n -> fromCache s2 n = fromCache s n) ->
  (forall x, ~ settled P s2 m x) ->
  fromCache s' m = Some r ->
  (forall n, n <> m -> fromCache s' n = fromCache s2 n) ->
  post P rank m s r s'.
Proof.
  intros Hc Hpres Hframe Hun Hm Hother. repeat split.
  - now apply settled_cache.
  - intros n x Hx. eapply settled_extend; eauto.
  - intros n Hn. rewrite Hother, Hframe; [reflexivity | lia |].
    intros ->. lia.
Qed.

Lemma post_cached m s s2 v :
  fromCache s m = None ->
  (forall n x, settled P s n x -> settled P s2 n x) ->
  (forall n, rank m <= rank n -> fromCache s2 n = fromCache s n) ->
  (forall x, ~ settled P s2 m x) ->
  post P rank m s v (setGlobal m v s2).
Proof.
  intros Hc Hpres Hframe Hun.
  apply (post_store m s s2); auto.
  - apply fromCache_setGlobal_eq.
  - intros n Hn. now apply fromCache_setGlobal_ne.
Qed.

Lemma post_newLocalSymbol m s s2 :
  fromCache s m = None ->
  (forall n x, settled P s n x -> settled P s2 n x) ->
  (forall n, rank m <= rank n -> fromCache s2 n = fromCache s n) ->
  (forall x, ~ settled P s2 m x) ->
  post P rank m s (fst (newLocalSymbol m s2)) (snd (newLocalSymbol m s2)).
Proof.
  intros Hc Hpres Hframe Hun. cbn.
  apply (post_store m s s2); auto.
  - apply fromCache_setLocal_eq. rewrite fromCache_setLocalCounter.
    rewrite Hframe by lia. exact Hc.
  - intros n Hn. now rewrite fromCache_setLocal_ne.
Qed.

Lemma lsifSymbol_post fuel : forall m s r s',
  lsifSymbol P fuel m s = Some (r, s') -> post P rank m s r s'.
Proof.
  induction fuel as [|fuel IH]; intros m s r s' H; [discriminate|].
  cbn [lsifSymbol] in H.
  destruct (fromCache s m) as [c|] eqn:Hc.
  { injection H as <- <-. repeat split; auto. now apply settled_cache. }
  destruct (isBlock P m) eqn:Hb.
  { injection H as <- <-. repeat split; auto. now apply settled_block. }
  destruct (isSourceFile P m) eqn:Hsf.
  { assert (exists v, r = v /\ s' = setGlobal m v s) as (v & -> & ->).
    { destruct (Packages.symbol P (fileName P m)) as [pk|];
        [exists pk | exists LsifSymbol.empty]; injection H as <- <-; auto. }
    apply (post_cached m s s v); auto.
    apply unsettled; auto. intros Hi.
    exfalso. eapply (kind_clash _ _ m Hsf); [exact Hi | discriminate]. }
  destruct (isPropertyAssignment P m || isShorthandPropertyAssignment P m) eqn:Hp.
  { destruct (nameText P m) as [text|]; [|discriminate]. cbn in H.
    destruct (lsifSymbol P fuel (getSourceFile P m) (ensurePropertyCounter text s))
      as [[file s1]|] eqn:E1; [|discriminate]. cbn in H.
    destruct (nextPropertyCounter text s1) as [[k s2]|] eqn:E2; [|discriminate].
    cbn in H. injection H as <- <-.
    apply IH in E1 as (_ & Hpres & Hframe).
    pose proof (rank_sourceFile P rank HR m Hp) as Hrk.
    assert (Hfr : forall n, rank m <= rank n -> fromCache s2 n = fromCache s n).
    { intros n Hn. rewrite (fromCache_nextPropertyCounter _ _ _ _ n E2).
      rewrite Hframe by lia. apply fromCache_ensurePropertyCounter. }
    apply (post_cached m s s2 _ Hc); auto.
    - intros n x Hx.
      apply (settled_same s1); [intros; eapply fromCache_nextPropertyCounter; eauto|].
      apply Hpres.
      apply (settled_same s); [intros; apply fromCache_ensurePropertyCounter | exact Hx].
    - apply unsettled; auto.
      + rewrite Hfr by lia. exact Hc.
      + intros Hi. now rewrite (property_not_import _ Hp) in Hi. }
  destruct (parent P m) as [p|] eqn:Hpar; [|discriminate]. cbn in H.
  destruct (lsifSymbol P fuel p s) as [[owner s1]|] eqn:E1; [|discriminate].
  cbn in H.
  pose proof (rank_parent P rank HR m p Hpar) as Hrk.
  apply IH in E1 as (Hown & Hpres1 & Hframe1).
  assert (Hfr1 : forall n, rank m <= rank n -> fromCache s1 n = fromCache s n).
  { intros n Hn. apply Hframe1. lia. }
  assert (Hc1 : fromCache s1 m = None) by (rewrite Hfr1 by lia; exact Hc).
  destruct (LsifSymbol.isEmpty owner || LsifSymbol.isLocal owner) eqn:Hflag.
  { injection H as <- <-. apply (post_newLocalSymbol m s s1 Hc); auto.
    apply unsettled; auto. intros _ p0 o d ds Hp0 Ho Hfo _.
    assert (p0 = p) as -> by congruence.
    rewrite (settled_deterministic _ _ _ _ Ho Hown) in Hfo. congruence. }
  destruct (isAnonymousContainerOfSymbols P m) eqn:Hanon.
  { destruct (lsifSymbol P fuel p s1) as [[sym s2]|] eqn:E2; [|discriminate].
    cbn in H. injection H as <- <-.
    apply IH in E2 as (_ & Hpres2 & Hframe2).
    assert (Hfr2 : forall n, rank m <= rank n -> fromCache s2 n = fromCache s n).
    { intros n Hn. rewrite Hframe2 by lia. now apply Hfr1. }
    apply (post_cached m s s2 _ Hc); auto.
    apply unsettled; auto.
    - rewrite Hfr2 by lia. exact Hc.
    - intros Hi. now rewrite (anonymous_not_import _ Hanon) in Hi. }
  destruct (if isImportSpecifier P m then typeSymbolDeclarations P m else [])
    as [|d ds] eqn:Himp.
  { assert (Hun : forall x, ~ settled P s1 m x).
    { apply unsettled; auto. intros Hi p0 o d ds _ _ _ Hd.
      rewrite Hi in Himp. congruence. }
    destruct (descriptor P m) as [[desc|]|]; [| |discriminate];
      cbn in H; injection H as <- <-.
    - now apply (post_cached m s s1 _ Hc).
    - now apply (post_newLocalSymbol m s s1 Hc). }
  destruct (isImportSpecifier P m) eqn:Hi; [|discriminate].
  pose proof (rank_import P rank HR m d ds Hi Himp) as Hrkd.
  apply IH in H as (Hr & Hpres2 & Hframe2).
  repeat split.
  - eapply settled_import; eauto.
    rewrite Hframe2 by lia. exact Hc1.
  - auto.
  - intros n Hn. rewrite Hframe2 by lia. apply Hframe1. lia.
Qed.

(** A settled node resolves to its identity, and the call changes
    nothing. *)
Lemma settled_run s n r :
  settled P s n r ->
  forall fuel, rank n < fuel -> lsifSymbol P fuel n s = Some (r, s).
Proof.
  induction 1 as [n r Hc|n Hc Hb|n p o d ds r Hc Hi Hp Ho IHo Hf Hd Hr IHr];
    intros [|fuel] Hfuel; try lia; cbn [lsifSymbol]; rewrite Hc.
  - reflexivity.
  - now rewrite Hb.
  - pose proof (rank_parent P rank HR n p Hp).
    pose proof (rank_import P rank HR n d ds Hi Hd).
    destruct (import_kinds n Hi) as (-> & -> & -> & -> & ->).
    cbn. rewrite Hp. cbn. rewrite IHo by lia. cbn. rewrite Hf.
    rewrite Hi, Hd. apply IHr. lia.
Qed.

Lemma step_settled s s' :
  step P s s' -> forall n x, settled P s n x -> settled P s' n x.
Proof.
  intros [fuel m r H| o -> | i ->] n x Hx.
  - now apply (lsifSymbol_post _ _ _ _ _ H).
  - now apply (settled_same s).
  - now apply (settled_same s).
Qed.

Lemma steps_settled s s' :
  rtc (step P) s s' -> forall n x, settled P s n x -> settled P s' n x.
Proof.
  intros Hsteps. induction Hsteps as [s|s s1 s2 Hstep _ IH];
    intros n r Hr; [assumption|].
  apply IH. eapply step_settled; eauto.
Qed.

End WithRank.

(** *** The traversal of a file is a sequence of steps *)

Lemma shorthandValueLoop_steps fuel range decls : forall s s',
  shorthandValueLoop P fuel range decls s = Some s' -> rtc (step P) s s'.
Proof.
  induction decls as [|d decls IH]; intros s s' H; cbn in H.
  - injection H as <-. apply rtc_refl.
  - destruct (lsifSymbol P fuel d s) as [[sym s1]|] eqn:E; [|discriminate].
    cbn in H. eapply rtc_l; [eapply step_resolve; exact E|].
    destruct (LsifSymbol.isEmpty sym); [now apply IH|].
    eapply rtc_l; [|apply IH; exact H]. now eapply step_occurrence.
Qed.

Lemma handleShorthandPropertyDefinition_steps fuel declaration range s s' :
  handleShorthandPropertyDefinition P fuel declaration range s = Some s' ->
  rtc (step P) s s'.
Proof.
  unfold handleShorthandPropertyDefinition.
  destruct (hasKind P _ declaration).
  - destruct (getShorthandAssignmentValueSymbol P declaration).
    + apply shorthandValueLoop_steps.
    + intros [= <-]. apply rtc_refl.
  - intros [= <-]. apply rtc_refl.
Qed.

Lemma visitIdentifierLoop_steps fuel identifier sym range role isDef decls :
  forall s s',
    visitIdentifierLoop P fuel identifier sym range role isDef decls s = Some s' ->
    rtc (step P) s s'.
Proof.
  induction decls as [|d decls IH]; intros s s' H; cbn in H.
  - injection H as <-. apply rtc_refl.
  - destruct (lsifSymbol P fuel d s) as [[lsifSym s1]|] eqn:E; [|discriminate].
    cbn in H. eapply rtc_l; [eapply step_resolve; exact E|].
    destruct (LsifSymbol.isEmpty lsifSym); [now apply IH|].
    eapply rtc_l; [now eapply step_occurrence|].
    destruct isDef.
    + destruct (handleShorthandPropertyDefinition P fuel d range _)
        as [s3|] eqn:E3; [|discriminate].
      cbn in H. eapply rtc_l; [now eapply step_symbol|].
      etrans; [eapply handleShorthandPropertyDefinition_steps; exact E3|].
      now apply IH.
    + cbn in H. now apply IH.
Qed.

Lemma visitIdentifier_steps fuel identifier sym s s' :
  visitIdentifier P fuel identifier sym s = Some s' -> rtc (step P) s s'.
Proof.
  unfold visitIdentifier.
  destruct (isDefinition P identifier); [|discriminate]. cbn.
  apply visitIdentifierLoop_steps.
Qed.

Lemma visit_steps fuel depth : forall node s s',
  visit P fuel depth node s = Some s' -> rtc (step P) s s'.
Proof.
  induction depth as [|depth IH]; intros node s s' H; [discriminate|].
  cbn [visit] in H.
  match type of H with
  | (?first ≫= _) = _ => destruct first as [s1|] eqn:E1; [|discriminate]
  end.
  cbn in H.
  assert (rtc (step P) s s1) as Hfirst.
  { destruct (isIdentifier P node); [|injection E1 as <-; apply rtc_refl].
    destruct (getSymbolAtLocation P node);
      [eapply visitIdentifier_steps; exact E1 | injection E1 as <-; apply rtc_refl]. }
  etrans; [exact Hfirst|]. clear E1 Hfirst.
  revert s1 H. induction (children P node) as [|c cs IHc]; intros s1 H; cbn in H.
  - injection H as <-. apply rtc_refl.
  - destruct (visit P fuel depth c s1) as [s2|] eqn:E2.
    + etrans; [eapply IH; exact E2|]. now apply IHc.
    + exfalso. clear -H. induction cs as [|c' cs IHcs]; cbn in H;
        [discriminate | auto].
Qed.

End ResolverFacts.

(** C7.  Idempotence of the resolver: once a call on a node has returned an
    identity, every later call on that node within the run - after any
    number of further resolver calls and document pushes - returns the same
    identity, and leaves the state as it finds it. *)
Theorem lsifSymbol_idempotent (P : Program) (rank : Node -> nat)
    (fuel fuel' : nat) (node : Node) (s0 s1 s2 : State) (r : LsifSymbol.t) :
  Ranked P rank ->
  lsifSymbol P fuel node s0 = Some (r, s1) ->
  rtc (step P) s1 s2 ->
  rank node < fuel' ->
  lsifSymbol P fuel' node s2 = Some (r, s2).
Proof.
  intros HR Hfirst Hsteps Hfuel.
  apply (settled_run P rank HR); [|exact Hfuel].
  apply (steps_settled P rank HR s1 s2 Hsteps).
  exact (proj1 (lsifSymbol_post P rank HR fuel node s0 r s1 Hfirst)).
Qed.

Section Totality.

Variable P : Program.
Variable rank : Node -> nat.
Variable inTree : Node -> Prop.
Hypothesis HR : Ranked P rank.
Hypothesis HC : Complete P inTree.

(** The resolver never removes a per-name counter. *)
Lemma lsifSymbol_counters fuel : forall n s r s' k,
  lsifSymbol P fuel n s = Some (r, s') ->
  is_Some (propertyCounters s !! k) -> is_Some (propertyCounters s' !! k).
Proof.
  induction fuel as [|fuel IH]; intros n s r s' k H Hk; [discriminate|].
  cbn [lsifSymbol] in H.
  destruct (fromCache s n); [now injection H as <- <-|].
  destruct (isBlock P n); [now injection H as <- <-|].
  destruct (isSourceFile P n).
  { destruct (Packages.symbol P (fileName P n)); now injection H as <- <-. }
  destruct (isPropertyAssignment P n || isShorthandPropertyAssignment P n).
  { destruct (nameText P n) as [text|]; [|discriminate]. cbn in H.
    destruct (lsifSymbol P fuel (getSourceFile P n) (ensurePropertyCounter text s))
      as [[file s1]|] eqn:E1; [|discriminate]. cbn in H.
    unfold nextPropertyCounter in H.
    destruct (propertyCounters s1 !! text) as [c|] eqn:Ec; [|discriminate].
    cbn in H. injection H as <- <-. cbn.
    destruct (decide (text = k)) as [->|Hne].
    - rewrite lookup_insert_eq. eauto.
    - rewrite lookup_insert_ne by exact Hne.
      apply (IH _ _ _ _ k E1). unfold ensurePropertyCounter.
      destruct (propertyCounters s !! text); [exact Hk|].
      cbn. now rewrite lookup_insert_ne. }
  destruct (parent P n) as [p|]; [|discriminate]. cbn in H.
  destruct (lsifSymbol P fuel p s) as [[owner s1]|] eqn:E1; [|discriminate].
  cbn in H. pose proof (IH _ _ _ _ k E1 Hk) as Hk1.
  destruct (LsifSymbol.isEmpty owner || LsifSymbol.isLocal owner);
    [now injection H as <- <-|].
  destruct (isAnonymousContainerOfSymbols P n).
  { destruct (lsifSymbol P fuel p s1) as [[sym s2]|] eqn:E2; [|discriminate].
    cbn in H. injection H as <- <-. exact (IH _ _ _ _ k E2 Hk1). }
  destruct (if isImportSpecifier P n then typeSymbolDeclarations P n else [])
    as [|d ds]; [|exact (IH _ _ _ _ k H Hk1)].
  destruct (descriptor P n) as [[desc|]|]; [| |discriminate];
    cbn in H; now injection H as <- <-.
Qed.

(** Totality: on a complete, ranked tree the resolver returns an identity
    for every node, with any fuel above the node's rank. *)
Lemma lsifSymbol_total fuel : forall n s,
  inTree n -> rank n < fuel ->
  exists r s', lsifSymbol P fuel n s = Some (r, s').
Proof.
  induction fuel as [|fuel IH]; intros n s Hn Hfuel; [lia|].
  cbn [lsifSymbol].
  destruct (fromCache s n); [eauto|].
  destruct (isBlock P n) eqn:Hb; [eauto|].
  destruct (isSourceFile P n) eqn:Hsf.
  { destruct (Packages.symbol P (fileName P n)); eauto. }
  destruct (isPropertyAssignment P n || isShorthandPropertyAssignment P n) eqn:Hp.
  { destruct (complete_property P inTree HC n Hn Hp) as [Hsrc [m Hm]].
    pose proof (rank_sourceFile P rank HR n Hp) as Hrk.
    unfold nameText. rewrite Hm. cbn.
    destruct (IH (getSourceFile P n) (ensurePropertyCounter (getText P m) s) Hsrc)
      as (file & s1 & E1); [lia|].
    rewrite E1. cbn.
    assert (is_Some (propertyCounters s1 !! getText P m)) as [c Hc].
    { apply (lsifSymbol_counters _ _ _ _ _ _ E1). unfold ensurePropertyCounter.
      destruct (propertyCounters s !! getText P m) eqn:E; [now rewrite E|].
      cbn. rewrite lookup_insert_eq. eauto. }
    unfold nextPropertyCounter. rewrite Hc. cbn. eauto. }
  destruct (complete_parent P inTree HC n Hn Hb Hsf Hp) as (p & Hpar & Hp_in).
  pose proof (rank_parent P rank HR n p Hpar) as Hrk.
  rewrite Hpar. cbn.
  destruct (IH p s Hp_in) as (owner & s1 & E1); [lia|].
  rewrite E1. cbn.
  destruct (LsifSymbol.isEmpty owner || LsifSymbol.isLocal owner); [eauto|].
  destruct (isAnonymousContainerOfSymbols P n).
  { destruct (IH p s1 Hp_in) as (sym & s2 & E2); [lia|]. rewrite E2. cbn. eauto. }
  destruct (isImportSpecifier P n) eqn:Hi.
  - destruct (typeSymbolDeclarations P n) as [|d ds] eqn:Hd.
    + destruct (complete_descriptor P inTree HC n Hn) as [[desc|] ->]; cbn; eauto.
    + apply IH.
      * exact (complete_import P inTree HC n d ds Hn Hi Hd).
      * pose proof (rank_import P rank HR n d ds Hi Hd). lia.
  - destruct (complete_descriptor P inTree HC n Hn) as [[desc|] ->]; cbn; eauto.
Qed.

End Totality.

(** On a complete, ranked tree the resolver answers, and answers the same
    again at any later point of the run. *)
Corollary lsifSymbol_total_idempotent (P : Program) (rank : Node -> nat)
    (inTree : Node -> Prop) (fuel : nat) (node : Node) (s0 : State) :
  Ranked P rank -> Complete P inTree -> inTree node -> rank node < fuel ->
  exists r s1,
    lsifSymbol P fuel node s0 = Some (r, s1)
    /\ forall s2, rtc (step P) s1 s2 -> lsifSymbol P fuel node s2 = Some (r, s2).
Proof.
  intros HR HC Hn Hfuel.
  destruct (lsifSymbol_total P rank inTree HR HC fuel node s0 Hn Hfuel)
    as (r & s1 & Hrun).
  exists r, s1. split; [exact Hrun|]. intros s2 Hsteps.
  apply (settled_run P rank HR); [|exact Hfuel].
  apply (steps_settled P rank HR s1 s2 Hsteps).
  exact (proj1 (lsifSymbol_post P rank HR fuel node s0 r s1 Hrun)).
Qed.

(** The ten nodes of [function f() { { const x = 1 } }] form a complete
    tree. *)
Lemma blockProgram_complete : Complete Fixture.blockProgram (fun n => n < 10).
Proof.
  split.
  - intros n Hn.
    do 10 (destruct n as [|n];
           [cbn; intros;
            first [discriminate | eexists; split; [reflexivity | lia]]|]).
    lia.
  - intros n Hn. do 10 (destruct n as [|n]; [cbn; discriminate|]). lia.
  - intros n d ds _ _. discriminate.
  - intros n Hn. do 10 (destruct n as [|n]; [cbn; eauto|]). lia.
Qed.

(* ===================================================================== *)
(** ** The resolver and the emitter, case by case *)
(* ===================================================================== *)

Lemma declarationName_class P n :
  hasKind P SyntaxKind.ClassDeclaration n = true -> declarationName P n = None.
Proof.
  intros H. unfold declarationName.
  pose proof (fun k' => hasKind_other P _ k' n H) as Hk.
  unfold isEnumDeclaration, isVariableDeclaration, isPropertyDeclaration,
    isMethodSignature, isMethodDeclaration, isPropertySignature,
    isFunctionDeclaration, isModuleDeclaration, isPropertyAssignment,
    isShorthandPropertyAssignment, isParameter, isTypeParameterDeclaration,
    isInterfaceDeclaration.
  now rewrite !Hk by discriminate.
Qed.

(** C1.  [class C { constructor() {} }]: the identifier [C] is the name
    of the class declaration, yet [declarationName] does not list class
    declarations, so the only occurrence emitted for it carries no
    definition bit. *)
Theorem class_name_not_definition :
  isDefinition Fixture.classProgram 2 = Some false
  /\ occurrences <$> index Fixture.classProgram 4 4 0 ∅
     = Some [ {| range := [0; 6; 7]%Z; symbol := "pkg/C#"; symbol_roles := 0 |} ].
Proof. split; vm_compute; reflexivity. Qed.

(** C2.  Shorthand duality.  Indexing [const a = 1; const b = { a }], with
    or without a package for the file, leaves exactly two occurrences at the
    range of the [a] inside the object literal: first a definition of the
    property symbol [a0:] under the file's symbol, then a reference without
    role bits to the symbol of the declaration of the outer [a]. *)
Theorem shorthand_duality (package_ : option Descriptor.t) :
  let P := Fixture.shorthandProgram package_ in
  let file :=
    match package_ with
    | Some d => LsifSymbol.Global [d]
    | None => LsifSymbol.Empty
    end in
  exists outer,
    (index P 8 8 0 ∅ ≫= fun s => fromCache s 3) = Some outer
    /\ (fun s => filter (fun o => range o = [0; 25; 26]%Z) (occurrences s))
         <$> index P 8 8 0 ∅
       = Some
         [ {| range := [0; 25; 26]%Z;
              symbol := LsifSymbol.value
                          (LsifSymbol.global file (Descriptor.metaDescriptor "a0"));
              symbol_roles := SymbolRole.Definition_ |};
           {| range := [0; 25; 26]%Z;
              symbol := LsifSymbol.value outer;
              symbol_roles := 0 |} ].
Proof.
  destruct package_ as [d|]; cbv zeta.
  - exists (LsifSymbol.Global [d; Descriptor.termDescriptor "a"]). split.
    + vm_compute. reflexivity.
    + cbv -[LsifSymbol.value]. reflexivity.
  - exists (LsifSymbol.Local 2). split; vm_compute; reflexivity.
Qed.

Ltac unfold_kinds :=
  unfold isAnonymousContainerOfSymbols, isClassLike, isBlock, isSourceFile,
    isModuleBlock, isImportDeclaration, isImportClause, isNamedImports,
    isImportSpecifier, isVariableStatement, isVariableDeclarationList,
    isVariableDeclaration, isPropertyAssignment,
    isShorthandPropertyAssignment, isInterfaceDeclaration, isEnumDeclaration,
    isEnumMember, isFunctionDeclaration, isMethodSignature,
    isMethodDeclaration, isConstructorDeclaration, isPropertyDeclaration,
    isPropertySignature, isModuleDeclaration, isParameter,
    isTypeParameterDeclaration, isIdentifier in *.

(** Decides every kind test on the node of [H : hasKind P k n = true]. *)
Ltac kinds_of H :=
  unfold_kinds;
  let Hk := fresh "Hk" in
  pose proof (fun k' => hasKind_other _ _ k' _ H) as Hk;
  rewrite ?H; rewrite ?Hk by discriminate; clear Hk.

Section ResolverCases.

Variable P : Program.

Lemma lsifSymbol_cached fuel node s r :
  fromCache s node = Some r -> lsifSymbol P (S fuel) node s = Some (r, s).
Proof. intros H. cbn [lsifSymbol]. now rewrite H. Qed.

Lemma descriptor_constructor ctor :
  isConstructorDeclaration P ctor = true ->
  descriptor P ctor = Some (Some (Descriptor.methodDescriptor "<constructor>")).
Proof. intros H. unfold descriptor. kinds_of H. reflexivity. Qed.

End ResolverCases.

(** C4 (amended).  Constructor naming.  When a class resolves to a global
    identity that ends in the Type descriptor of its name, an explicit
    constructor of the class gets the Method descriptor with the literal
    name [<constructor>], and its symbol string is the symbol string of
    the class followed by the backtick-escaped literal and [().]. *)
Theorem constructor_symbol (P : Program) (fuel : nat) (ctor cls : Node)
    (s s1 : State) (owners : list Descriptor.t) (cname : string) :
  isConstructorDeclaration P ctor = true ->
  parent P ctor = Some cls ->
  fromCache s ctor = None ->
  lsifSymbol P fuel cls s
  = Some (LsifSymbol.Global (owners ++ [Descriptor.typeDescriptor cname]), s1) ->
  let class_ := LsifSymbol.Global (owners ++ [Descriptor.typeDescriptor cname]) in
  let r :=
    LsifSymbol.Global
      (owners ++ [Descriptor.typeDescriptor cname;
                  Descriptor.methodDescriptor "<constructor>"]) in
  descriptor P ctor = Some (Some (Descriptor.methodDescriptor "<constructor>"))
  /\ lsifSymbol P (S fuel) ctor s = Some (r, setGlobal ctor r s1)
  /\ LsifSymbol.value class_
     = LsifSymbol.renderChain owners
       ++ Descriptor.escapedName (Descriptor.typeDescriptor cname) ++ "#"
  /\ LsifSymbol.value r = LsifSymbol.value class_ ++ "`<constructor>`().".
Proof.
  intros Hk Hp Hc Hcls class_ r.
  pose proof (descriptor_constructor P ctor Hk) as Hd.
  split; [exact Hd|]. split; [|split].
  - cbn [lsifSymbol]. rewrite Hc, Hp. cbn. rewrite Hcls. cbn.
    rewrite Hd. cbn.
    pose proof Hk as Hk'. kinds_of Hk'. cbn.
    unfold cached, LsifSymbol.global. cbn [LsifSymbol.chain].
    subst r. now rewrite <- app_assoc.
  - subst class_. cbn [LsifSymbol.value]. rewrite renderChain_app.
    cbn [LsifSymbol.renderChain]. unfold Descriptor.descriptorString at 1.
    cbn [Descriptor.suffix Descriptor.typeDescriptor].
    norm_append. reflexivity.
  - subst r class_. cbn [LsifSymbol.value]. rewrite !renderChain_app.
    cbn [LsifSymbol.renderChain].
    change (Descriptor.descriptorString (Descriptor.methodDescriptor "<constructor>"))
      with "`<constructor>`().".
    norm_append. reflexivity.
Qed.

(** C4, witness: the constructor of [class C { constructor() {} }]. *)
Lemma constructor_symbol_witness :
  lsifSymbol Fixture.classProgram 3 3 (initial ∅)
  = Some (LsifSymbol.Global
            [Fixture.pkg; Descriptor.typeDescriptor "C";
             Descriptor.methodDescriptor "<constructor>"],
          setGlobal 3
            (LsifSymbol.Global
               [Fixture.pkg; Descriptor.typeDescriptor "C";
                Descriptor.methodDescriptor "<constructor>"])
            (setGlobal 1
               (LsifSymbol.Global [Fixture.pkg; Descriptor.typeDescriptor "C"])
               (setGlobal 0 (LsifSymbol.Global [Fixture.pkg]) (initial ∅))))
  /\ LsifSymbol.value
       (LsifSymbol.Global
          [Fixture.pkg; Descriptor.typeDescriptor "C";
           Descriptor.methodDescriptor "<constructor>"])
     = "pkg/C#`<constructor>`().".
Proof.
  pose proof (constructor_symbol Fixture.classProgram 2 3 1 (initial ∅)
                (setGlobal 1
                   (LsifSymbol.Global [Fixture.pkg; Descriptor.typeDescriptor "C"])
                   (setGlobal 0 (LsifSymbol.Global [Fixture.pkg]) (initial ∅)))
                [Fixture.pkg] "C"
                eq_refl eq_refl eq_refl eq_refl) as (_ & Hrun & _ & Hvalue).
  split; [exact Hrun | exact Hvalue].
Defined.

(** C4, counterexample: the symbol of that constructor does not end in
    [C#<constructor>().]; the literal is rendered between backticks. *)
Lemma constructor_symbol_counterexample :
  exists r s',
    lsifSymbol Fixture.classProgram 3 3 (initial ∅) = Some (r, s')
    /\ descriptor Fixture.classProgram 3
       = Some (Some (Descriptor.methodDescriptor "<constructor>"))
    /\ LsifSymbol.value r = "pkg/C#`<constructor>`()."
    /\ Descriptor.endsWith (LsifSymbol.value r) "C#<constructor>()." = false.
Proof.
  eexists _, _. split; [vm_compute; reflexivity|].
  repeat split; vm_compute; reflexivity.
Qed.

Section ResolverCases2.

Variable P : Program.

(** A node under an owner that is empty or local gets the next local
    index, unless it is a block, a source file or a property assignment. *)
Lemma lsifSymbol_under_local fuel node p s owner s1 :
  fromCache s node = None ->
  isBlock P node = false -> isSourceFile P node = false ->
  isPropertyAssignment P node || isShorthandPropertyAssignment P node = false ->
  parent P node = Some p ->
  lsifSymbol P fuel p s = Some (owner, s1) ->
  LsifSymbol.isEmpty owner || LsifSymbol.isLocal owner = true ->
  lsifSymbol P (S fuel) node s = Some (newLocalSymbol node s1).
Proof.
  intros Hc Hb Hsf Hprop Hp Hrun Hflag. cbn [lsifSymbol].
  rewrite Hc, Hb, Hsf, Hprop, Hp. cbn. rewrite Hrun. cbn. now rewrite Hflag.
Qed.

Lemma lsifSymbol_block fuel b s :
  isBlock P b = true -> fromCache s b = None ->
  lsifSymbol P (S fuel) b s = Some (LsifSymbol.Empty, s).
Proof. intros Hb Hc. cbn [lsifSymbol]. now rewrite Hc, Hb. Qed.

End ResolverCases2.

(** C6 (amended).  A block that has no table entry resolves to the empty
    identity, and the call stores nothing: the state, and with it both
    tables, is returned as it was. *)
Theorem block_is_empty_and_not_cached (P : Program) (fuel : nat) (b : Node)
    (s : State) :
  isBlock P b = true ->
  fromCache s b = None ->
  lsifSymbol P (S fuel) b s = Some (LsifSymbol.Empty, s)
  /\ globalSymbolTable s !! b = None.
Proof.
  intros Hb Hc. split; [now apply lsifSymbol_block|].
  now apply fromCache_None in Hc.
Qed.

(** C6, witness: the body of [f] in [function f() { { const x = 1 } }]. *)
Lemma block_is_empty_and_not_cached_witness :
  lsifSymbol Fixture.blockProgram 1 3 (initial ∅)
  = Some (LsifSymbol.Empty, initial ∅)
  /\ globalSymbolTable (initial ∅) !! 3 = None.
Proof.
  exact (block_is_empty_and_not_cached Fixture.blockProgram 0 3 (initial ∅)
           eq_refl eq_refl).
Defined.

(** C6, counterexample: after the resolver has run on that block, the
    global table has no entry for it. *)
Lemma block_cached_counterexample :
  exists s',
    lsifSymbol Fixture.blockProgram 5 3 (initial ∅) = Some (LsifSymbol.Empty, s')
    /\ globalSymbolTable s' !! 3 = None.
Proof. eexists. split; vm_compute; reflexivity. Qed.

(** C5 (amended).  A variable declared in a statement list: the block
    resolves to the empty identity, so the variable statement, the
    declaration list and the declaration each take the next local index.
    The declaration gets a local identity, and nothing is stored in the
    global table. *)
Theorem block_variable_is_local (P : Program) (fuel : nat)
    (decl list_ stmt block : Node) (s : State) :
  isVariableDeclaration P decl = true ->
  isVariableDeclarationList P list_ = true ->
  isVariableStatement P stmt = true ->
  isBlock P block = true ->
  parent P decl = Some list_ ->
  parent P list_ = Some stmt ->
  parent P stmt = Some block ->
  fromCache s decl = None -> fromCache s list_ = None ->
  fromCache s stmt = None -> fromCache s block = None ->
  let c := localCounter s in
  let s' :=
    setLocal decl (LsifSymbol.Local (S (S c))) (setLocalCounter (S (S (S c)))
      (setLocal list_ (LsifSymbol.Local (S c)) (setLocalCounter (S (S c))
        (setLocal stmt (LsifSymbol.Local c) (setLocalCounter (S c) s))))) in
  lsifSymbol P (4 + fuel) decl s = Some (LsifSymbol.Local (S (S c)), s')
  /\ globalSymbolTable s' = globalSymbolTable s.
Proof.
  intros Kd Kl Ks Kb Pd Pl Ps Cd Cl Cs Cb c s'.
  split; [|reflexivity].
  assert (Hsl : stmt <> list_).
  { intros ->. eapply (kind_clash P _ _ list_ Ks Kl). discriminate. }
  assert (Hsd : stmt <> decl).
  { intros ->. eapply (kind_clash P _ _ decl Ks Kd). discriminate. }
  assert (Hld : list_ <> decl).
  { intros ->. eapply (kind_clash P _ _ decl Kl Kd). discriminate. }
  pose proof (lsifSymbol_block P fuel block s Kb Cb) as Hblock.
  assert (Hstmt : lsifSymbol P (S (S fuel)) stmt s
                  = Some (newLocalSymbol stmt s)).
  { apply (lsifSymbol_under_local P (S fuel) stmt block s LsifSymbol.Empty s);
      auto; pose proof Ks as K; kinds_of K; reflexivity. }
  set (s1 := setLocal stmt (LsifSymbol.Local c) (setLocalCounter (S c) s)) in *.
  change (newLocalSymbol stmt s) with (LsifSymbol.Local c, s1) in Hstmt.
  assert (Hlist : lsifSymbol P (S (S (S fuel))) list_ s
                  = Some (newLocalSymbol list_ s1)).
  { apply (lsifSymbol_under_local P (S (S fuel)) list_ stmt s (LsifSymbol.Local c) s1);
      auto; pose proof Kl as K; kinds_of K; reflexivity. }
  set (s2 := setLocal list_ (LsifSymbol.Local (S c)) (setLocalCounter (S (S c)) s1)) in *.
  change (newLocalSymbol list_ s1) with (LsifSymbol.Local (S c), s2) in Hlist.
  change (Some (LsifSymbol.Local (S (S c)), s')) with (Some (newLocalSymbol decl s2)).
  apply (lsifSymbol_under_local P (S (S (S fuel))) decl list_ s (LsifSymbol.Local (S c)) s2);
    auto; pose proof Kd as K; kinds_of K; reflexivity.
Qed.

(** C5, witness: [x] in [function f() { { const x = 1 } }]. *)
Lemma block_variable_is_local_witness :
  exists s',
    lsifSymbol Fixture.blockProgram 4 7 (initial ∅)
    = Some (LsifSymbol.Local 2, s')
    /\ globalSymbolTable s' = ∅.
Proof.
  eexists.
  exact (block_variable_is_local Fixture.blockProgram 0 7 6 5 4 (initial ∅)
           eq_refl eq_refl eq_refl eq_refl eq_refl eq_refl eq_refl
           eq_refl eq_refl eq_refl eq_refl).
Defined.

(** C5, counterexample: in [function f() { { const x = 1 } }] the function
    resolves to the global identity [pkg/f().], and the declaration of [x]
    to a local identity, not to a global one under the function. *)
Lemma block_variable_counterexample :
  exists r s',
    fst <$> lsifSymbol Fixture.blockProgram 4 1 (initial ∅)
    = Some (LsifSymbol.Global [Fixture.pkg; Descriptor.methodDescriptor "f"])
    /\ lsifSymbol Fixture.blockProgram 4 7 (initial ∅) = Some (r, s')
    /\ LsifSymbol.isGlobal r = false
    /\ r <> LsifSymbol.Global [Fixture.pkg; Descriptor.methodDescriptor "f";
                               Descriptor.termDescriptor "x"].
Proof.
  eexists _, _. split; [vm_compute; reflexivity|].
  split; [vm_compute; reflexivity|]. split; [reflexivity | discriminate].
Qed.

(** C10.  A property assignment (plain or shorthand) without a table
    entry resolves, whatever its parent is, to a global identity: the
    chain of its source file's symbol followed by a Meta descriptor named
    by the property's text and the next value of the per-name counter.
    The result is stored in the global table.  When the file's symbol is
    empty the chain consists of the Meta descriptor alone; the result is
    never a local identity. *)
Theorem property_assignment_is_global (P : Program) (fuel : nat) (node : Node)
    (s : State) (text : string) :
  isPropertyAssignment P node || isShorthandPropertyAssignment P node = true ->
  isSourceFile P (getSourceFile P node) = true ->
  nameText P node = Some text ->
  fromCache s node = None ->
  let sourceFile := getSourceFile P node in
  let file :=
    match fromCache s sourceFile with
    | Some f => f
    | None =>
        match Packages.symbol P (fileName P sourceFile) with
        | Some package_ => package_
        | None => LsifSymbol.Empty
        end
    end in
  let n := default Counter.new (propertyCounters s !! text) in
  let meta := Descriptor.metaDescriptor (text ++ LsifSymbol.decimal n) in
  let r := LsifSymbol.Global (LsifSymbol.chain file ++ [meta]) in
  exists s',
    lsifSymbol P (2 + fuel) node s = Some (r, s')
    /\ globalSymbolTable s' !! node = Some r
    /\ LsifSymbol.isLocal r = false
    /\ LsifSymbol.isEmpty r = false
    /\ (file = LsifSymbol.Empty -> r = LsifSymbol.Global [meta]).
Proof.
  intros Hprop Hsf Hname Hc sourceFile file n meta r.
  assert (Hb : isBlock P node = false).
  { apply orb_prop in Hprop as [K|K]; kinds_of K; reflexivity. }
  assert (Hnsf : isSourceFile P node = false).
  { apply orb_prop in Hprop as [K|K]; kinds_of K; reflexivity. }
  assert (Hfile : exists s1,
             lsifSymbol P (1 + fuel) sourceFile (ensurePropertyCounter text s)
             = Some (file, s1)
             /\ propertyCounters s1 = propertyCounters (ensurePropertyCounter text s)).
  { cbn [Nat.add lsifSymbol]. rewrite fromCache_ensurePropertyCounter.
    subst file. destruct (fromCache s sourceFile) as [f|]; [eauto|].
    replace (isBlock P sourceFile) with false
      by (symmetry; pose proof Hsf as K; kinds_of K; reflexivity).
    fold sourceFile in Hsf. rewrite Hsf.
    destruct (Packages.symbol P (fileName P sourceFile)); eauto. }
  destruct Hfile as (s1 & Hrun & Hcounters).
  assert (Hnext : nextPropertyCounter text s1
                  = Some (n, setPropertyCounter text (S n) s1)).
  { unfold nextPropertyCounter. rewrite Hcounters. subst n.
    unfold ensurePropertyCounter.
    destruct (propertyCounters s !! text) as [c|] eqn:E; cbn.
    - now rewrite E.
    - now rewrite lookup_insert_eq. }
  exists (setGlobal node r (setPropertyCounter text (S n) s1)).
  split; [|split; [|split; [|split]]].
  - change (2 + fuel) with (S (1 + fuel)). cbn [lsifSymbol].
    rewrite Hc, Hb, Hnsf, Hprop, Hname. cbn [mbind option_bind].
    fold sourceFile. rewrite Hrun. cbn [mbind option_bind].
    rewrite Hnext. reflexivity.
  - cbn. apply lookup_insert_eq.
  - reflexivity.
  - reflexivity.
  - intros E. subst r. now rewrite E.
Qed.

(** C10, witness: the shorthand property of [const a = 1; const b = { a }]
    in a file without a package. *)
Lemma property_assignment_is_global_witness :
  exists s',
    lsifSymbol (Fixture.shorthandProgram None) 2 11 (initial ∅)
    = Some (LsifSymbol.Global [Descriptor.metaDescriptor "a0"], s')
    /\ globalSymbolTable s' !! 11
       = Some (LsifSymbol.Global [Descriptor.metaDescriptor "a0"])
    /\ LsifSymbol.isLocal (LsifSymbol.Global [Descriptor.metaDescriptor "a0"]) = false.
Proof.
  destruct (property_assignment_is_global (Fixture.shorthandProgram None) 0 11
              (initial ∅) "a")
    as (s' & Hrun & Htable & Hlocal & _); [reflexivity ..|].
  exists s'. split; [exact Hrun|]. split; [exact Htable | exact Hlocal].
Defined.

Section WellFormedChains.

Variable P : Program.
Hypothesis HN : WellNamed P.

Lemma nameText_not_empty n t : nameText P n = Some t -> t <> "".
Proof.
  unfold nameText. destruct (name P n) as [m|] eqn:E; [|discriminate].
  cbn. intros [= <-]. exact (named_text P HN n m E).
Qed.

Lemma truthyNameText_not_empty n t : truthyNameText P n = Some t -> t <> "".
Proof.
  unfold truthyNameText. destruct (name P n) as [m|]; [|discriminate].
  destruct (String.eqb_spec (getText P m) ""); [discriminate|].
  now intros [= <-].
Qed.

Lemma wellFormed_named n sfx : n <> "" -> Descriptor.wellFormed (Descriptor.Build n sfx None) = true.
Proof.
  intros H. unfold Descriptor.wellFormed. cbn.
  apply String.eqb_neq in H. now rewrite H.
Qed.

Lemma descriptor_wellFormed n d :
  descriptor P n = Some (Some d) -> Descriptor.wellFormed d = true.
Proof.
  unfold descriptor.
  repeat match goal with
  | |- context [if ?b then _ else _] => destruct b
  | |- context [nameText P n] =>
      let E := fresh "E" in
      destruct (nameText P n) eqn:E; cbn;
      [apply nameText_not_empty in E | discriminate]
  | |- context [truthyNameText P n] =>
      let E := fresh "E" in
      destruct (truthyNameText P n) eqn:E; cbn;
      [apply truthyNameText_not_empty in E | ]
  end;
  try discriminate; intros [= <-]; try (now apply wellFormed_named); reflexivity.
Qed.

Lemma wfState_fromCache s n r :
  wfState s -> fromCache s n = Some r -> wfIdentity r = true.
Proof.
  intros [Hg Hl]. unfold fromCache.
  destruct (globalSymbolTable s !! n) as [g|] eqn:E.
  - intros [= <-]. eauto.
  - eauto.
Qed.

Lemma wfState_setGlobal s n r :
  wfState s -> wfIdentity r = true -> wfState (setGlobal n r s).
Proof.
  intros [Hg Hl] Hr. split; cbn; [|exact Hl].
  intros m x Hx. apply lookup_insert_Some in Hx as [[_ <-]|[_ Hx]]; eauto.
Qed.

Lemma wfState_newLocalSymbol s n :
  wfState s -> wfState (snd (newLocalSymbol n s)).
Proof.
  intros [Hg Hl]. split; cbn; [exact Hg|].
  intros m x Hx. apply lookup_insert_Some in Hx as [[_ <-]|[_ Hx]]; eauto.
Qed.

Lemma wfState_ensurePropertyCounter k s :
  wfState s -> wfState (ensurePropertyCounter k s).
Proof. unfold ensurePropertyCounter. now destruct (propertyCounters s !! k). Qed.

Lemma wfState_nextPropertyCounter k s x s' :
  nextPropertyCounter k s = Some (x, s') -> wfState s -> wfState s'.
Proof.
  unfold nextPropertyCounter. destruct (propertyCounters s !! k); cbn; [|discriminate].
  now intros [= <- <-].
Qed.

Lemma wfIdentity_global owner d :
  wfIdentity owner = true -> Descriptor.wellFormed d = true ->
  wfIdentity (LsifSymbol.global owner d) = true.
Proof.
  unfold wfIdentity, LsifSymbol.global. cbn [LsifSymbol.chain].
  intros Ho Hd. rewrite forallb_app, Ho. cbn. now rewrite Hd.
Qed.

(** Every identity the resolver returns or stores is well-formed. *)
Lemma lsifSymbol_wf fuel : forall n s r s',
  lsifSymbol P fuel n s = Some (r, s') ->
  wfState s -> wfIdentity r = true /\ wfState s'.
Proof.
  induction fuel as [|fuel IH]; intros n s r s' H Hs; [discriminate|].
  cbn [lsifSymbol] in H.
  destruct (fromCache s n) as [c|] eqn:Hc.
  { injection H as <- <-. split; [eapply wfState_fromCache; eauto | exact Hs]. }
  destruct (isBlock P n).
  { injection H as <- <-. now split. }
  destruct (isSourceFile P n).
  { unfold Packages.symbol in H.
    destruct (packageOf P (fileName P n)) as [d|] eqn:Hd; injection H as <- <-.
    - assert (wfIdentity (LsifSymbol.Global [d]) = true) as Hw.
      { unfold wfIdentity. cbn. now rewrite (named_package P HN _ _ Hd). }
      split; [exact Hw | now apply wfState_setGlobal].
    - split; [reflexivity | now apply wfState_setGlobal]. }
  destruct (isPropertyAssignment P n || isShorthandPropertyAssignment P n).
  { destruct (nameText P n) as [text|] eqn:Hname; [|discriminate]. cbn in H.
    destruct (lsifSymbol P fuel (getSourceFile P n) (ensurePropertyCounter text s))
      as [[file s1]|] eqn:E1; [|discriminate]. cbn in H.
    destruct (nextPropertyCounter text s1) as [[k s2]|] eqn:E2; [|discriminate].
    cbn in H. injection H as <- <-.
    apply IH in E1 as [Hfile Hs1]; [|now apply wfState_ensurePropertyCounter].
    assert (wfIdentity
              (LsifSymbol.global file
                 (Descriptor.metaDescriptor (text ++ LsifSymbol.decimal k))) = true)
      as Hw.
    { apply wfIdentity_global; [exact Hfile|]. apply wellFormed_named.
      apply nameText_not_empty in Hname. destruct text; [congruence | discriminate]. }
    split; [exact Hw|]. apply wfState_setGlobal; [|exact Hw].
    eapply wfState_nextPropertyCounter; eauto. }
  destruct (parent P n) as [p|]; [|discriminate]. cbn in H.
  destruct (lsifSymbol P fuel p s) as [[owner s1]|] eqn:E1; [|discriminate].
  cbn in H. apply IH in E1 as [Hown Hs1]; [|exact Hs].
  destruct (LsifSymbol.isEmpty owner || LsifSymbol.isLocal owner).
  { injection H as <- <-. split; [reflexivity | now apply wfState_newLocalSymbol]. }
  destruct (isAnonymousContainerOfSymbols P n).
  { destruct (lsifSymbol P fuel p s1) as [[sym s2]|] eqn:E2; [|discriminate].
    cbn in H. injection H as <- <-.
    apply IH in E2 as [Hsym Hs2]; [|exact Hs1].
    split; [exact Hsym | now apply wfState_setGlobal]. }
  destruct (if isImportSpecifier P n then typeSymbolDeclarations P n else [])
    as [|d ds]; [|now apply IH in H].
  destruct (descriptor P n) as [[desc|]|] eqn:Hd; [| |discriminate];
    cbn in H; injection H as <- <-.
  - assert (wfIdentity (LsifSymbol.global owner desc) = true) as Hw
      by (apply wfIdentity_global; [exact Hown | now apply descriptor_wellFormed with n]).
    split; [exact Hw | now apply wfState_setGlobal].
  - split; [reflexivity | now apply wfState_newLocalSymbol].
Qed.

Lemma step_wf s s' : step P s s' -> wfState s -> wfState s'.
Proof.
  intros [fuel n r H| o -> | i ->] Hs.
  - now apply (lsifSymbol_wf _ _ _ _ _ H).
  - exact Hs.
  - exact Hs.
Qed.

Lemma steps_wf s s' : rtc (step P) s s' -> wfState s -> wfState s'.
Proof.
  intros Hsteps. induction Hsteps as [s|s s1 s2 Hstep _ IH]; [auto|].
  intros Hs. apply IH. eapply step_wf; eauto.
Qed.

End WellFormedChains.


Lemma shorthandProgram_wellNamed : WellNamed (Fixture.shorthandProgram (Some Fixture.pkg)).
Proof.
  split.
  - intros file d [= <-]. reflexivity.
  - intros n m. do 13 (destruct n as [|n]; [cbn; intros [= <-]; discriminate|]).
    cbn. destruct n; discriminate.
Defined.

(** C8, counterexample: the two declarations of [interface A {} interface
    A {}] are distinct nodes, both resolve to global identities, and both
    identities render to [pkg/A#]. *)
Lemma merged_declarations_counterexample :
  exists r1 s1 r3 s3,
    lsifSymbol Fixture.mergedProgram 3 1 (initial ∅) = Some (r1, s1)
    /\ lsifSymbol Fixture.mergedProgram 3 3 s1 = Some (r3, s3)
    /\ (1 : Node) <> 3
    /\ LsifSymbol.isGlobal r1 = true /\ LsifSymbol.isGlobal r3 = true
    /\ LsifSymbol.value r1 = LsifSymbol.value r3.
Proof.
  eexists _, _, _, _. split; [vm_compute; reflexivity|].
  split; [vm_compute; reflexivity|].
  split; [discriminate|]. repeat split.
Qed.


(** The arena index ranks the nodes of [function f() { { const x = 1 } }]. *)
Lemma blockProgram_ranked : Ranked Fixture.blockProgram (fun n => n).
Proof.
  split.
  - intros n p. do 10 (destruct n as [|n]; [cbn; intros [= <-]; lia|]).
    cbn. destruct n; discriminate.
  - intros n. do 10 (destruct n as [|n]; [cbn; discriminate|]).
    cbn. destruct n; discriminate.
  - intros n d ds _. discriminate.
Defined.

(** C7, witness: the declaration of [x] in
    [function f() { { const x = 1 } }], resolved, and resolved again after
    the whole file has been visited. *)
Lemma lsifSymbol_idempotent_witness :
  exists s1 s2,
    lsifSymbol Fixture.blockProgram 4 7 (initial ∅)
    = Some (LsifSymbol.Local 2, s1)
    /\ visit Fixture.blockProgram 8 8 0 s1 = Some s2
    /\ lsifSymbol Fixture.blockProgram 8 7 s2 = Some (LsifSymbol.Local 2, s2).
Proof.
  eexists _, _. split; [vm_compute; reflexivity|].
  split; [vm_compute; reflexivity|].
  eapply (lsifSymbol_idempotent Fixture.blockProgram (fun n => n) 4 8 7 (initial ∅)).
  - exact blockProgram_ranked.
  - vm_compute. reflexivity.
  - eapply (visit_steps _ 8 8 0). vm_compute. reflexivity.
  - lia.
Defined.

(* ===================================================================== *)
(** ** Further properties of the codec, the resolver, the emitter and the
    formatter *)
(* ===================================================================== *)

(** X1.  Rendered descriptors are self-delimiting: when two descriptors
    with a name and without disambiguator are rendered and each is followed
    by arbitrary further text, equal strings mean equal descriptors and
    equal remainders.  In particular [descriptorString] is injective on
    such descriptors, and no rendering is a proper prefix of another. *)
Theorem descriptorString_self_delimiting (d1 d2 : Descriptor.t) (r1 r2 : string) :
  Descriptor.wellFormed d1 = true ->
  Descriptor.wellFormed d2 = true ->
  Descriptor.descriptorString d1 ++ r1 = Descriptor.descriptorString d2 ++ r2 ->
  d1 = d2 /\ r1 = r2.
Proof.
  intros H1 H2 E.
  pose proof (readDescriptor_render d1 r1 H1) as R1.
  pose proof (readDescriptor_render d2 r2 H2) as R2.
  rewrite E, R2 in R1. now injection R1 as -> ->.
Qed.

(** X1, witness: a Term [f] followed by [g.] against a Term [f] followed by
    the same text. *)
Lemma descriptorString_self_delimiting_witness :
  Descriptor.termDescriptor "f" = Descriptor.termDescriptor "f" /\ "g." = "g.".
Proof.
  apply (descriptorString_self_delimiting
           (Descriptor.termDescriptor "f") (Descriptor.termDescriptor "f") "g." "g.");
    reflexivity.
Defined.

Lemma append_empty_r (s : string) : s ++ "" = s.
Proof. induction s as [|c s IH]; norm_append; [reflexivity | now f_equal]. Qed.

Lemma escapedName_empty (desc : Descriptor.t) :
  Descriptor.escapedName desc = "" <-> Descriptor.name desc = "".
Proof.
  unfold Descriptor.escapedName.
  destruct (String.eqb_spec (Descriptor.name desc) "") as [E|E]; [tauto|].
  destruct (Descriptor.isSimpleIdentifier (Descriptor.name desc)); [tauto|].
  split; [discriminate | contradiction].
Qed.

(** X2.  Escaping loses nothing: two descriptors whose names differ have
    different escaped names, whatever the names are (empty, simple, or in
    need of backticks). *)
Theorem escapedName_injective (d1 d2 : Descriptor.t) :
  Descriptor.escapedName d1 = Descriptor.escapedName d2 ->
  Descriptor.name d1 = Descriptor.name d2.
Proof.
  intros E.
  destruct (String.eqb_spec (Descriptor.name d1) "") as [E1|E1].
  - rewrite E1. symmetry. apply escapedName_empty. rewrite <- E.
    now apply escapedName_empty.
  - destruct (String.eqb_spec (Descriptor.name d2) "") as [E2|E2].
    + apply escapedName_empty in E2. rewrite <- E in E2.
      now apply escapedName_empty in E2.
    + pose proof (readName_escaped d1 "" E1 eq_refl) as R1.
      pose proof (readName_escaped d2 "" E2 eq_refl) as R2.
      rewrite E, R2 in R1. now injection R1.
Qed.

(** X2, witness: a name that needs backticks. *)
Lemma escapedName_injective_witness :
  Descriptor.name (Descriptor.termDescriptor "a`b")
  = Descriptor.name (Descriptor.termDescriptor "a`b").
Proof.
  apply (escapedName_injective (Descriptor.termDescriptor "a`b")
           (Descriptor.termDescriptor "a`b")).
  reflexivity.
Defined.

Section ResolverFrames.

Variable P : Program.

Lemma lsifSymbol_document_frame fuel : forall n s r s',
  lsifSymbol P fuel n s = Some (r, s') ->
  occurrences s' = occurrences s /\ symbols s' = symbols s.
Proof.
  induction fuel as [|fuel IH]; intros n s r s' H; [discriminate|].
  cbn [lsifSymbol] in H.
  destruct (fromCache s n); [now injection H as <- <-|].
  destruct (isBlock P n); [now injection H as <- <-|].
  destruct (isSourceFile P n).
  { destruct (Packages.symbol P (fileName P n)); now injection H as <- <-. }
  destruct (isPropertyAssignment P n || isShorthandPropertyAssignment P n).
  { destruct (nameText P n) as [text|]; [|discriminate]. cbn in H.
    destruct (lsifSymbol P fuel (getSourceFile P n) (ensurePropertyCounter text s))
      as [[file s1]|] eqn:E1; [|discriminate]. cbn in H.
    unfold nextPropertyCounter in H.
    destruct (propertyCounters s1 !! text) as [c|]; [|discriminate].
    cbn in H. injection H as <- <-. cbn.
    apply IH in E1 as [-> ->]. unfold ensurePropertyCounter.
    now destruct (propertyCounters s !! text). }
  destruct (parent P n) as [p|]; [|discriminate]. cbn in H.
  destruct (lsifSymbol P fuel p s) as [[owner s1]|] eqn:E1; [|discriminate].
  cbn in H. apply IH in E1 as [E1o E1s].
  destruct (LsifSymbol.isEmpty owner || LsifSymbol.isLocal owner);
    [now injection H as <- <-|].
  destruct (isAnonymousContainerOfSymbols P n).
  { destruct (lsifSymbol P fuel p s1) as [[sym s2]|] eqn:E2; [|discriminate].
    cbn in H. injection H as <- <-. apply IH in E2 as [E2o E2s]. cbn.
    split; congruence. }
  destruct (if isImportSpecifier P n then typeSymbolDeclarations P n else [])
    as [|d ds].
  - destruct (descriptor P n) as [[desc|]|]; [| |discriminate];
      cbn in H; now injection H as <- <-.
  - apply IH in H as [Ho Hs]. split; congruence.
Qed.

(** Once a node has an entry in one of the tables it keeps one. *)
Lemma lsifSymbol_keeps_entries fuel : forall m s r s' n,
  lsifSymbol P fuel m s = Some (r, s') ->
  is_Some (fromCache s n) -> is_Some (fromCache s' n).
Proof.
  assert (Hg : forall m v s n,
             is_Some (fromCache s n) -> is_Some (fromCache (setGlobal m v s) n)).
  { intros m v s n Hn. destruct (decide (n = m)) as [->|Hne].
    - rewrite fromCache_setGlobal_eq. eauto.
    - now rewrite fromCache_setGlobal_ne. }
  assert (Hl : forall m s n,
             is_Some (fromCache s n) ->
             is_Some (fromCache (snd (newLocalSymbol m s)) n)).
  { intros m s n Hn. cbn. unfold fromCache in *. cbn.
    destruct (globalSymbolTable s !! n); [eauto|].
    destruct (decide (n = m)) as [->|Hne].
    - rewrite lookup_insert_eq. eauto.
    - now rewrite lookup_insert_ne. }
  induction fuel as [|fuel IH]; intros m s r s' n H Hn; [discriminate|].
  cbn [lsifSymbol] in H.
  destruct (fromCache s m); [now injection H as <- <-|].
  destruct (isBlock P m); [now injection H as <- <-|].
  destruct (isSourceFile P m).
  { destruct (Packages.symbol P (fileName P m)); injection H as <- <-; now apply Hg. }
  destruct (isPropertyAssignment P m || isShorthandPropertyAssignment P m).
  { destruct (nameText P m) as [text|]; [|discriminate]. cbn in H.
    destruct (lsifSymbol P fuel (getSourceFile P m) (ensurePropertyCounter text s))
      as [[file s1]|] eqn:E1; [|discriminate]. cbn in H.
    destruct (nextPropertyCounter text s1) as [[k s2]|] eqn:E2; [|discriminate].
    cbn in H. injection H as <- <-. apply Hg.
    rewrite (fromCache_nextPropertyCounter _ _ _ _ n E2).
    apply (IH _ _ _ _ n E1). now rewrite fromCache_ensurePropertyCounter. }
  destruct (parent P m) as [p|]; [|discriminate]. cbn in H.
  destruct (lsifSymbol P fuel p s) as [[owner s1]|] eqn:E1; [|discriminate].
  cbn in H. pose proof (IH _ _ _ _ n E1 Hn) as Hn1.
  destruct (LsifSymbol.isEmpty owner || LsifSymbol.isLocal owner).
  { injection H as <- <-. now apply Hl. }
  destruct (isAnonymousContainerOfSymbols P m).
  { destruct (lsifSymbol P fuel p s1) as [[sym s2]|] eqn:E2; [|discriminate].
    cbn in H. injection H as <- <-. apply Hg. exact (IH _ _ _ _ n E2 Hn1). }
  destruct (if isImportSpecifier P m then typeSymbolDeclarations P m else [])
    as [|d ds]; [|exact (IH _ _ _ _ n H Hn1)].
  destruct (descriptor P m) as [[desc|]|]; [| |discriminate];
    cbn in H; injection H as <- <-; [now apply Hg | now apply Hl].
Qed.

Lemma step_keeps_entries s s' n :
  step P s s' -> is_Some (fromCache s n) -> is_Some (fromCache s' n).
Proof.
  intros [fuel m r H| o -> | i ->] Hn; [|exact Hn|exact Hn].
  exact (lsifSymbol_keeps_entries _ _ _ _ _ n H Hn).
Qed.

End ResolverFrames.

(** X3.  The resolver never writes to the document: a call of [lsifSymbol]
    leaves the occurrence list and the symbol-information list as they
    were, whatever tables and counters it updates. *)
Theorem lsifSymbol_leaves_document (P : Program) (fuel : nat) (node : Node)
    (s s' : State) (r : LsifSymbol.t) :
  lsifSymbol P fuel node s = Some (r, s') ->
  occurrences s' = occurrences s /\ symbols s' = symbols s.
Proof. apply lsifSymbol_document_frame. Qed.

(** X3, witness: resolving the shorthand property of
    [const a = 1; const b = { a }] on a fresh indexer. *)
Lemma lsifSymbol_leaves_document_witness :
  exists r s',
    lsifSymbol (Fixture.shorthandProgram None) 8 11 (initial ∅) = Some (r, s')
    /\ occurrences s' = [] /\ symbols s' = [].
Proof.
  eexists _, _. split; [vm_compute; reflexivity|].
  eapply (lsifSymbol_leaves_document (Fixture.shorthandProgram None) 8 11 (initial ∅)).
  vm_compute. reflexivity.
Defined.

(** X4.  Table entries are permanent: an identity stored for a node in the
    global or the local table is what the tables answer for that node at
    every later point of the run; no entry is removed or replaced by a
    different identity. *)
Theorem cache_entries_are_permanent (P : Program) (rank : Node -> nat)
    (s s' : State) (node : Node) (r : LsifSymbol.t) :
  Ranked P rank ->
  rtc (step P) s s' ->
  fromCache s node = Some r ->
  fromCache s' node = Some r.
Proof.
  intros HR Hsteps Hr.
  assert (settled P s' node r) as Hset.
  { apply (steps_settled P rank HR s s' Hsteps). now apply settled_cache. }
  assert (is_Some (fromCache s' node)) as [x Hx].
  { clear Hset. induction Hsteps as [s|s s1 s2 Hstep _ IH]; [eauto|].
    apply IH. destruct (step_keeps_entries P s s1 node Hstep) as [y Hy]; [eauto|].
    (* the entry at s1 is the one of s *)
    assert (settled P s1 node r) as H1
      by (eapply step_settled; eauto; now apply settled_cache).
    rewrite Hy. f_equal.
    exact (settled_deterministic P s1 node y r (settled_cache P s1 node y Hy) H1). }
  rewrite Hx. f_equal.
  exact (settled_deterministic P s' node x r (settled_cache P s' node x Hx) Hset).
Qed.

Section LocalIndices.

Variable P : Program.

Lemma locals_same s s' :
  localSymbolTable s' = localSymbolTable s ->
  localCounter s' = localCounter s ->
  localsFresh s /\ localsDistinct s -> localsFresh s' /\ localsDistinct s'.
Proof.
  unfold localsFresh, localsDistinct. intros -> ->. auto.
Qed.

Lemma locals_newLocalSymbol m s :
  localsFresh s /\ localsDistinct s ->
  localsFresh (snd (newLocalSymbol m s))
  /\ localsDistinct (snd (newLocalSymbol m s)).
Proof.
  intros [Hf Hd]. split.
  - intros n r Hn. cbn in Hn.
    apply lookup_insert_Some in Hn as [[_ <-]|[_ Hn]].
    + exists (localCounter s). cbn. split; [reflexivity | lia].
    + destruct (Hf n r Hn) as (k & -> & Hk). exists k. cbn. split; [reflexivity | lia].
  - intros n1 n2 k H1 H2. cbn in H1, H2.
    apply lookup_insert_Some in H1 as [[E1 [= <-]]|[N1 H1]];
      apply lookup_insert_Some in H2 as [[E2 E2']|[N2 H2]].
    + congruence.
    + destruct (Hf n2 _ H2) as (k' & [= <-] & Hk). lia.
    + injection E2' as <-. destruct (Hf n1 _ H1) as (k' & [= <-] & Hk). lia.
    + eauto.
Qed.

Lemma lsifSymbol_locals fuel : forall n s r s',
  lsifSymbol P fuel n s = Some (r, s') ->
  localsFresh s /\ localsDistinct s -> localsFresh s' /\ localsDistinct s'.
Proof.
  induction fuel as [|fuel IH]; intros n s r s' H Hs; [discriminate|].
  cbn [lsifSymbol] in H.
  destruct (fromCache s n); [now injection H as <- <-|].
  destruct (isBlock P n); [now injection H as <- <-|].
  destruct (isSourceFile P n).
  { destruct (Packages.symbol P (fileName P n)); now injection H as <- <-. }
  destruct (isPropertyAssignment P n || isShorthandPropertyAssignment P n).
  { destruct (nameText P n) as [text|]; [|discriminate]. cbn in H.
    destruct (lsifSymbol P fuel (getSourceFile P n) (ensurePropertyCounter text s))
      as [[file s1]|] eqn:E1; [|discriminate]. cbn in H.
    unfold nextPropertyCounter in H.
    destruct (propertyCounters s1 !! text) as [c|]; [|discriminate].
    cbn in H. injection H as <- <-.
    apply IH in E1.
    - now apply (locals_same s1).
    - apply (locals_same s); [| |exact Hs];
        unfold ensurePropertyCounter; now destruct (propertyCounters s !! text). }
  destruct (parent P n) as [p|]; [|discriminate]. cbn in H.
  destruct (lsifSymbol P fuel p s) as [[owner s1]|] eqn:E1; [|discriminate].
  cbn in H. apply IH in E1; [|exact Hs].
  destruct (LsifSymbol.isEmpty owner || LsifSymbol.isLocal owner).
  { injection H as <- <-. now apply locals_newLocalSymbol. }
  destruct (isAnonymousContainerOfSymbols P n).
  { destruct (lsifSymbol P fuel p s1) as [[sym s2]|] eqn:E2; [|discriminate].
    cbn in H. injection H as <- <-. apply IH in E2; [|exact E1].
    now apply (locals_same s2). }
  destruct (if isImportSpecifier P n then typeSymbolDeclarations P n else [])
    as [|d ds]; [|now apply IH in H].
  destruct (descriptor P n) as [[desc|]|]; [| |discriminate];
    cbn in H; injection H as <- <-.
  - now apply (locals_same s1).
  - now apply locals_newLocalSymbol.
Qed.

Lemma steps_locals s s' :
  rtc (step P) s s' ->
  localsFresh s /\ localsDistinct s -> localsFresh s' /\ localsDistinct s'.
Proof.
  intros Hsteps. induction Hsteps as [s|s s1 s2 Hstep _ IH]; [auto|].
  intros Hs. apply IH. destruct Hstep as [fuel n r H| o -> | i ->].
  - exact (lsifSymbol_locals _ _ _ _ _ H Hs).
  - now apply (locals_same s).
  - now apply (locals_same s).
Qed.

End LocalIndices.

(** X5.  Local indices are never reused within a file: in the state left by
    indexing a file, every entry of the local table is a local identity
    whose index the counter has passed, and two nodes with the same index
    are the same node. *)
Theorem index_local_indices_distinct (P : Program) (fuel depth : nat)
    (sourceFile : Node) (globals : gmap Node LsifSymbol.t) (s : State) :
  index P fuel depth sourceFile globals = Some s ->
  (forall n r, localSymbolTable s !! n = Some r ->
     exists k, r = LsifSymbol.Local k /\ k < localCounter s)
  /\ (forall n1 n2 k,
        localSymbolTable s !! n1 = Some (LsifSymbol.Local k) ->
        localSymbolTable s !! n2 = Some (LsifSymbol.Local k) -> n1 = n2).
Proof.
  intros H. apply (steps_locals P (initial globals) s).
  - now apply (visit_steps P fuel depth sourceFile).
  - split; intros n; intros; cbn in *; now rewrite lookup_empty in *.
Qed.

(** X5, witness: [const a = 1; const b = { a }] in a file without package,
    where the statements, the lists and the declarations are all local. *)
Lemma index_local_indices_distinct_witness :
  exists s,
    index (Fixture.shorthandProgram None) 8 8 0 ∅ = Some s
    /\ localCounter s = 6
    /\ (forall n1 n2 k,
          localSymbolTable s !! n1 = Some (LsifSymbol.Local k) ->
          localSymbolTable s !! n2 = Some (LsifSymbol.Local k) -> n1 = n2).
Proof.
  eexists. split; [vm_compute; reflexivity|]. split; [reflexivity|].
  eapply (index_local_indices_distinct (Fixture.shorthandProgram None) 8 8 0 ∅).
  vm_compute. reflexivity.
Defined.

Section SharedTable.

Variable P : Program.
Variable rank : Node -> nat.
Hypothesis HR : Ranked P rank.

(** A second call on a node returns what the first returned. *)
Lemma lsifSymbol_again fuel fuel' n s r s1 r' s2 :
  lsifSymbol P fuel n s = Some (r, s1) ->
  lsifSymbol P fuel' n s1 = Some (r', s2) ->
  r' = r.
Proof.
  intros H1 H2.
  destruct (lsifSymbol_post P rank HR _ _ _ _ _ H1) as (Hset & _ & _).
  destruct (lsifSymbol_post P rank HR _ _ _ _ _ H2) as (Hset' & Hpres & _).
  exact (settled_deterministic P s2 n r' r Hset' (Hpres _ _ Hset)).
Qed.

Lemma globalsShared_setGlobal m v s :
  LsifSymbol.isLocal v = false -> globalsShared s -> globalsShared (setGlobal m v s).
Proof.
  intros Hv Hs n r Hn. cbn in Hn.
  apply lookup_insert_Some in Hn as [[_ <-]|[_ Hn]]; eauto.
Qed.

Lemma globalsShared_same s s' :
  globalSymbolTable s' = globalSymbolTable s -> globalsShared s -> globalsShared s'.
Proof. unfold globalsShared. now intros ->. Qed.

Lemma lsifSymbol_globalsShared fuel : forall n s r s',
  lsifSymbol P fuel n s = Some (r, s') -> globalsShared s -> globalsShared s'.
Proof.
  induction fuel as [|fuel IH]; intros n s r s' H Hs; [discriminate|].
  cbn [lsifSymbol] in H.
  destruct (fromCache s n); [now injection H as <- <-|].
  destruct (isBlock P n); [now injection H as <- <-|].
  destruct (isSourceFile P n).
  { unfold Packages.symbol in H.
    destruct (packageOf P (fileName P n)); injection H as <- <-;
      now apply globalsShared_setGlobal. }
  destruct (isPropertyAssignment P n || isShorthandPropertyAssignment P n).
  { destruct (nameText P n) as [text|]; [|discriminate]. cbn in H.
    destruct (lsifSymbol P fuel (getSourceFile P n) (ensurePropertyCounter text s))
      as [[file s1]|] eqn:E1; [|discriminate]. cbn in H.
    unfold nextPropertyCounter in H.
    destruct (propertyCounters s1 !! text) as [c|]; [|discriminate].
    cbn in H. injection H as <- <-.
    apply globalsShared_setGlobal; [reflexivity|].
    apply (globalsShared_same s1); [reflexivity|].
    apply (IH _ _ _ _ E1). apply (globalsShared_same s); [|exact Hs].
    unfold ensurePropertyCounter. now destruct (propertyCounters s !! text). }
  destruct (parent P n) as [p|]; [|discriminate]. cbn in H.
  destruct (lsifSymbol P fuel p s) as [[owner s1]|] eqn:E1; [|discriminate].
  cbn in H. pose proof (IH _ _ _ _ E1 Hs) as Hs1.
  destruct (LsifSymbol.isEmpty owner || LsifSymbol.isLocal owner) eqn:Hflag.
  { injection H as <- <-. now apply (globalsShared_same s1). }
  apply orb_false_elim in Hflag as [_ Hlocal].
  destruct (isAnonymousContainerOfSymbols P n).
  { destruct (lsifSymbol P fuel p s1) as [[sym s2]|] eqn:E2; [|discriminate].
    cbn in H. injection H as <- <-.
    rewrite (lsifSymbol_again _ _ _ _ _ _ _ _ E1 E2).
    apply globalsShared_setGlobal; [exact Hlocal|]. exact (IH _ _ _ _ E2 Hs1). }
  destruct (if isImportSpecifier P n then typeSymbolDeclarations P n else [])
    as [|d ds]; [|exact (IH _ _ _ _ H Hs1)].
  destruct (descriptor P n) as [[desc|]|]; [| |discriminate];
    cbn in H; injection H as <- <-.
  - now apply globalsShared_setGlobal.
  - now apply (globalsShared_same s1).
Qed.

End SharedTable.

(** X6.  File-scoped identities do not leak into the table shared by all
    files: if the global table holds no local identity when a file's
    traversal starts, it holds none at any later point of the run; local
    identities are stored in the file's own table only. *)
Theorem global_table_holds_no_local (P : Program) (rank : Node -> nat)
    (s s' : State) (node : Node) (r : LsifSymbol.t) :
  Ranked P rank ->
  (forall n x, globalSymbolTable s !! n = Some x -> LsifSymbol.isLocal x = false) ->
  rtc (step P) s s' ->
  globalSymbolTable s' !! node = Some r ->
  LsifSymbol.isLocal r = false.
Proof.
  intros HR Hs Hsteps. revert node r.
  change (globalsShared s') . induction Hsteps as [s|s s1 s2 Hstep _ IH]; [exact Hs|].
  apply IH. destruct Hstep as [fuel n r H| o -> | i ->]; [|exact Hs|exact Hs].
  exact (lsifSymbol_globalsShared P rank HR _ _ _ _ _ H Hs).
Qed.

Lemma to_uint_not_nil n : Nat.to_uint n <> Decimal.Nil.
Proof.
  rewrite <- (DecimalNat.Unsigned.of_to n) at 1.
  rewrite DecimalNat.Unsigned.to_of. unfold Decimal.unorm.
  destruct (Decimal.nzhead (Nat.to_uint n)); discriminate.
Qed.

Lemma decimal_injective n n' :
  LsifSymbol.decimal n = LsifSymbol.decimal n' -> n = n'.
Proof.
  unfold LsifSymbol.decimal. intros E.
  apply DecimalNat.Unsigned.to_uint_inj.
  pose proof (NilZero.usu _ (to_uint_not_nil n)) as U.
  pose proof (NilZero.usu _ (to_uint_not_nil n')) as U'.
  rewrite E in U. rewrite U' in U. now injection U.
Qed.

Lemma append_injective (a b c : string) : a ++ b = a ++ c -> b = c.
Proof.
  induction a as [|x a IH]; norm_append; [auto|]. intros [= E]. auto.
Qed.

Section PropertyCounters.

Variable P : Program.

(** A property assignment without a table entry: the identity it gets and
    what the call leaves in the tables and the counters. *)
Lemma lsifSymbol_property fuel node s text :
  isPropertyAssignment P node || isShorthandPropertyAssignment P node = true ->
  isSourceFile P (getSourceFile P node) = true ->
  nameText P node = Some text ->
  fromCache s node = None ->
  let sourceFile := getSourceFile P node in
  let file :=
    match fromCache s sourceFile with
    | Some f => f
    | None =>
        match Packages.symbol P (fileName P sourceFile) with
        | Some package_ => package_
        | None => LsifSymbol.Empty
        end
    end in
  let n := default Counter.new (propertyCounters s !! text) in
  let r :=
    LsifSymbol.Global
      (LsifSymbol.chain file
       ++ [Descriptor.metaDescriptor (text ++ LsifSymbol.decimal n)]) in
  exists s',
    lsifSymbol P (2 + fuel) node s = Some (r, s')
    /\ fromCache s' sourceFile = Some file
    /\ propertyCounters s' !! text = Some (S n)
    /\ (forall m, m <> node -> m <> sourceFile -> fromCache s' m = fromCache s m).
Proof.
  intros Hprop Hsf Hname Hc sourceFile file n r.
  assert (Hb : isBlock P node = false).
  { apply orb_prop in Hprop as [K|K]; kinds_of K; reflexivity. }
  assert (Hnsf : isSourceFile P node = false).
  { apply orb_prop in Hprop as [K|K]; kinds_of K; reflexivity. }
  assert (Hne : sourceFile <> node).
  { intros E. fold sourceFile in Hsf. rewrite E in Hsf. congruence. }
  assert (Hfile : exists s1,
             lsifSymbol P (1 + fuel) sourceFile (ensurePropertyCounter text s)
             = Some (file, s1)
             /\ propertyCounters s1 = propertyCounters (ensurePropertyCounter text s)
             /\ fromCache s1 sourceFile = Some file
             /\ (forall m, m <> sourceFile -> fromCache s1 m = fromCache s m)).
  { cbn [Nat.add lsifSymbol]. rewrite fromCache_ensurePropertyCounter.
    subst file. destruct (fromCache s sourceFile) as [f|] eqn:Ef.
    - eexists. split; [reflexivity|]. split; [reflexivity|].
      split; [now rewrite fromCache_ensurePropertyCounter|].
      intros m _. apply fromCache_ensurePropertyCounter.
    - replace (isBlock P sourceFile) with false
        by (symmetry; pose proof Hsf as K; kinds_of K; reflexivity).
      fold sourceFile in Hsf. rewrite Hsf.
      destruct (Packages.symbol P (fileName P sourceFile)); eexists;
        (split; [reflexivity|]); (split; [reflexivity|]);
        (split; [apply fromCache_setGlobal_eq|]);
        intros m Hm; rewrite fromCache_setGlobal_ne by exact Hm;
        apply fromCache_ensurePropertyCounter. }
  destruct Hfile as (s1 & Hrun & Hcounters & Hsrc & Hother).
  assert (Hnext : nextPropertyCounter text s1
                  = Some (n, setPropertyCounter text (S n) s1)).
  { unfold nextPropertyCounter. rewrite Hcounters. subst n.
    unfold ensurePropertyCounter.
    destruct (propertyCounters s !! text) as [c|] eqn:E; cbn.
    - now rewrite E.
    - now rewrite lookup_insert_eq. }
  exists (setGlobal node r (setPropertyCounter text (S n) s1)).
  split; [|split; [|split]].
  - change (2 + fuel) with (S (1 + fuel)). cbn [lsifSymbol].
    rewrite Hc, Hb, Hnsf, Hprop, Hname. cbn [mbind option_bind].
    fold sourceFile. rewrite Hrun. cbn [mbind option_bind].
    rewrite Hnext. reflexivity.
  - rewrite fromCache_setGlobal_ne by exact Hne. exact Hsrc.
  - cbn. apply lookup_insert_eq.
  - intros m Hm Hm'. rewrite fromCache_setGlobal_ne by exact Hm.
    rewrite fromCache_setPropertyCounter. now apply Hother.
Qed.

End PropertyCounters.

(** X7.  Property assignments of one name are told apart by the per-name
    counter: when two distinct property assignments of the same source file
    have the same name text and are resolved one after the other, they get
    Meta descriptors named by the text followed by consecutive counter
    values, under the same file symbol, and the two identities differ. *)
Theorem same_name_properties_differ (P : Program) (fuel : nat)
    (node1 node2 : Node) (s : State) (text : string) :
  isPropertyAssignment P node1 || isShorthandPropertyAssignment P node1 = true ->
  isPropertyAssignment P node2 || isShorthandPropertyAssignment P node2 = true ->
  node1 <> node2 ->
  getSourceFile P node2 = getSourceFile P node1 ->
  isSourceFile P (getSourceFile P node1) = true ->
  nameText P node1 = Some text ->
  nameText P node2 = Some text ->
  fromCache s node1 = None ->
  fromCache s node2 = None ->
  exists file k s1 s2,
    let r1 :=
      LsifSymbol.Global
        (LsifSymbol.chain file
         ++ [Descriptor.metaDescriptor (text ++ LsifSymbol.decimal k)]) in
    let r2 :=
      LsifSymbol.Global
        (LsifSymbol.chain file
         ++ [Descriptor.metaDescriptor (text ++ LsifSymbol.decimal (S k))]) in
    lsifSymbol P (2 + fuel) node1 s = Some (r1, s1)
    /\ lsifSymbol P (2 + fuel) node2 s1 = Some (r2, s2)
    /\ r1 <> r2.
Proof.
  intros K1 K2 Hne Hsame Hsf N1 N2 C1 C2.
  destruct (lsifSymbol_property P fuel node1 s text K1 Hsf N1 C1)
    as (s1 & Hrun1 & Hsrc1 & Hcount1 & Hother1).
  assert (Hn2sf : node2 <> getSourceFile P node1).
  { intros E. rewrite <- E in Hsf.
    apply orb_prop in K2 as [K|K];
      (eapply (kind_clash P _ _ node2 K Hsf); discriminate). }
  assert (C2' : fromCache s1 node2 = None).
  { rewrite Hother1; [exact C2 | congruence | exact Hn2sf]. }
  assert (Hsf2 : isSourceFile P (getSourceFile P node2) = true) by now rewrite Hsame.
  destruct (lsifSymbol_property P fuel node2 s1 text K2 Hsf2 N2 C2')
    as (s2 & Hrun2 & _).
  rewrite Hsame, Hsrc1 in Hrun2. unfold Counter.t in Hrun2, Hcount1.
  rewrite Hcount1 in Hrun2. cbn [default] in Hrun2.
  eexists _, _, s1, s2. cbv zeta.
  split; [exact Hrun1|]. split; [exact Hrun2|].
  intros [= E]. apply app_inv_head in E. injection E as E.
  apply append_injective, decimal_injective in E. lia.
Qed.

(** X7, witness: the two [a] properties of [const x = [{ a: 1 }, { a: 2 }]]. *)
Lemma same_name_properties_differ_witness :
  exists file k s1 s2,
    lsifSymbol Fixture.propertiesProgram 2 7 (initial ∅)
    = Some (LsifSymbol.Global
              (LsifSymbol.chain file
               ++ [Descriptor.metaDescriptor ("a" ++ LsifSymbol.decimal k)]), s1)
    /\ lsifSymbol Fixture.propertiesProgram 2 11 s1
       = Some (LsifSymbol.Global
                 (LsifSymbol.chain file
                  ++ [Descriptor.metaDescriptor ("a" ++ LsifSymbol.decimal (S k))]),
               s2).
Proof.
  destruct (same_name_properties_differ Fixture.propertiesProgram 0 7 11
              (initial ∅) "a")
    as (file & k & s1 & s2 & H1 & H2 & _);
    [reflexivity | reflexivity | discriminate | reflexivity ..|].
  exists file, k, s1, s2. split; [exact H1 | exact H2].
Defined.

Lemma anonymous_kinds P n :
  isAnonymousContainerOfSymbols P n = true ->
  isBlock P n = false /\ isSourceFile P n = false
  /\ isPropertyAssignment P n || isShorthandPropertyAssignment P n = false.
Proof.
  unfold isAnonymousContainerOfSymbols. intros H.
  repeat (apply orb_prop in H as [H|H]); kinds_of H; repeat split.
Qed.

(** X8.  A transparent container has its owner's identity: when the
    resolver gives an import statement, import clause, named-import list,
    variable statement, declaration list or module body an identity that is
    not local, that identity is stored for the container in the global
    table and is the identity the resolver gives to the container's
    parent. *)
Theorem container_inherits_owner (P : Program) (rank : Node -> nat)
    (fuel : nat) (node p : Node) (s s' : State) (r : LsifSymbol.t) :
  Ranked P rank ->
  isAnonymousContainerOfSymbols P node = true ->
  fromCache s node = None ->
  parent P node = Some p ->
  lsifSymbol P fuel node s = Some (r, s') ->
  LsifSymbol.isLocal r = false ->
  globalSymbolTable s' !! node = Some r
  /\ forall fuel', rank p < fuel' -> lsifSymbol P fuel' p s' = Some (r, s').
Proof.
  intros HR Hanon Hc Hp H Hlocal.
  destruct (anonymous_kinds P node Hanon) as (Hb & Hsf & Hprop).
  pose proof (rank_parent P rank HR node p Hp) as Hrk.
  destruct fuel as [|fuel]; [discriminate|]. cbn [lsifSymbol] in H.
  rewrite Hc, Hb, Hsf, Hprop, Hp in H. cbn in H.
  destruct (lsifSymbol P fuel p s) as [[owner s1]|] eqn:E1; [|discriminate].
  cbn in H.
  destruct (LsifSymbol.isEmpty owner || LsifSymbol.isLocal owner).
  { injection H as <- <-. discriminate. }
  rewrite Hanon in H.
  destruct (lsifSymbol P fuel p s1) as [[sym s2]|] eqn:E2; [|discriminate].
  cbn in H. injection H as <- <-.
  split; [cbn; apply lookup_insert_eq|].
  destruct (lsifSymbol_post P rank HR _ _ _ _ _ E1) as (_ & _ & F1).
  destruct (lsifSymbol_post P rank HR _ _ _ _ _ E2) as (Hset & _ & F2).
  assert (Hc2 : fromCache s2 node = None) by (rewrite F2, F1 by lia; exact Hc).
  intros fuel' Hfuel. apply (settled_run P rank HR); [|exact Hfuel].
  apply (settled_extend P s2 _ node); [| |exact Hset].
  - apply unsettled; auto. intros Hi.
    now rewrite (anonymous_not_import P node Hanon) in Hi.
  - intros n Hn. now apply fromCache_setGlobal_ne.
Qed.

(** X8, witness: the variable statement of [let v; v] and its parent, the
    source file. *)
Lemma container_inherits_owner_witness :
  exists s',
    lsifSymbol Fixture.invertedProgram 2 1 (initial ∅)
    = Some (LsifSymbol.Global [Fixture.pkg], s')
    /\ globalSymbolTable s' !! 1 = Some (LsifSymbol.Global [Fixture.pkg])
    /\ lsifSymbol Fixture.invertedProgram 1 0 s'
       = Some (LsifSymbol.Global [Fixture.pkg], s').
Proof.
  eexists. split; [vm_compute; reflexivity|].
  assert (Ranked Fixture.invertedProgram (fun n => n)) as HR.
  { split.
    - intros n p. do 7 (destruct n as [|n]; [cbn; intros [= <-]; lia|]).
      cbn. destruct n; discriminate.
    - intros n. do 7 (destruct n as [|n]; [cbn; discriminate|]).
      cbn. destruct n; discriminate.
    - intros n d ds _. discriminate. }
  match goal with
  | |- globalSymbolTable ?s' !! _ = _ /\ _ =>
      destruct (container_inherits_owner Fixture.invertedProgram (fun n => n) 2 1 0
                  (initial ∅) s' (LsifSymbol.Global [Fixture.pkg]) HR)
        as [Htable Hparent];
        [reflexivity | reflexivity | reflexivity | vm_compute; reflexivity
        | reflexivity |]
  end.
  split; [exact Htable|]. apply Hparent. lia.
Defined.

(** The arena index ranks the nodes of the two files of
    [Fixture.importProgram]. *)
Lemma importProgram_ranked : Ranked Fixture.importProgram (fun n => n).
Proof.
  split.
  - intros n p. do 9 (destruct n as [|n]; [cbn; intros [= <-]; lia|]).
    cbn. destruct n; discriminate.
  - intros n. do 9 (destruct n as [|n]; [cbn; discriminate|]).
    cbn. destruct n; discriminate.
  - intros n d ds. do 9 (destruct n as [|n]; [cbn; intros _ [= <- _]; lia|]).
    cbn. destruct n; discriminate.
Defined.

(** X9.  An import specifier names no symbol of its own.  Resolving one that
    has a declaration behind it either yields a fresh local identity stored
    for the specifier (under an empty or local owner), or stores nothing
    for the specifier and yields exactly the identity of the first
    declaration of its type: a later resolution of that declaration returns
    the same identity. *)
Theorem import_specifier_adopts_declaration (P : Program) (rank : Node -> nat)
    (fuel : nat) (node d : Node) (ds : list Node) (s s' : State)
    (r : LsifSymbol.t) :
  Ranked P rank ->
  isImportSpecifier P node = true ->
  typeSymbolDeclarations P node = d :: ds ->
  fromCache s node = None ->
  lsifSymbol P fuel node s = Some (r, s') ->
  (LsifSymbol.isLocal r = true /\ localSymbolTable s' !! node = Some r)
  \/ (fromCache s' node = None
      /\ forall fuel', rank d < fuel' -> lsifSymbol P fuel' d s' = Some (r, s')).
Proof.
  intros HR Hi Hd Hc H.
  destruct (import_kinds P node Hi) as (Hb & Hsf & Hpa & Hsh & Hanon).
  destruct fuel as [|fuel]; [discriminate|]. cbn [lsifSymbol] in H.
  rewrite Hc, Hb, Hsf, Hpa, Hsh in H. cbn in H.
  destruct (parent P node) as [p|] eqn:Hp; [|discriminate]. cbn in H.
  pose proof (rank_parent P rank HR node p Hp) as Hrk.
  pose proof (rank_import P rank HR node d ds Hi Hd) as Hrkd.
  destruct (lsifSymbol P fuel p s) as [[owner s1]|] eqn:E1; [|discriminate].
  cbn in H.
  destruct (lsifSymbol_post P rank HR _ _ _ _ _ E1) as (_ & _ & F1).
  destruct (LsifSymbol.isEmpty owner || LsifSymbol.isLocal owner).
  { injection H as <- <-. left. split; [reflexivity|].
    cbn. apply lookup_insert_eq. }
  rewrite Hanon, Hi, Hd in H. right.
  destruct (lsifSymbol_post P rank HR _ _ _ _ _ H) as (Hset & _ & F2).
  split.
  - rewrite F2, F1 by lia. exact Hc.
  - intros fuel' Hfuel. now apply (settled_run P rank HR).
Qed.

(** X9, witness: [import { A } from './a'], where [A] is a class of the
    other file. *)
Lemma import_specifier_adopts_declaration_witness :
  exists s',
    lsifSymbol Fixture.importProgram 5 7 (initial ∅)
    = Some (LsifSymbol.Global [Fixture.pkg; Descriptor.typeDescriptor "A"], s')
    /\ fromCache s' 7 = None
    /\ lsifSymbol Fixture.importProgram 2 1 s'
       = Some (LsifSymbol.Global [Fixture.pkg; Descriptor.typeDescriptor "A"], s').
Proof.
  eexists. split; [vm_compute; reflexivity|].
  match goal with
  | |- fromCache ?s' _ = _ /\ _ =>
      destruct (import_specifier_adopts_declaration Fixture.importProgram
                  (fun n => n) 5 7 1 [] (initial ∅) s'
                  (LsifSymbol.Global [Fixture.pkg; Descriptor.typeDescriptor "A"])
                  importProgram_ranked)
        as [[Hlocal _]|[Hnone Hdecl]];
        [reflexivity | reflexivity | reflexivity | vm_compute; reflexivity
        | discriminate |]
  end.
  split; [exact Hnone|]. apply Hdecl. lia.
Defined.

(** X10.  A class or function without a name never gets a global identity:
    a class-like node, function declaration, method signature or method
    declaration whose name is missing or empty has no descriptor, and the
    resolver gives it the next local index whatever identity its parent
    has; the global table is not written for it. *)
Theorem unnamed_declaration_is_local (P : Program) (fuel : nat) (node p : Node)
    (s s1 : State) (owner : LsifSymbol.t) :
  isClassLike P node || isFunctionDeclaration P node
  || isMethodSignature P node || isMethodDeclaration P node = true ->
  truthyNameText P node = None ->
  fromCache s node = None ->
  parent P node = Some p ->
  lsifSymbol P fuel p s = Some (owner, s1) ->
  descriptor P node = Some None
  /\ lsifSymbol P (S fuel) node s
     = Some (LsifSymbol.Local (localCounter s1),
             setLocal node (LsifSymbol.Local (localCounter s1))
               (setLocalCounter (S (localCounter s1)) s1)).
Proof.
  intros Hk Hname Hc Hp Hrun.
  assert (Hd : descriptor P node = Some None
               /\ isBlock P node = false /\ isSourceFile P node = false
               /\ isPropertyAssignment P node
                  || isShorthandPropertyAssignment P node = false
               /\ isAnonymousContainerOfSymbols P node = false
               /\ isImportSpecifier P node = false).
  { unfold descriptor. rewrite Hname. unfold isClassLike in Hk.
    repeat (apply orb_prop in Hk as [Hk|Hk]);
      pose proof Hk as K; kinds_of K; cbn; repeat split. }
  destruct Hd as (Hd & Hb & Hsf & Hprop & Hanon & Hi).
  split; [exact Hd|].
  cbn [lsifSymbol]. rewrite Hc, Hb, Hsf, Hprop, Hp. cbn. rewrite Hrun. cbn.
  rewrite Hanon, Hi, Hd. cbn.
  now destruct (LsifSymbol.isEmpty owner || LsifSymbol.isLocal owner).
Qed.

(** X10, witness: [export default class {}] in a file with a package. *)
Lemma unnamed_declaration_is_local_witness :
  lsifSymbol Fixture.anonymousProgram 2 1 (initial ∅)
  = Some (LsifSymbol.Local 0,
          setLocal 1 (LsifSymbol.Local 0)
            (setLocalCounter 1
               (setGlobal 0 (LsifSymbol.Global [Fixture.pkg]) (initial ∅)))).
Proof.
  apply (unnamed_declaration_is_local Fixture.anonymousProgram 1 1 0 (initial ∅)
           (setGlobal 0 (LsifSymbol.Global [Fixture.pkg]) (initial ∅))
           (LsifSymbol.Global [Fixture.pkg])); reflexivity.
Defined.

Section EmitterFacts.

Variable P : Program.

(** What one traversal step appends to the document. *)
Lemma shorthandValueLoop_appends fuel range_ decls : forall s s',
  shorthandValueLoop P fuel range_ decls s = Some s' ->
  symbols s' = symbols s
  /\ exists new,
       occurrences s' = (occurrences s ++ new)%list
       /\ Forall (fun o => range o = range_ /\ symbol_roles o = 0%Z) new.
Proof.
  induction decls as [|d decls IH]; intros s s' H; cbn in H.
  - injection H as <-. split; [reflexivity|]. exists []. now rewrite app_nil_r.
  - destruct (lsifSymbol P fuel d s) as [[sym s1]|] eqn:E; [|discriminate].
    cbn in H. apply lsifSymbol_document_frame in E as [Eo Es].
    destruct (LsifSymbol.isEmpty sym).
    + apply IH in H as (Hs & new & Ho & Hall). rewrite Hs, Ho, Es, Eo. eauto.
    + apply IH in H as (Hs & new & Ho & Hall). cbn in Hs, Ho.
      rewrite Hs, Ho, Es, Eo. split; [reflexivity|].
      eexists (_ :: new). rewrite <- app_assoc. split; [reflexivity|].
      constructor; [split; reflexivity | exact Hall].
Qed.

Lemma handleShorthandPropertyDefinition_appends fuel declaration range_ s s' :
  handleShorthandPropertyDefinition P fuel declaration range_ s = Some s' ->
  symbols s' = symbols s
  /\ exists new,
       occurrences s' = (occurrences s ++ new)%list
       /\ Forall (fun o => range o = range_ /\ symbol_roles o = 0%Z) new.
Proof.
  unfold handleShorthandPropertyDefinition.
  destruct (hasKind P _ declaration);
    [destruct (getShorthandAssignmentValueSymbol P declaration)|];
    try apply shorthandValueLoop_appends;
    intros [= <-]; (split; [reflexivity|]); exists []; now rewrite app_nil_r.
Qed.

Lemma definitionOccurrences_app os os' :
  definitionOccurrences (os ++ os')
  = (definitionOccurrences os ++ definitionOccurrences os')%list.
Proof. apply filter_app. Qed.

Lemma definitionOccurrences_references os :
  Forall (fun o => symbol_roles o = 0%Z) os -> definitionOccurrences os = [].
Proof.
  induction 1 as [|o os Ho _ IH]; [reflexivity|].
  unfold definitionOccurrences in *. rewrite filter_cons, IH.
  destruct (decide (symbol_roles o = SymbolRole.Definition_)) as [E|]; [|reflexivity].
  rewrite Ho in E. discriminate.
Qed.

(** The loop of [visitIdentifier]: ranges, roles, and the symbol
    informations that go with the definitions. *)
Lemma visitIdentifierLoop_appends fuel identifier sym range_ (isDef : bool) decls :
  forall s s',
    visitIdentifierLoop P fuel identifier sym range_
      (if isDef then Z.lor 0 SymbolRole.Definition_ else 0%Z) isDef decls s
    = Some s' ->
    exists new infos,
      occurrences s' = (occurrences s ++ new)%list
      /\ symbols s' = (symbols s ++ infos)%list
      /\ Forall (fun o => range o = range_) new
      /\ info_symbol <$> infos = symbol <$> definitionOccurrences new
      /\ (isDef = false ->
          infos = [] /\ Forall (fun o => symbol_roles o = 0%Z) new
          /\ length new <= length decls).
Proof.
  induction decls as [|d decls IH]; intros s s' H; cbn in H.
  - injection H as <-. exists [], []. rewrite !app_nil_r.
    repeat split; auto.
  - destruct (lsifSymbol P fuel d s) as [[lsifSym s1]|] eqn:E; [|discriminate].
    cbn in H. apply lsifSymbol_document_frame in E as [Eo Es].
    destruct (LsifSymbol.isEmpty lsifSym).
    { apply IH in H as (new & infos & Ho & Hs & Hr & Hi & Href).
      exists new, infos. rewrite Ho, Hs, Eo, Es.
      split; [reflexivity|]. split; [reflexivity|].
      split; [exact Hr|]. split; [exact Hi|].
      intros Hd. destruct (Href Hd) as (? & ? & ?).
      repeat split; auto. cbn. lia. }
    destruct isDef.
    + destruct (handleShorthandPropertyDefinition P fuel d range_ _)
        as [s3|] eqn:E3; [|discriminate].
      cbn in H.
      apply handleShorthandPropertyDefinition_appends in E3
        as (Es3 & extra & Eo3 & Hextra).
      apply IH in H as (new & infos & Ho & Hs & Hr & Hi & _).
      cbn in Es3, Eo3. rewrite Es3 in Hs. rewrite Eo3 in Ho.
      rewrite Eo, Es in *.
      eexists (_ :: extra ++ new), (_ :: infos).
      split; [rewrite Ho, <- !app_assoc; reflexivity|].
      split; [rewrite Hs, <- !app_assoc; reflexivity|].
      split.
      { constructor; [reflexivity|]. apply Forall_app. split; [|exact Hr].
        eapply Forall_impl; [exact Hextra|]. now intros o [? _]. }
      split; [|discriminate].
      unfold definitionOccurrences at 1. rewrite filter_cons.
      destruct (decide _) as [_|N]; [|exfalso; apply N; reflexivity].
      fold (definitionOccurrences (extra ++ new)).
      rewrite definitionOccurrences_app, (definitionOccurrences_references extra).
      * cbn. now rewrite Hi.
      * eapply Forall_impl; [exact Hextra|]. now intros o [_ ?].
    + cbn in H. apply IH in H as (new & infos & Ho & Hs & Hr & Hi & Href).
      destruct (Href eq_refl) as (-> & Hroles & Hlen).
      cbn in Ho, Hs. rewrite Eo, Es in *.
      eexists (_ :: new), [].
      split; [rewrite Ho, <- app_assoc; reflexivity|].
      split; [exact Hs|].
      split; [constructor; [reflexivity | exact Hr]|].
      split.
      { unfold definitionOccurrences. rewrite filter_cons.
        destruct (decide _) as [E|_]; [discriminate E|].
        fold (definitionOccurrences new).
        now rewrite (definitionOccurrences_references new). }
      intros _. split; [reflexivity|].
      split; [constructor; [reflexivity | exact Hroles] | cbn; lia].
Qed.

Lemma visitIdentifier_appends fuel identifier sym s s' :
  visitIdentifier P fuel identifier sym s = Some s' ->
  exists new infos,
    occurrences s' = (occurrences s ++ new)%list
    /\ symbols s' = (symbols s ++ infos)%list
    /\ Forall (fun o => range o = rangeOf P identifier) new
    /\ info_symbol <$> infos = symbol <$> definitionOccurrences new
    /\ (isDefinition P identifier = Some false ->
        infos = [] /\ Forall (fun o => symbol_roles o = 0%Z) new
        /\ length new <= length (declarations sym)).
Proof.
  unfold visitIdentifier.
  destruct (isDefinition P identifier) as [isDef|]; [|discriminate]. cbn.
  intros H. apply visitIdentifierLoop_appends in H
    as (new & infos & Ho & Hs & Hr & Hi & Href).
  exists new, infos.
  split; [exact Ho|]. split; [exact Hs|]. split; [exact Hr|]. split; [exact Hi|].
  intros [= ->]. now apply Href.
Qed.

(** The two arrays of the document stay aligned by every call of
    [visit]. *)
Lemma visit_aligned fuel depth : forall node s s',
  visit P fuel depth node s = Some s' ->
  info_symbol <$> symbols s = symbol <$> definitionOccurrences (occurrences s) ->
  info_symbol <$> symbols s' = symbol <$> definitionOccurrences (occurrences s').
Proof.
  induction depth as [|depth IH]; intros node s s' H Hs; [discriminate|].
  cbn [visit] in H.
  match type of H with
  | (?first ≫= _) = _ => destruct first as [s1|] eqn:E1; [|discriminate]
  end.
  cbn in H.
  assert (info_symbol <$> symbols s1
          = symbol <$> definitionOccurrences (occurrences s1)) as Hs1.
  { destruct (isIdentifier P node); [|now injection E1 as <-].
    destruct (getSymbolAtLocation P node); [|now injection E1 as <-].
    apply visitIdentifier_appends in E1 as (new & infos & Ho & Hsy & _ & Hi & _).
    rewrite Ho, Hsy, definitionOccurrences_app, !fmap_app. now rewrite Hs, Hi. }
  clear E1 Hs. revert s1 H Hs1.
  induction (children P node) as [|c cs IHc]; intros s1 H Hs1; cbn in H.
  - now injection H as <-.
  - destruct (visit P fuel depth c s1) as [s2|] eqn:E2.
    + apply (IHc s2 H). exact (IH _ _ _ E2 Hs1).
    + exfalso. clear -H. induction cs as [|c' cs IHcs]; cbn in H;
        [discriminate | auto].
Qed.

End EmitterFacts.

(** X11.  The document's two arrays stay aligned: after a file has been
    indexed there is exactly one SymbolInformation per occurrence that
    carries the definition role, in the same order and with the same symbol
    string. *)
Theorem index_symbols_match_definitions (P : Program) (fuel depth : nat)
    (sourceFile : Node) (globals : gmap Node LsifSymbol.t) (s : State) :
  index P fuel depth sourceFile globals = Some s ->
  info_symbol <$> symbols s
  = symbol <$> definitionOccurrences (occurrences s).
Proof.
  intros H. now apply (visit_aligned P fuel depth sourceFile (initial globals) s H).
Qed.

(** X11, witness: [const a = 1; const b = { a }], with three definitions
    among its four occurrences. *)
Lemma index_symbols_match_definitions_witness :
  exists s,
    index (Fixture.shorthandProgram (Some Fixture.pkg)) 8 8 0 ∅ = Some s
    /\ info_symbol <$> symbols s = ["pkg/a."; "pkg/b."; "pkg/a0:"]
    /\ info_symbol <$> symbols s
       = symbol <$> definitionOccurrences (occurrences s).
Proof.
  eexists. split; [vm_compute; reflexivity|]. split; [vm_compute; reflexivity|].
  eapply (index_symbols_match_definitions
            (Fixture.shorthandProgram (Some Fixture.pkg)) 8 8 0 ∅).
  vm_compute. reflexivity.
Defined.

(** X12.  Every occurrence an identifier contributes sits at that
    identifier: [visitIdentifier] only appends to the occurrence list, and
    each occurrence it appends - the one per declaration as well as the
    extra references of a shorthand property - carries the range of the
    identifier. *)
Theorem visitIdentifier_occurrences_at_identifier (P : Program) (fuel : nat)
    (identifier : Node) (sym : Symbol) (s s' : State) :
  visitIdentifier P fuel identifier sym s = Some s' ->
  exists new,
    occurrences s' = (occurrences s ++ new)%list
    /\ Forall (fun o => range o = rangeOf P identifier) new.
Proof.
  intros H. apply visitIdentifier_appends in H as (new & _ & Ho & _ & Hr & _).
  eauto.
Qed.

(** X12, witness: the [a] inside the object literal of
    [const a = 1; const b = { a }], visited first. *)
Lemma visitIdentifier_occurrences_at_identifier_witness :
  exists s' new,
    visitIdentifier (Fixture.shorthandProgram None) 8 12 (Fixture.sym [11])
      (initial ∅) = Some s'
    /\ occurrences s' = ([] ++ new)%list
    /\ Forall (fun o => range o = [0; 25; 26]%Z) new.
Proof.
  eexists. 
  match goal with
  | |- exists new, ?run = Some ?s' /\ _ =>
      assert (run = Some s') as Hrun by (vm_compute; reflexivity);
      destruct (visitIdentifier_occurrences_at_identifier _ _ _ _ _ _ Hrun)
        as (new & Ho & Hr)
  end.
  exists new. split; [exact Hrun|]. split; [exact Ho | exact Hr].
Defined.

(** X13.  A reference adds no metadata: for an identifier that is not the
    name of its parent declaration, [visitIdentifier] appends no
    SymbolInformation, at most one occurrence per declaration of the
    symbol, and none of them carries a role bit. *)
Theorem visitIdentifier_reference (P : Program) (fuel : nat)
    (identifier : Node) (sym : Symbol) (s s' : State) :
  isDefinition P identifier = Some false ->
  visitIdentifier P fuel identifier sym s = Some s' ->
  symbols s' = symbols s
  /\ exists new,
       occurrences s' = (occurrences s ++ new)%list
       /\ length new <= length (declarations sym)
       /\ Forall (fun o => symbol_roles o = 0%Z) new.
Proof.
  intros Hdef H.
  apply visitIdentifier_appends in H as (new & infos & Ho & Hs & _ & _ & Href).
  destruct (Href Hdef) as (-> & Hroles & Hlen).
  rewrite app_nil_r in Hs. split; [exact Hs|]. eauto.
Qed.

(** X13, witness: the use of [v] in [let v; v]. *)
Lemma visitIdentifier_reference_witness :
  exists s',
    visitIdentifier Fixture.invertedProgram 4 6 (Fixture.sym [3]) (initial ∅)
    = Some s'
    /\ symbols s' = [].
Proof.
  eexists. split; [vm_compute; reflexivity|].
  eapply (visitIdentifier_reference Fixture.invertedProgram 4 6 (Fixture.sym [3])
            (initial ∅)); [reflexivity | vm_compute; reflexivity].
Defined.

(** X4, witness: the local identity of [x] in
    [function f() { { const x = 1 } }] is still in the tables after the
    file has been visited. *)
Lemma cache_entries_are_permanent_witness :
  exists s1 s2,
    lsifSymbol Fixture.blockProgram 4 7 (initial ∅) = Some (LsifSymbol.Local 2, s1)
    /\ visit Fixture.blockProgram 8 8 0 s1 = Some s2
    /\ fromCache s2 7 = Some (LsifSymbol.Local 2).
Proof.
  eexists _, _. split; [vm_compute; reflexivity|].
  match goal with
  | |- visit _ _ _ _ ?s1 = _ /\ _ => set (st1 := s1)
  end.
  split; [vm_compute; reflexivity|].
  eapply (cache_entries_are_permanent Fixture.blockProgram (fun n => n) st1).
  - exact blockProgram_ranked.
  - eapply (visit_steps _ 8 8 0). vm_compute. reflexivity.
  - vm_compute. reflexivity.
Defined.

(** X6, witness: the global table left by the traversal of
    [function f() { { const x = 1 } }]. *)
Lemma global_table_holds_no_local_witness :
  exists s,
    visit Fixture.blockProgram 8 8 0 (initial ∅) = Some s
    /\ globalSymbolTable s !! 1
       = Some (LsifSymbol.Global [Fixture.pkg; Descriptor.methodDescriptor "f"])
    /\ forall n r, globalSymbolTable s !! n = Some r -> LsifSymbol.isLocal r = false.
Proof.
  eexists. split; [vm_compute; reflexivity|]. split; [vm_compute; reflexivity|].
  intros n r.
  eapply (global_table_holds_no_local Fixture.blockProgram (fun n => n) (initial ∅)).
  - exact blockProgram_ranked.
  - intros m x Hm. cbn in Hm. now rewrite lookup_empty in Hm.
  - eapply (visit_steps _ 8 8 0). vm_compute. reflexivity.
Defined.

(** X14.  The resolver terminates and does not throw: on a tree whose links
    are ranked and whose nodes have the parents and names the code reads,
    [lsifSymbol] returns an identity for every node of the tree, from every
    state, and the recursion is no deeper than the node's rank. *)
Theorem resolver_returns (P : Program) (rank : Node -> nat)
    (inTree : Node -> Prop) (fuel : nat) (node : Node) (s : State) :
  Ranked P rank ->
  Complete P inTree ->
  inTree node ->
  rank node < fuel ->
  exists r s', lsifSymbol P fuel node s = Some (r, s').
Proof.
  intros HR HC Hn Hfuel. now apply (lsifSymbol_total P rank inTree HR HC).
Qed.

(** X14, witness: the declaration of [x] in
    [function f() { { const x = 1 } }]. *)
Lemma resolver_returns_witness :
  exists r s', lsifSymbol Fixture.blockProgram 8 7 (initial ∅) = Some (r, s').
Proof.
  apply (resolver_returns Fixture.blockProgram (fun n => n) (fun n => n < 10)).
  - exact blockProgram_ranked.
  - exact blockProgram_complete.
  - lia.
  - lia.
Defined.

(** *** The snapshot formatter *)

Lemma getSymbolTable_snoc symbols info :
  SnapshotTesting.getSymbolTable (symbols ++ [info])
  = <[info_symbol info := info]> (SnapshotTesting.getSymbolTable symbols).
Proof. unfold SnapshotTesting.getSymbolTable. now rewrite foldl_app. Qed.

(** X15.  The formatter's symbol table keeps the last entry: a lookup by
    symbol string answers with the last SymbolInformation of the document
    that carries that symbol, and with nothing when there is none; earlier
    duplicates for the same symbol are shadowed. *)
Theorem getSymbolTable_last_wins (symbols : list SymbolInformation) (key : string) :
  SnapshotTesting.getSymbolTable symbols !! key
  = last (filter (fun info => info_symbol info = key) symbols).
Proof.
  induction symbols as [|info symbols IH] using rev_ind; [reflexivity|].
  rewrite getSymbolTable_snoc, filter_app, filter_cons, filter_nil.
  destruct (decide (info_symbol info = key)) as [<-|Hne].
  - now rewrite lookup_insert_eq, last_snoc.
  - rewrite lookup_insert_ne by exact Hne. now rewrite app_nil_r.
Qed.

Lemma substring_all (s : string) : substring 0 (String.length s) s = s.
Proof. induction s as [|c s IH]; [reflexivity|]. cbn. now rewrite IH. Qed.

(** X16.  Snapshot names lose the indexer prefix, once: a symbol string
    that starts with [scip-typescript npm ] is shown without these twenty
    characters and otherwise unchanged, whatever follows the prefix. *)
Theorem symbolNameForSnapshot_strips_prefix (rest : string) :
  SnapshotTesting.symbolNameForSnapshot (SnapshotTesting.stripIndexerPrefix ++ rest)
  = rest.
Proof.
  unfold SnapshotTesting.symbolNameForSnapshot, SnapshotTesting.stripIndexerPrefix.
  norm_append. cbn. rewrite Nat.sub_0_r.
  destruct rest; apply substring_all.
Qed.

Lemma length_string_of_repeat c n :
  String.length (string_of_list_ascii (List.repeat c n)) = n.
Proof. induction n as [|n IH]; [reflexivity|]. cbn. now rewrite IH. Qed.

(** X17.  Carets sit under the occurrence: when [formatSnapshot] gets to a
    single-line occurrence that starts at column 2 or later and does not
    end before it starts, with an indent and a caret count that the engine
    can hold in a string, it pushes, before it calls [pushDoc], the comment
    marker, the indent, the carets, the role word and the symbol; marker
    and indent together are as long as the start column, and there is one
    caret per column of the range. *)
Theorem formatOccurrence_aligned (maxLength : N) (occurrenceIndex : nat)
    (l sc ec : Z) (sym : string) (roles : Z) :
  (2 <= sc)%Z -> (sc <= ec)%Z ->
  (sc - 2 <= Z.of_N maxLength)%Z -> (ec - sc <= Z.of_N maxLength)%Z ->
  let occurrence :=
    {| range := [l; sc; ec]; symbol := sym; symbol_roles := roles |} in
  exists indent carets,
    SnapshotTesting.formatOccurrence maxLength occurrenceIndex occurrence
    = SnapshotTesting.Pushed
        [SnapshotTesting.commentSyntax; indent; carets; " ";
         SnapshotTesting.roleWord occurrence; " ";
         SnapshotTesting.replaceLineFeed
           (SnapshotTesting.symbolNameForSnapshot sym)]
    /\ Z.of_nat (String.length (SnapshotTesting.commentSyntax ++ indent)) = sc
    /\ Z.of_nat (String.length carets) = (ec - sc)%Z.
Proof.
  intros Hsc Hec Hmi Hmc occurrence.
  assert (SnapshotTesting.formatOccurrence maxLength occurrenceIndex occurrence
          = SnapshotTesting.formatCarets maxLength occurrence) as ->.
  { destruct occurrenceIndex; [|reflexivity].
    unfold SnapshotTesting.formatOccurrence, SnapshotTesting.formatFileLevel.
    cbn.
    now replace (sc =? 0)%Z with false by (symmetry; apply Z.eqb_neq; lia). }
  unfold SnapshotTesting.formatCarets. cbn.
  replace (sc =? 0)%Z with false by (symmetry; apply Z.eqb_neq; lia).
  unfold SnapshotTesting.repeat.
  replace (sc - 2 <? 0)%Z with false by (symmetry; apply Z.ltb_ge; lia).
  replace (Z.of_N maxLength <? sc - 2)%Z with false
    by (symmetry; apply Z.ltb_ge; lia).
  replace (ec - sc - 0 <? 0)%Z with false by (symmetry; apply Z.ltb_ge; lia).
  replace (Z.of_N maxLength <? ec - sc - 0)%Z with false
    by (symmetry; apply Z.ltb_ge; lia).
  eexists _, _. split; [reflexivity|].
  unfold SnapshotTesting.commentSyntax. norm_append. cbn [String.length].
  rewrite !length_string_of_repeat. lia.
Qed.

(** X17, witness: the fifth occurrence of a document, on columns 6 to 7,
    with strings of at most 2^29 - 24 characters, the bound of V8. *)
Lemma formatOccurrence_aligned_witness :
  exists indent carets,
    SnapshotTesting.formatOccurrence 536870888 4
      {| range := [0; 6; 7]%Z; symbol := "scip-typescript npm pkg/a.";
         symbol_roles := 1 |}
    = SnapshotTesting.Pushed
        ["//"; indent; carets; " "; "definition"; " "; "pkg/a."]
    /\ Z.of_nat (String.length ("//" ++ indent)) = 6%Z
    /\ Z.of_nat (String.length carets) = 1%Z.
Proof.
  apply (formatOccurrence_aligned 536870888 4 0 6 7
           "scip-typescript npm pkg/a." 1); lia.
Defined.

(** X18.  Which single-line occurrences [formatSnapshot] takes to its call
    of [pushDoc] without throwing, once it gets to them: the first
    occurrence of the document when both its columns are 0 (it is written
    above the first line); an occurrence that starts at column 0 and ends
    at column 1 or later; and an occurrence that starts at column 2 or
    later and does not end before it starts - the indent and the carets
    within the longest string of the engine.  Every other one makes it
    throw: all that start at column 1 or at a negative column (the indent
    would have a negative length), and all other ranges of negative
    length. *)
Theorem formatOccurrence_accepts (maxLength : N) (occurrenceIndex : nat)
    (l sc ec : Z) (sym : string) (roles : Z) :
  (exists out,
     SnapshotTesting.formatOccurrence maxLength occurrenceIndex
       {| range := [l; sc; ec]; symbol := sym; symbol_roles := roles |}
     = SnapshotTesting.Pushed out)
  <-> (occurrenceIndex = 0 /\ sc = 0%Z /\ ec = 0%Z)
      \/ (sc = 0%Z /\ (1 <= ec)%Z /\ (ec - 1 <= Z.of_N maxLength)%Z)
      \/ ((2 <= sc)%Z /\ (sc - 2 <= Z.of_N maxLength)%Z
          /\ (sc <= ec)%Z /\ (ec - sc <= Z.of_N maxLength)%Z).
Proof.
  assert ((exists out,
             SnapshotTesting.formatCarets maxLength
               {| range := [l; sc; ec]; symbol := sym; symbol_roles := roles |}
             = SnapshotTesting.Pushed out)
          <-> (sc = 0%Z /\ (1 <= ec)%Z /\ (ec - 1 <= Z.of_N maxLength)%Z)
              \/ ((2 <= sc)%Z /\ (sc - 2 <= Z.of_N maxLength)%Z
                  /\ (sc <= ec)%Z /\ (ec - sc <= Z.of_N maxLength)%Z)) as Hloop.
  { unfold SnapshotTesting.formatCarets, SnapshotTesting.repeat. cbn.
    destruct (Z.eqb_spec sc 0) as [->|Hsc0].
    - destruct (Z.ltb_spec (ec - 0 - 1) 0) as [Hlt|Hge].
      + split; [intros [out [=]] | lia].
      + destruct (Z.ltb_spec (Z.of_N maxLength) (ec - 0 - 1)).
        * split; [intros [out [=]] | lia].
        * split; [lia | eauto].
    - destruct (Z.ltb_spec (sc - 2) 0) as [Hlt|Hge].
      + split; [intros [out [=]] | lia].
      + destruct (Z.ltb_spec (Z.of_N maxLength) (sc - 2)).
        * split; [intros [out [=]] | lia].
        * destruct (Z.ltb_spec (ec - sc - 0) 0) as [Hlt'|Hge'].
          -- split; [intros [out [=]] | lia].
          -- destruct (Z.ltb_spec (Z.of_N maxLength) (ec - sc - 0)).
             ++ split; [intros [out [=]] | lia].
             ++ split; [lia | eauto]. }
  destruct occurrenceIndex as [|i].
  - unfold SnapshotTesting.formatOccurrence, SnapshotTesting.formatFileLevel.
    cbn -[SnapshotTesting.formatCarets].
    destruct (Z.eqb_spec sc 0) as [->|Hsc0]; cbn -[SnapshotTesting.formatCarets].
    + destruct (Z.eqb_spec ec 0) as [->|Hec0].
      * split; [tauto | eauto].
      * rewrite Hloop. lia.
    + rewrite Hloop. lia.
  - cbn [SnapshotTesting.formatOccurrence]. rewrite Hloop. split; [tauto|].
    intros [(H & _)|H]; [discriminate | exact H].
Qed.

(** X19.  The resolver builds named descriptors only: in a program whose
    name nodes have a text and whose package resolver answers with named
    descriptors, indexing a file from a global table of identities with
    named descriptors and no disambiguator leaves only such identities in
    both tables.  No descriptor with an empty name and no disambiguator is
    ever produced. *)
Theorem index_identities_named (P : Program) (fuel depth : nat)
    (sourceFile : Node) (globals : gmap Node LsifSymbol.t) (s : State)
    (node : Node) (r : LsifSymbol.t) :
  WellNamed P ->
  (forall n x, globals !! n = Some x ->
     forallb Descriptor.wellFormed (LsifSymbol.chain x) = true) ->
  index P fuel depth sourceFile globals = Some s ->
  fromCache s node = Some r ->
  forallb Descriptor.wellFormed (LsifSymbol.chain r) = true.
Proof.
  intros HN Hg Hrun Hr.
  apply (wfState_fromCache s node r); [|exact Hr].
  apply (steps_wf P HN (initial globals) s).
  - now apply (visit_steps P fuel depth sourceFile).
  - split; [exact Hg|]. intros n x Hx. cbn in Hx. now rewrite lookup_empty in Hx.
Qed.

(** X19, witness: the shorthand property of
    [const a = 1; const b = { a }]. *)
Lemma index_identities_named_witness :
  forallb Descriptor.wellFormed
    (LsifSymbol.chain
       (LsifSymbol.Global [Fixture.pkg; Descriptor.metaDescriptor "a0"]))
  = true.
Proof.
  assert (exists s,
             index (Fixture.shorthandProgram (Some Fixture.pkg)) 8 8 0 ∅ = Some s
             /\ fromCache s 11
                = Some (LsifSymbol.Global
                          [Fixture.pkg; Descriptor.metaDescriptor "a0"]))
    as (s & Hrun & Hr).
  { eexists. split; vm_compute; reflexivity. }
  apply (index_identities_named (Fixture.shorthandProgram (Some Fixture.pkg))
           8 8 0 ∅ s 11 _ shorthandProgram_wellNamed); [|exact Hrun|exact Hr].
  intros n x Hx. now rewrite lookup_empty in Hx.
Defined.


(* ===================================================================== *)
(** ** The indexer never looks at a range *)
(* ===================================================================== *)

Section RangeFacts.

Variable P : Program.
Variable ranges : Node -> list Z.












End RangeFacts.



(* ===================================================================== *)
(** ** Symbol strings of declarations *)
(* ===================================================================== *)

Section ReadableCodec.
Import Descriptor.

Lemma readDescriptor_readable desc r :
  Descriptor.readable desc = true ->
  readDescriptor (descriptorString desc ++ r) = Some (desc, r).
Proof.
  unfold Descriptor.readable. intros H. apply andb_prop in H as [Hd Hn].
  apply bool_decide_eq_true in Hd.
  destruct (String.eqb_spec (name desc) "") as [E|Hne].
  - cbn in Hn. apply negb_true_iff, bool_decide_eq_false in Hn.
    destruct desc as [n sfx dis]. cbn in *. subst.
    destruct sfx; try contradiction;
      unfold descriptorString, escapedName; cbn; norm_append; reflexivity.
  - apply readDescriptor_render. unfold wellFormed.
    apply String.eqb_neq in Hne. rewrite Hne. cbn.
    now apply bool_decide_eq_true.
Qed.

Lemma renderChain_readable c1 c2 :
  forallb Descriptor.readable c1 = true -> forallb Descriptor.readable c2 = true ->
  LsifSymbol.renderChain c1 = LsifSymbol.renderChain c2 -> c1 = c2.
Proof.
  revert c2. induction c1 as [|d1 c1 IH]; intros [|d2 c2] H1 H2 E; cbn in *.
  - reflexivity.
  - symmetry in E. now apply descriptorString_not_empty in E.
  - now apply descriptorString_not_empty in E.
  - apply andb_prop in H1 as [Hd1 H1], H2 as [Hd2 H2].
    pose proof (readDescriptor_readable d1 (LsifSymbol.renderChain c1) Hd1) as R1.
    pose proof (readDescriptor_readable d2 (LsifSymbol.renderChain c2) Hd2) as R2.
    rewrite E in R1. rewrite R1 in R2. injection R2 as -> E'.
    f_equal. now apply IH.
Qed.

End ReadableCodec.

Section ReadableChains.

Variable P : Program.
Hypothesis HP : packagesReadable P.

Lemma readable_named n sfx :
  n <> "" -> Descriptor.readable (Descriptor.Build n sfx None) = true.
Proof.
  intros H. unfold Descriptor.readable. cbn. apply String.eqb_neq in H. now rewrite H.
Qed.

Lemma readable_not_method n sfx :
  sfx <> Descriptor.Method -> Descriptor.readable (Descriptor.Build n sfx None) = true.
Proof.
  intros H. unfold Descriptor.readable. cbn.
  rewrite (bool_decide_eq_false_2 _ H). cbn. apply orb_true_r.
Qed.

Lemma descriptor_readable n d :
  descriptor P n = Some (Some d) -> Descriptor.readable d = true.
Proof.
  unfold descriptor.
  repeat match goal with
  | |- context [if ?b then _ else _] => destruct b
  | |- context [nameText P n] => destruct (nameText P n); cbn
  | |- context [truthyNameText P n] =>
      let E := fresh "E" in
      destruct (truthyNameText P n) eqn:E; cbn;
      [apply truthyNameText_not_empty in E | ]
  end;
  try discriminate; intros [= <-];
  try (now apply readable_named); try (apply readable_not_method; discriminate);
  reflexivity.
Qed.

Lemma readableState_fromCache s n r :
  readableState s -> fromCache s n = Some r -> readableIdentity r = true.
Proof.
  intros [Hg Hl]. unfold fromCache.
  destruct (globalSymbolTable s !! n) as [g|] eqn:E.
  - intros [= <-]. eauto.
  - eauto.
Qed.

Lemma readableState_setGlobal s n r :
  readableState s -> readableIdentity r = true -> readableState (setGlobal n r s).
Proof.
  intros [Hg Hl] Hr. split; cbn; [|exact Hl].
  intros m x Hx. apply lookup_insert_Some in Hx as [[_ <-]|[_ Hx]]; eauto.
Qed.

Lemma readableState_newLocalSymbol s n :
  readableState s -> readableState (snd (newLocalSymbol n s)).
Proof.
  intros [Hg Hl]. split; cbn; [exact Hg|].
  intros m x Hx. apply lookup_insert_Some in Hx as [[_ <-]|[_ Hx]]; eauto.
Qed.

Lemma readableIdentity_global owner d :
  readableIdentity owner = true -> Descriptor.readable d = true ->
  readableIdentity (LsifSymbol.global owner d) = true.
Proof.
  unfold readableIdentity, LsifSymbol.global. cbn [LsifSymbol.chain].
  intros Ho Hd. rewrite forallb_app, Ho. cbn. now rewrite Hd.
Qed.

Lemma lsifSymbol_readable fuel : forall n s r s',
  lsifSymbol P fuel n s = Some (r, s') ->
  readableState s -> readableIdentity r = true /\ readableState s'.
Proof.
  induction fuel as [|fuel IH]; intros n s r s' H Hs; [discriminate|].
  cbn [lsifSymbol] in H.
  destruct (fromCache s n) as [c|] eqn:Hc.
  { injection H as <- <-. split; [eapply readableState_fromCache; eauto | exact Hs]. }
  destruct (isBlock P n).
  { injection H as <- <-. now split. }
  destruct (isSourceFile P n).
  { unfold Packages.symbol in H.
    destruct (packageOf P (fileName P n)) as [d|] eqn:Hd; injection H as <- <-.
    - assert (readableIdentity (LsifSymbol.Global [d]) = true) as Hw.
      { unfold readableIdentity. cbn. now rewrite (HP _ _ Hd). }
      split; [exact Hw | now apply readableState_setGlobal].
    - split; [reflexivity | now apply readableState_setGlobal]. }
  destruct (isPropertyAssignment P n || isShorthandPropertyAssignment P n).
  { destruct (nameText P n) as [text|] eqn:Hname; [|discriminate]. cbn in H.
    destruct (lsifSymbol P fuel (getSourceFile P n) (ensurePropertyCounter text s))
      as [[file s1]|] eqn:E1; [|discriminate]. cbn in H.
    unfold nextPropertyCounter in H.
    destruct (propertyCounters s1 !! text) as [k|]; [|discriminate].
    cbn in H. injection H as <- <-.
    apply IH in E1 as [Hfile Hs1].
    2:{ unfold ensurePropertyCounter. now destruct (propertyCounters s !! text). }
    assert (readableIdentity
              (LsifSymbol.global file
                 (Descriptor.metaDescriptor (text ++ LsifSymbol.decimal k))) = true)
      as Hw.
    { apply readableIdentity_global; [exact Hfile|].
      apply readable_not_method. discriminate. }
    split; [exact Hw|]. now apply readableState_setGlobal. }
  destruct (parent P n) as [p|]; [|discriminate]. cbn in H.
  destruct (lsifSymbol P fuel p s) as [[owner s1]|] eqn:E1; [|discriminate].
  cbn in H. apply IH in E1 as [Hown Hs1]; [|exact Hs].
  destruct (LsifSymbol.isEmpty owner || LsifSymbol.isLocal owner).
  { injection H as <- <-. split; [reflexivity | now apply readableState_newLocalSymbol]. }
  destruct (isAnonymousContainerOfSymbols P n).
  { destruct (lsifSymbol P fuel p s1) as [[sym s2]|] eqn:E2; [|discriminate].
    cbn in H. injection H as <- <-.
    apply IH in E2 as [Hsym Hs2]; [|exact Hs1].
    split; [exact Hsym | now apply readableState_setGlobal]. }
  destruct (if isImportSpecifier P n then typeSymbolDeclarations P n else [])
    as [|d ds]; [|now apply IH in H].
  destruct (descriptor P n) as [[desc|]|] eqn:Hd; [| |discriminate];
    cbn in H; injection H as <- <-.
  - assert (readableIdentity (LsifSymbol.global owner desc) = true) as Hw
      by (apply readableIdentity_global; [exact Hown | now apply descriptor_readable with n]).
    split; [exact Hw | now apply readableState_setGlobal].
  - split; [reflexivity | now apply readableState_newLocalSymbol].
Qed.

Lemma reachable_readable s : reachable P s -> readableState s.
Proof.
  induction 1 as [|s s' _ IH [fuel n r H| o -> | i ->]|s _ IH].
  - split; intros n r H; cbn in H; now rewrite lookup_empty in H.
  - now apply (lsifSymbol_readable _ _ _ _ _ H).
  - exact IH.
  - exact IH.
  - destruct IH as [Hg _]. split; [exact Hg|].
    intros n r H; cbn in H; now rewrite lookup_empty in H.
Qed.

End ReadableChains.

Section NamedByOwner.

Variable P : Program.
Variable rank : Node -> nat.
Hypothesis HR : Ranked P rank.

(** The nodes [descriptor] names are none of those [lsifSymbol] stores a
    global identity for before it looks at the owner. *)
Lemma descriptor_kinds n d :
  descriptor P n = Some (Some d) ->
  isSourceFile P n = false
  /\ isPropertyAssignment P n || isShorthandPropertyAssignment P n = false
  /\ isAnonymousContainerOfSymbols P n = false.
Proof.
  intros Hd.
  assert (forall k, hasKind P k n = true ->
            In k [SyntaxKind.SourceFile; SyntaxKind.PropertyAssignment;
                  SyntaxKind.ShorthandPropertyAssignment; SyntaxKind.ModuleBlock;
                  SyntaxKind.ImportDeclaration; SyntaxKind.ImportClause;
                  SyntaxKind.NamedImports; SyntaxKind.VariableStatement;
                  SyntaxKind.VariableDeclarationList] -> False) as Hk.
  { intros k Hk Hin. revert Hd. unfold descriptor.
    cbn in Hin. repeat destruct Hin as [<-|Hin]; try contradiction;
      kinds_of Hk; discriminate. }
  unfold isAnonymousContainerOfSymbols, isSourceFile, isPropertyAssignment,
    isShorthandPropertyAssignment, isModuleBlock, isImportDeclaration,
    isImportClause, isNamedImports, isVariableStatement,
    isVariableDeclarationList.
  repeat match goal with
  | |- context [hasKind P ?k n] =>
      let E := fresh "E" in
      destruct (hasKind P k n) eqn:E;
      [exfalso; apply (Hk k E); cbn; tauto|]
  end.
  repeat split.
Qed.

Lemma namedByOwner_same s s' :
  globalSymbolTable s' = globalSymbolTable s ->
  (forall n x, settled P s n x -> settled P s' n x) ->
  namedByOwner P s -> namedByOwner P s'.
Proof.
  intros Hg Hpres Hs n d c Hd Hn. rewrite Hg in Hn.
  destruct (Hs n d c Hd Hn) as (p & o & Hp & Ho & ->). eauto 6.
Qed.

Lemma namedByOwner_setGlobal m v s :
  namedByOwner P s ->
  (forall n x, settled P s n x -> settled P (setGlobal m v s) n x) ->
  (forall d c,
     descriptor P m = Some (Some d) -> v = LsifSymbol.Global c ->
     exists p o, parent P m = Some p /\ settled P s p (LsifSymbol.Global o)
                 /\ c = (o ++ [d])%list) ->
  namedByOwner P (setGlobal m v s).
Proof.
  intros Hs Hpres Hm n d c Hd Hn. cbn in Hn.
  apply lookup_insert_Some in Hn as [[<- Hv]|[_ Hn]].
  - destruct (Hm d c Hd Hv) as (p & o & Hp & Ho & ->). eauto 6.
  - destruct (Hs n d c Hd Hn) as (p & o & Hp & Ho & ->). eauto 6.
Qed.

Lemma settled_setGlobal m v s :
  (forall x, ~ settled P s m x) ->
  forall n x, settled P s n x -> settled P (setGlobal m v s) n x.
Proof.
  intros Hun. apply (settled_extend P s _ m Hun).
  intros n Hn. now apply fromCache_setGlobal_ne.
Qed.

Lemma settled_newLocalSymbol m s :
  (forall x, ~ settled P s m x) ->
  forall n x, settled P s n x -> settled P (snd (newLocalSymbol m s)) n x.
Proof.
  intros Hun. apply (settled_extend P s _ m Hun).
  intros n Hn. cbn. now rewrite fromCache_setLocal_ne.
Qed.

Lemma lsifSymbol_namedByOwner fuel : forall m s r s',
  lsifSymbol P fuel m s = Some (r, s') ->
  namedByOwner P s -> namedByOwner P s'.
Proof.
  induction fuel as [|fuel IH]; intros m s r s' H Hs; [discriminate|].
  cbn [lsifSymbol] in H.
  destruct (fromCache s m) as [c|] eqn:Hc.
  { now injection H as <- <-. }
  destruct (isBlock P m) eqn:Hb.
  { now injection H as <- <-. }
  destruct (isSourceFile P m) eqn:Hsf.
  { assert (exists v, s' = setGlobal m v s) as (v & ->).
    { destruct (Packages.symbol P (fileName P m)) as [pk|];
        injection H as <- <-; eauto. }
    apply namedByOwner_setGlobal; [exact Hs| |].
    - apply settled_setGlobal. apply unsettled; auto. intros Hi.
      exfalso. eapply (kind_clash _ _ _ m Hsf); [exact Hi | discriminate].
    - intros d c Hd _. apply descriptor_kinds in Hd as (Hd & _). congruence. }
  destruct (isPropertyAssignment P m || isShorthandPropertyAssignment P m) eqn:Hp.
  { destruct (nameText P m) as [text|]; [|discriminate]. cbn in H.
    destruct (lsifSymbol P fuel (getSourceFile P m) (ensurePropertyCounter text s))
      as [[file s1]|] eqn:E1; [|discriminate]. cbn in H.
    destruct (nextPropertyCounter text s1) as [[k s2]|] eqn:E2; [|discriminate].
    cbn in H. injection H as <- <-.
    pose proof (lsifSymbol_post P rank HR _ _ _ _ _ E1) as (_ & _ & Hframe).
    pose proof (rank_sourceFile P rank HR m Hp) as Hrk.
    apply IH in E1.
    2:{ apply (namedByOwner_same s); [| |exact Hs].
        - unfold ensurePropertyCounter. now destruct (propertyCounters s !! text).
        - apply settled_same. intros. apply fromCache_ensurePropertyCounter. }
    assert (namedByOwner P s2) as Hs2.
    { apply (namedByOwner_same s1); [| |exact E1].
      - unfold nextPropertyCounter in E2.
        destruct (propertyCounters s1 !! text); [|discriminate].
        cbn in E2. now injection E2 as <- <-.
      - apply settled_same. intros. eapply fromCache_nextPropertyCounter; eauto. }
    apply namedByOwner_setGlobal; [exact Hs2| |].
    - apply settled_setGlobal. apply unsettled; auto.
      + rewrite (fromCache_nextPropertyCounter _ _ _ _ m E2).
        rewrite Hframe by lia. rewrite fromCache_ensurePropertyCounter. exact Hc.
      + intros Hi. now rewrite (property_not_import _ _ Hp) in Hi.
    - intros d c Hd _. apply descriptor_kinds in Hd as (_ & Hd & _). congruence. }
  destruct (parent P m) as [p|] eqn:Hpar; [|discriminate]. cbn in H.
  destruct (lsifSymbol P fuel p s) as [[owner s1]|] eqn:E1; [|discriminate].
  cbn in H.
  pose proof (rank_parent P rank HR m p Hpar) as Hrk.
  pose proof (lsifSymbol_post P rank HR _ _ _ _ _ E1) as (Hown & _ & Hframe1).
  apply IH in E1; [|exact Hs].
  assert (Hc1 : fromCache s1 m = None) by (rewrite Hframe1 by lia; exact Hc).
  destruct (LsifSymbol.isEmpty owner || LsifSymbol.isLocal owner) eqn:Hflag.
  { injection H as <- <-.
    apply (namedByOwner_same s1); [reflexivity| |exact E1].
    apply settled_newLocalSymbol. apply unsettled; auto.
    intros _ p0 o d ds Hp0 Ho Hfo _.
    assert (p0 = p) as -> by congruence.
    rewrite (settled_deterministic _ _ _ _ _ Ho Hown) in Hfo. congruence. }
  destruct (isAnonymousContainerOfSymbols P m) eqn:Hanon.
  { destruct (lsifSymbol P fuel p s1) as [[sym s2]|] eqn:E2; [|discriminate].
    cbn in H. injection H as <- <-.
    pose proof (lsifSymbol_post P rank HR _ _ _ _ _ E2) as (_ & _ & Hframe2).
    apply IH in E2; [|exact E1].
    apply namedByOwner_setGlobal; [exact E2| |].
    - apply settled_setGlobal. apply unsettled; auto.
      + rewrite Hframe2 by lia. exact Hc1.
      + intros Hi. now rewrite (anonymous_not_import _ _ Hanon) in Hi.
    - intros d c Hd _. apply descriptor_kinds in Hd as (_ & _ & Hd). congruence. }
  destruct (if isImportSpecifier P m then typeSymbolDeclarations P m else [])
    as [|d ds] eqn:Himp; [|now apply IH in H].
  assert (Hun : forall x, ~ settled P s1 m x).
  { apply unsettled; auto. intros Hi p0 o d ds _ _ _ Hd.
    rewrite Hi in Himp. congruence. }
  destruct (descriptor P m) as [[desc|]|] eqn:Hdesc; [| |discriminate];
    cbn in H; injection H as <- <-.
  - apply namedByOwner_setGlobal; [exact E1|now apply settled_setGlobal|].
    intros d c Hd Hv. rewrite Hdesc in Hd. injection Hd as <-.
    destruct owner as [|k|o]; try discriminate.
    exists p, o. split; [exact Hpar|]. split; [exact Hown|].
    unfold LsifSymbol.global in Hv. cbn in Hv. congruence.
  - apply (namedByOwner_same s1); [reflexivity| |exact E1].
    now apply settled_newLocalSymbol.
Qed.

(** Resetting the file-scoped tables keeps the settled global identities. *)
Lemma settled_nextFile s :
  localsFresh s ->
  forall n r,
    settled P s n r -> LsifSymbol.isGlobal r = true ->
    settled P (initial (globalSymbolTable s)) n r.
Proof.
  intros Hl n r H.
  induction H as [n r Hc|n Hc Hb|n p o d ds r Hc Hi Hp Ho IHo Hf Hd Hr IHr];
    intros Hg.
  - apply settled_cache. unfold fromCache in *. cbn.
    destruct (globalSymbolTable s !! n); [exact Hc|].
    destruct (Hl n r Hc) as (k & -> & _). discriminate.
  - discriminate.
  - eapply settled_import; eauto.
    + apply fromCache_None in Hc as [Hc _]. unfold fromCache. cbn. now rewrite Hc.
    + apply IHo. destruct o; try discriminate; reflexivity.
Qed.

Lemma reachable_locals s :
  reachable P s -> localsFresh s /\ localsDistinct s.
Proof.
  induction 1 as [|s s' _ IH [fuel n r H| o -> | i ->]|s _ IH].
  - split; [intros n r H | intros n1 n2 k H]; cbn in H; now rewrite lookup_empty in H.
  - exact (lsifSymbol_locals _ _ _ _ _ _ H IH).
  - exact IH.
  - exact IH.
  - split; [intros n r H | intros n1 n2 k H]; cbn in H; now rewrite lookup_empty in H.
Qed.

Lemma reachable_namedByOwner s : reachable P s -> namedByOwner P s.
Proof.
  induction 1 as [|s s' Hs IH [fuel n r H| o -> | i ->]|s Hs IH].
  - intros n d c _ H. cbn in H. now rewrite lookup_empty in H.
  - now apply (lsifSymbol_namedByOwner _ _ _ _ _ H).
  - apply (namedByOwner_same s); [reflexivity| |exact IH]. now apply settled_same.
  - apply (namedByOwner_same s); [reflexivity| |exact IH]. now apply settled_same.
  - intros n d c Hd Hn. cbn in Hn.
    destruct (IH n d c Hd Hn) as (p & o & Hp & Ho & ->).
    exists p, o. split; [exact Hp|]. split; [|reflexivity].
    apply settled_nextFile; [now apply reachable_locals | exact Ho | reflexivity].
Qed.

End NamedByOwner.

Lemma reachable_steps P s s' :
  reachable P s -> rtc (step P) s s' -> reachable P s'.
Proof.
  intros Hs Hsteps. induction Hsteps as [s|s s1 s2 Hstep _ IH]; [exact Hs|].
  apply IH. now apply (reachable_step P s).
Qed.

Lemma index_reachable P fuel depth sourceFile s s' :
  reachable P s ->
  index P fuel depth sourceFile (globalSymbolTable s) = Some s' ->
  reachable P s'.
Proof.
  intros Hs H. apply (reachable_steps P (initial (globalSymbolTable s))).
  - now apply reachable_nextFile.
  - now apply (visit_steps P fuel depth sourceFile).
Qed.

(** C8 (amended).  Within one indexing run, the global identity of a
    declaration node - a node that [descriptor] names - is the identity of
    its parent followed by the node's own descriptor (its name and the
    suffix of its kind), and the symbol strings of two such nodes are equal
    exactly when their parents have the same identity and the two nodes
    have the same descriptor.  So two declarations get different symbol
    strings unless they are declarations of one name and one kind of
    descriptor under owners of one identity, as the two declarations of
    [interface A {} interface A {}], which share one symbol string.  The
    package resolver is taken to answer with readable descriptors. *)
Theorem declaration_symbol_strings (P : Program) (rank : Node -> nat)
    (s : State) (node1 node2 : Node) (d1 d2 : Descriptor.t)
    (c1 c2 : list Descriptor.t) :
  packagesReadable P -> Ranked P rank -> reachable P s ->
  descriptor P node1 = Some (Some d1) ->
  descriptor P node2 = Some (Some d2) ->
  globalSymbolTable s !! node1 = Some (LsifSymbol.Global c1) ->
  globalSymbolTable s !! node2 = Some (LsifSymbol.Global c2) ->
  exists p1 p2 owner1 owner2,
    parent P node1 = Some p1 /\ parent P node2 = Some p2
    /\ (forall fuel, rank p1 < fuel ->
        lsifSymbol P fuel p1 s = Some (LsifSymbol.Global owner1, s))
    /\ (forall fuel, rank p2 < fuel ->
        lsifSymbol P fuel p2 s = Some (LsifSymbol.Global owner2, s))
    /\ c1 = (owner1 ++ [d1])%list /\ c2 = (owner2 ++ [d2])%list
    /\ (LsifSymbol.value (LsifSymbol.Global c1)
        = LsifSymbol.value (LsifSymbol.Global c2)
        <-> owner1 = owner2 /\ d1 = d2).
Proof.
  intros HP HR Hs Hd1 Hd2 H1 H2.
  pose proof (reachable_namedByOwner P rank HR s Hs) as Hnamed.
  destruct (Hnamed _ _ _ Hd1 H1) as (p1 & o1 & Hp1 & Ho1 & ->).
  destruct (Hnamed _ _ _ Hd2 H2) as (p2 & o2 & Hp2 & Ho2 & ->).
  exists p1, p2, o1, o2.
  split; [exact Hp1|]. split; [exact Hp2|].
  split; [intros fuel Hf; now apply (settled_run P rank HR)|].
  split; [intros fuel Hf; now apply (settled_run P rank HR)|].
  split; [reflexivity|]. split; [reflexivity|].
  destruct (reachable_readable P HP s Hs) as [Hg _].
  split.
  - intros E. apply (renderChain_readable _ _ (Hg _ _ H1) (Hg _ _ H2)) in E.
    now apply app_inj_tail in E.
  - now intros [-> ->].
Qed.

Lemma shorthandProgram_ranked :
  Ranked (Fixture.shorthandProgram (Some Fixture.pkg)) (fun n => n).
Proof.
  split.
  - intros n p. do 13 (destruct n as [|n]; [cbn; intros [= <-]; lia|]).
    cbn. destruct n; discriminate.
  - intros n. destruct n as [|n]; [cbn; discriminate | cbn; lia].
  - intros n d ds _. discriminate.
Defined.

Lemma shorthandProgram_packagesReadable :
  packagesReadable (Fixture.shorthandProgram (Some Fixture.pkg)).
Proof. intros file d [= <-]. reflexivity. Defined.

(** C8, witness: the declarations of [a] and of [b] in
    [const a = 1; const b = { a }], after the file has been indexed. *)
Lemma declaration_symbol_strings_witness :
  exists s,
    index (Fixture.shorthandProgram (Some Fixture.pkg)) 8 8 0 ∅ = Some s
    /\ (LsifSymbol.value <$> globalSymbolTable s !! 3) = Some "pkg/a."
    /\ (LsifSymbol.value <$> globalSymbolTable s !! 8) = Some "pkg/b."
    /\ "pkg/a." <> "pkg/b.".
Proof.
  pose (P := Fixture.shorthandProgram (Some Fixture.pkg)).
  assert (exists s, index P 8 8 0 ∅ = Some s
                    /\ globalSymbolTable s !! 3
                       = Some (LsifSymbol.Global [Fixture.pkg; Descriptor.termDescriptor "a"])
                    /\ globalSymbolTable s !! 8
                       = Some (LsifSymbol.Global [Fixture.pkg; Descriptor.termDescriptor "b"]))
    as (s & Hrun & H3 & H8).
  { eexists. split; [vm_compute; reflexivity|]. split; vm_compute; reflexivity. }
  exists s. split; [exact Hrun|].
  split; [now rewrite H3|]. split; [now rewrite H8|].
  destruct (declaration_symbol_strings P (fun n => n) s 3 8
              (Descriptor.termDescriptor "a") (Descriptor.termDescriptor "b") _ _
              shorthandProgram_packagesReadable shorthandProgram_ranked
              (index_reachable P 8 8 0 (initial ∅) s (reachable_initial P) Hrun)
              eq_refl eq_refl H3 H8)
    as (p1 & p2 & o1 & o2 & _ & _ & _ & _ & _ & _ & Hiff).
  intros E. apply Hiff in E as [_ E]. discriminate E.
Defined.

(* ===================================================================== *)
(** ** Property names and their counters *)
(* ===================================================================== *)

Section PropertyNames.

Variable P : Program.

Lemma lsifSymbol_property_counters fuel node s text r s' :
  isPropertyAssignment P node || isShorthandPropertyAssignment P node = true ->
  isSourceFile P (getSourceFile P node) = true ->
  nameText P node = Some text ->
  fromCache s node = None ->
  lsifSymbol P (2 + fuel) node s = Some (r, s') ->
  forall key, key <> text -> propertyCounters s' !! key = propertyCounters s !! key.
Proof.
  intros Hprop Hsf Hname Hc H key Hkey.
  assert (Hb : isBlock P node = false).
  { apply orb_prop in Hprop as [K|K]; kinds_of K; reflexivity. }
  assert (Hnsf : isSourceFile P node = false).
  { apply orb_prop in Hprop as [K|K]; kinds_of K; reflexivity. }
  assert (Hens : propertyCounters (ensurePropertyCounter text s) !! key
                 = propertyCounters s !! key).
  { unfold ensurePropertyCounter. destruct (propertyCounters s !! text); [reflexivity|].
    cbn. now rewrite lookup_insert_ne. }
  change (2 + fuel) with (S (S fuel)) in H.
  remember (S fuel) as fuel' eqn:Hfuel. cbn [lsifSymbol] in H.
  rewrite Hc, Hb, Hnsf, Hprop, Hname in H. cbn [mbind option_bind] in H.
  destruct (lsifSymbol P fuel' (getSourceFile P node) (ensurePropertyCounter text s))
    as [[file s1]|] eqn:E1; [|discriminate]. subst fuel'.
  cbn [mbind option_bind] in H.
  assert (propertyCounters s1 = propertyCounters (ensurePropertyCounter text s)) as E.
  { cbn [lsifSymbol] in E1.
    destruct (fromCache _ (getSourceFile P node)); [now injection E1 as <- <-|].
    replace (isBlock P (getSourceFile P node)) with false in E1
      by (symmetry; pose proof Hsf as K; kinds_of K; reflexivity).
    rewrite Hsf in E1.
    destruct (Packages.symbol P _); now injection E1 as <- <-. }
  unfold nextPropertyCounter in H.
  destruct (propertyCounters s1 !! text) as [c|]; [|discriminate].
  cbn in H. injection H as <- <-. cbn.
  rewrite lookup_insert_ne by congruence. now rewrite E.
Qed.

End PropertyNames.

Lemma append_empty_inv (a b : string) : a = a ++ b -> b = "".
Proof.
  induction a as [|c a IH]; norm_append; [auto|].
  intros [= E]. auto.
Qed.

(** X21.  The counter of a property is appended to its name without a
    separator, so two property assignments of different names can get one
    identity: when the name of the second is the name of the first followed
    by digits, and the counter of the first name, printed, is those digits
    followed by the counter of the second name, the two properties of one
    file resolve to the same global identity.  The eleventh property [a] of
    a file and its first property [a1] are both named [a10]. *)
Theorem property_names_run_together (P : Program) (fuel : nat)
    (node1 node2 : Node) (s : State) (text digits : string) :
  isPropertyAssignment P node1 || isShorthandPropertyAssignment P node1 = true ->
  isPropertyAssignment P node2 || isShorthandPropertyAssignment P node2 = true ->
  getSourceFile P node2 = getSourceFile P node1 ->
  isSourceFile P (getSourceFile P node1) = true ->
  nameText P node1 = Some text ->
  nameText P node2 = Some (text ++ digits) ->
  digits <> "" ->
  fromCache s node1 = None ->
  fromCache s node2 = None ->
  LsifSymbol.decimal (default Counter.new (propertyCounters s !! text))
  = digits
    ++ LsifSymbol.decimal
         (default Counter.new (propertyCounters s !! (text ++ digits))) ->
  exists r s1 s2,
    lsifSymbol P (2 + fuel) node1 s = Some (r, s1)
    /\ lsifSymbol P (2 + fuel) node2 s1 = Some (r, s2)
    /\ LsifSymbol.isGlobal r = true.
Proof.
  intros K1 K2 Hsame Hsf N1 N2 Hdigits C1 C2 Hmeet.
  assert (Hne : node1 <> node2).
  { intros ->. rewrite N1 in N2. injection N2 as E.
    now apply append_empty_inv in E. }
  assert (Hkey : text ++ digits <> text).
  { intros E. symmetry in E. now apply append_empty_inv in E. }
  destruct (lsifSymbol_property P fuel node1 s text K1 Hsf N1 C1)
    as (s1 & Hrun1 & Hsrc1 & _ & Hother1).
  pose proof (lsifSymbol_property_counters P fuel node1 s text _ s1 K1 Hsf N1 C1
                Hrun1 (text ++ digits) Hkey) as Hcount.
  assert (Hn2sf : node2 <> getSourceFile P node1).
  { intros E. rewrite <- E in Hsf.
    apply orb_prop in K2 as [K|K];
      (eapply (kind_clash P _ _ node2 K Hsf); discriminate). }
  assert (C2' : fromCache s1 node2 = None).
  { rewrite Hother1; [exact C2 | congruence | exact Hn2sf]. }
  assert (Hsf2 : isSourceFile P (getSourceFile P node2) = true) by now rewrite Hsame.
  destruct (lsifSymbol_property P fuel node2 s1 (text ++ digits) K2 Hsf2 N2 C2')
    as (s2 & Hrun2 & _).
  rewrite Hsame, Hsrc1 in Hrun2. unfold Counter.t in *.
  rewrite Hcount in Hrun2.
  eexists _, s1, s2. split; [exact Hrun1|]. split; [|reflexivity].
  rewrite Hrun2. rewrite Hmeet. now rewrite append_assoc.
Qed.

(** X21, witness: the eleventh [a] and the [a1] of
    [const x = [{ a: 0 }, ..., { a: 0 }, { a1: 0 }]]. *)
Lemma property_names_run_together_witness :
  exists r s1 s2,
    lsifSymbol Fixture.crowdedProgram 2 47 Fixture.tenResolved = Some (r, s1)
    /\ lsifSymbol Fixture.crowdedProgram 2 51 s1 = Some (r, s2)
    /\ LsifSymbol.value r = "pkg/a10:".
Proof.
  destruct (property_names_run_together Fixture.crowdedProgram 0 47 51 Fixture.tenResolved
              "a" "1")
    as (r & s1 & s2 & H1 & H2 & _);
    [reflexivity | reflexivity | reflexivity | reflexivity | reflexivity
    | reflexivity | discriminate | vm_compute; reflexivity
    | vm_compute; reflexivity | vm_compute; reflexivity |].
  exists r, s1, s2. split; [exact H1|]. split; [exact H2|].
  vm_compute in H1. injection H1 as <- _. reflexivity.
Defined.
